(** * Antigravity2api: the credential pool and the chat-completion handler

    A shallow embedding of [src/auth/token_manager.js] (class [TokenManager])
    and of the [POST /v1/chat/completions] handler of [src/server/index.js],
    followed by the properties of the design document that were checked
    against them.

    Conventions of the embedding.
    - A JavaScript string is the list of its UTF-16 code units, so that
    [length] is JavaScript's [.length].
    - Integral JavaScript numbers (times in milliseconds, status codes) are
    [Z]; array indices and counters are [nat].
    - A JavaScript computation is a state transformer that ends either
    normally or by a thrown exception ([Throw]); [try_catch] is
    [try { } catch { }].  State changes made before a [throw] stay.
    - Everything outside the two source files (the file system, the clock,
    the OAuth endpoint, the id generators, the upstream requester and the
    request translator) is a parameter of the section that uses it. *)

From Stdlib Require Import ZArith NArith Lia.
From stdpp Require Import base option list gmap.

Local Open Scope Z_scope.

(** ** JavaScript strings *)

Abbreviation jsstring := (list N).

Module JS.

(** [s.startsWith(p)] *)
Fixpoint startsWith (p s : jsstring) : bool :=
  match p, s with
  | [], _ => true
  | _ :: _, [] => false
  | a :: p', b :: s' => (a =? b)%N && startsWith p' s'
  end.

(** [s.includes(p)] *)
Fixpoint includes (p s : jsstring) : bool :=
  startsWith p s ||
  match s with
  | [] => false
  | _ :: s' => includes p s'
  end.

(** [s.slice(n)] for [0 <= n] *)
Definition slice (n : nat) (s : jsstring) : jsstring := drop n s.

(** Truthiness of a string: only the empty string is falsy. *)
Definition truthy (s : jsstring) : bool :=
  match s with [] => false | _ => true end.

(** Truthiness of a possibly missing number: [undefined] and [0] are falsy. *)
Definition truthy_num (x : option Z) : bool :=
  match x with None => false | Some v => negb (v =? 0) end.

(** Truthiness of a possibly missing string. *)
Definition truthy_opt (x : option jsstring) : bool :=
  match x with None => false | Some s => truthy s end.

End JS.

(** ** Exceptions and the computation monad *)

Record JSError := mkError {
  statusCode : option Z;      (* [error.statusCode], [undefined] for a plain Error *)
  message : jsstring
}.

Inductive result (A : Type) : Type :=
| Ok (a : A)
| Throw (e : JSError).
Arguments Ok {A} a.
Arguments Throw {A} e.

Definition M (S A : Type) : Type := S → S * result A.

Definition ret {S A} (a : A) : M S A := λ s, (s, Ok a).

Definition throw {S A} (e : JSError) : M S A := λ s, (s, Throw e).

Definition bind {S A B} (m : M S A) (k : A → M S B) : M S B :=
  λ s, match m s with
       | (s', Ok a) => k a s'
       | (s', Throw e) => (s', Throw e)
       end.

Definition try_catch {S A} (m : M S A) (h : JSError → M S A) : M S A :=
  λ s, match m s with
       | (s', Ok a) => (s', Ok a)
       | (s', Throw e) => h e s'
       end.

Definition gets {S A} (f : S → A) : M S A := λ s, (s, Ok (f s)).

Definition modify {S} (f : S → S) : M S unit := λ s, (f s, Ok tt).

#[export] Instance M_ret {S} : MRet (M S) := λ A, ret.
#[export] Instance M_bind {S} : MBind (M S) := λ A B k m, bind m k.

(** The message of the [TypeError] raised by a property access on
    [undefined]; its text plays no role. *)
Definition TypeError : JSError := mkError None [].

(** ** Credentials *)

Record Token := mkToken {
  refresh_token : jsstring;
  access_token : option jsstring;   (* absent, or a string *)
  expires_in : option Z;
  timestamp : option Z;
  enable : option bool;          (* absent, [true] or [false] *)
  projectId : option jsstring;
  sessionId : option jsstring    (* only on pool entries, never stored *)
}.

#[export] Instance Token_eq_dec : EqDecision Token.
Proof. solve_decision. Defined.

Definition set_projectId (p : jsstring) (t : Token) : Token :=
  mkToken (refresh_token t) (access_token t) (expires_in t) (timestamp t)
          (enable t) (Some p) (sessionId t).

Definition set_sessionId (s : option jsstring) (t : Token) : Token :=
  mkToken (refresh_token t) (access_token t) (expires_in t) (timestamp t)
          (enable t) (projectId t) s.

Definition set_enable (b : bool) (t : Token) : Token :=
  mkToken (refresh_token t) (access_token t) (expires_in t) (timestamp t)
          (Some b) (projectId t) (sessionId t).

Definition set_grant (a : option jsstring) (e : option Z) (ts : Z) (t : Token) : Token :=
  mkToken (refresh_token t) a e (Some ts)
          (enable t) (projectId t) (sessionId t).

(** [const { sessionId, ...tokenToSave } = memToken] *)
Definition tokenToSave (t : Token) : Token := set_sessionId None t.

(** [t.refresh_token !== rt] *)
Definition other (rt : jsstring) (t : Token) : bool :=
  negb (bool_decide (refresh_token t = rt)).
Arguments other : simpl never.

(** [token.enable !== false] *)
Definition enabled (t : Token) : bool :=
  match enable t with Some false => false | _ => true end.

(** ** The world of the token manager *)

Record Usage := mkUsage {
  requests : nat;
  lastUsed : option Z
}.

Record TokenManager := mkManager {
  tokens : list Token;
  currentIndex : nat;
  lastLoadTime : Z;
  cachedData : option (list Token);
  usageStats : gmap jsstring Usage
}.

Definition loadInterval : Z := 60000.

(** [data/accounts.json].  [file = None]: reading or parsing it throws.
    [writable = false]: [writeFileSync] throws and the file keeps its
    content.  [accesses] counts the calls, so that a retry would show. *)
Record Disk := mkDisk {
  file : option (list Token);
  writable : bool;
  accesses : nat                 (* file-system calls made so far *)
}.

Inductive Level := Info | Warn | Error.

Inductive LogSite :=
| InitStart | InitLoaded (n : nat) | InitFailed
| RefreshStart | SaveFailed | Disabling
| AccountDisabled (accountNum : nat) | RefreshFailed (tokenNum : nat)
| Request403 | RefreshedAfter403 | Refresh403 | RefreshFailedAfter403
| ResponseFailed | FakeStreamFailed.

Record World := mkWorld {
  mgr : TokenManager;
  disk : Disk;
  clock : Z;                     (* what [Date.now()] returns *)
  fetches : nat;                 (* OAuth exchanges made so far *)
  draws : nat;                   (* identifiers generated so far *)
  logs : list (Level * LogSite)  (* most recent last *)
}.

Definition with_mgr (f : TokenManager → TokenManager) (w : World) : World :=
  mkWorld (f (mgr w)) (disk w) (clock w) (fetches w) (draws w) (logs w).

Definition set_tokens (l : list Token) (m : TokenManager) : TokenManager :=
  mkManager l (currentIndex m) (lastLoadTime m) (cachedData m) (usageStats m).

Definition set_currentIndex (i : nat) (m : TokenManager) : TokenManager :=
  mkManager (tokens m) i (lastLoadTime m) (cachedData m) (usageStats m).

Definition set_lastLoadTime (t : Z) (m : TokenManager) : TokenManager :=
  mkManager (tokens m) (currentIndex m) t (cachedData m) (usageStats m).

Definition set_cachedData (c : option (list Token)) (m : TokenManager) : TokenManager :=
  mkManager (tokens m) (currentIndex m) (lastLoadTime m) c (usageStats m).

Definition set_usageStats (u : gmap jsstring Usage) (m : TokenManager) : TokenManager :=
  mkManager (tokens m) (currentIndex m) (lastLoadTime m) (cachedData m) u.

Definition with_disk (f : Disk → Disk) (w : World) : World :=
  mkWorld (mgr w) (f (disk w)) (clock w) (fetches w) (draws w) (logs w).

Definition count_access (d : Disk) : Disk :=
  mkDisk (file d) (writable d) (S (accesses d)).

Definition set_file (l : list Token) (d : Disk) : Disk :=
  mkDisk (Some l) (writable d) (accesses d).

Definition advance_clock (dt : Z) (w : World) : World :=
  mkWorld (mgr w) (disk w) (clock w + dt) (fetches w) (draws w) (logs w).

Definition count_fetch (w : World) : World :=
  mkWorld (mgr w) (disk w) (clock w) (S (fetches w)) (draws w) (logs w).

Definition count_draw (w : World) : World :=
  mkWorld (mgr w) (disk w) (clock w) (fetches w) (S (draws w)) (logs w).

Definition add_log (e : Level * LogSite) (w : World) : World :=
  mkWorld (mgr w) (disk w) (clock w) (fetches w) (draws w) (logs w ++ [e]).

(** The answer of the OAuth endpoint to one refresh exchange. *)
Record TokenGrant := mkGrant {
  grant_access_token : option jsstring;   (* [data.access_token] *)
  grant_expires_in : option Z
}.

Inductive FetchOutcome :=
| FetchRejected (msg : jsstring)
    (* [fetch] itself rejects: no status code *)
| HttpResponse (status : Z) (text : jsstring) (json : option TokenGrant).
    (* [json = None]: the body is not JSON, [response.json()] rejects *)

Record OAuthReply := mkReply {
  latency : nat;                 (* milliseconds the exchange takes *)
  outcome : FetchOutcome
}.

(** [response.ok] *)
Definition response_ok (status : Z) : bool := (200 <=? status) && (status <=? 299).

Module TM.
Section TokenManager.

(** The OAuth endpoint: the reply to the [n]-th exchange made by the
    process, for the given refresh token. *)
Variable oauth : nat → jsstring → OAuthReply.
(** [generateProjectId()], [generateSessionId()]: the [n]-th identifier drawn. *)
Variable generateProjectId : nat → jsstring.
Variable generateSessionId : nat → jsstring.

Abbreviation Op := (M World).

Definition log (l : Level) (s : LogSite) : Op unit := modify (add_log (l, s)).

Definition now : Op Z := gets clock.

(** [JSON.parse(fs.readFileSync(this.filePath, 'utf8'))] *)
Definition readFile : Op (list Token) :=
  modify (with_disk count_access);;
  d ← gets disk;
  match file d with
  | Some l => ret l
  | None => throw (mkError None [])
  end.

(** [fs.writeFileSync(this.filePath, JSON.stringify(data, null, 2), 'utf8')] *)
Definition writeFile (l : list Token) : Op unit :=
  modify (with_disk count_access);;
  d ← gets disk;
  if writable d then modify (with_disk (set_file l))
  else throw (mkError None []).

(** The [map] of [initialize]: give a project id to the entries that
    lack one.  Returns the new array, [needSave] and the number of
    identifiers drawn so far. *)
Fixpoint assignProjectIds (n : nat) (l : list Token) : list Token * bool * nat :=
  match l with
  | [] => ([], false, n)
  | t :: l' =>
      if JS.truthy_opt (projectId t) then
        let '(r, b, n') := assignProjectIds n l' in (t :: r, b, n')
      else
        let '(r, _, n') := assignProjectIds (S n) l' in
        (set_projectId (generateProjectId n) t :: r, true, n')
  end.

(** [.map(token => ({...token, sessionId: generateSessionId()}))] *)
Fixpoint assignSessionIds (n : nat) (l : list Token) : list Token * nat :=
  match l with
  | [] => ([], n)
  | t :: l' =>
      let '(r, n') := assignSessionIds (S n) l' in
      (set_sessionId (Some (generateSessionId n)) t :: r, n')
  end.

Definition set_draws (n : nat) (w : World) : World :=
  mkWorld (mgr w) (disk w) (clock w) (fetches w) n (logs w).

Definition initialize : Op unit :=
  try_catch
    (log Info InitStart;;
     data ← readFile;
     n ← gets draws;
     let '(tokenArray, needSave, n1) := assignProjectIds n data in
     modify (set_draws n1);;
     (if needSave then writeFile tokenArray else ret tt);;
     modify (with_mgr (set_cachedData (Some tokenArray)));;
     let '(pool, n2) := assignSessionIds n1 (List.filter enabled tokenArray) in
     modify (set_draws n2);;
     modify (with_mgr (set_tokens pool));;
     modify (with_mgr (set_currentIndex 0));;
     t ← now;
     modify (with_mgr (set_lastLoadTime t));;
     log Info (InitLoaded (length pool)))
    (λ _,
     log Error InitFailed;;
     modify (with_mgr (set_tokens []))).

(** [new TokenManager()]: the fields get their first values, then the
    store is loaded. *)
Definition constructor : Op unit :=
  modify (with_mgr (λ _, mkManager [] 0 0 None ∅));;
  initialize.

Definition loadTokens : Op unit :=
  t ← now;
  m ← gets mgr;
  if (t - lastLoadTime m <? loadInterval) && (0 <? length (tokens m))%nat
  then ret tt
  else initialize.

Definition isExpired (t : Z) (token : Token) : bool :=
  if negb (JS.truthy_num (timestamp token)) || negb (JS.truthy_num (expires_in token))
  then true
  else match timestamp token, expires_in token with
       | Some ts, Some ex => t >=? (ts + ex * 1000) - 300000
       | _, _ => true
       end.

(** [allTokens.findIndex(t => t.refresh_token === rt)] *)
Fixpoint findIndex (rt : jsstring) (l : list Token) : option nat :=
  match l with
  | [] => None
  | t :: l' => if bool_decide (refresh_token t = rt) then Some O
               else S <$> findIndex rt l'
  end.

(** One turn of the [forEach] of [saveToFile]. *)
Definition mergeToken (allTokens : list Token) (memToken : Token) : list Token :=
  match findIndex (refresh_token memToken) allTokens with
  | Some index => <[index := tokenToSave memToken]> allTokens
  | None => allTokens
  end.

Definition mergeTokens (pool allTokens : list Token) : list Token :=
  foldl mergeToken allTokens pool.

(** [saveToFile].  When [this.cachedData] is set, [allTokens] is that very
    array, so the [forEach] updates the cache in place before the write
    is attempted. *)
Definition saveToFile : Op unit :=
  try_catch
    (m ← gets mgr;
     match cachedData m with
     | Some cached =>
         let allTokens := mergeTokens (tokens m) cached in
         modify (with_mgr (set_cachedData (Some allTokens)));;
         writeFile allTokens;;
         modify (with_mgr (set_cachedData (Some allTokens)))
     | None =>
         data ← readFile;
         let allTokens := mergeTokens (tokens m) data in
         writeFile allTokens;;
         modify (with_mgr (set_cachedData (Some allTokens)))
     end)
    (λ _, log Error SaveFailed).

(** [await fetch('https://oauth2.googleapis.com/token', ...)] *)
Definition fetchToken (rt : jsstring) : Op FetchOutcome :=
  λ w, let r := oauth (fetches w) rt in
       (advance_clock (Z.of_nat (latency r)) (count_fetch w), Ok (outcome r)).

(** [refreshToken(token)], where [token] is the object stored at index
    [idx] of the pool: the assignments to its fields update the pool. *)
Definition refreshToken (idx : nat) (token : Token) : Op Token :=
  log Info RefreshStart;;
  r ← fetchToken (refresh_token token);
  match r with
  | FetchRejected msg => throw (mkError None msg)
  | HttpResponse status text json =>
      if response_ok status then
        match json with
        | None => throw (mkError None [])
        | Some data =>
            t ← now;
            let token' := set_grant (grant_access_token data) (grant_expires_in data) t token in
            modify (with_mgr (λ m, set_tokens (<[idx := token']> (tokens m)) m));;
            saveToFile;;
            ret token'
        end
      else throw (mkError (Some status) text)
  end.

(** [disableToken(token)], where [token] is the object stored at index
    [idx] of the pool.  The message of its log line is built first, from
    [token.access_token.slice(-8)]: on a credential without an access
    token that is a [TypeError], thrown before anything else is done. *)
Definition disableToken (idx : nat) (token : Token) : Op unit :=
  match access_token token with
  | None => throw TypeError
  | Some _ =>
      log Warn Disabling;;
      modify (with_mgr (λ m, set_tokens (<[idx := set_enable false token]> (tokens m)) m));;
      saveToFile;;
      modify (with_mgr (λ m,
        set_tokens (List.filter (other (refresh_token token)) (tokens m)) m));;
      modify (with_mgr (λ m,
        set_currentIndex (currentIndex m mod Nat.max (length (tokens m)) 1)%nat m))
  end.

Definition recordUsage (token : Token) : Op unit :=
  t ← now;
  modify (with_mgr (λ m,
    let key := refresh_token token in
    let stats := default (mkUsage 0 None) (usageStats m !! key) in
    set_usageStats (<[key := mkUsage (S (requests stats)) (Some t)]> (usageStats m)) m)).

(** [this.currentIndex = (this.currentIndex + 1) % this.tokens.length].
    The pool is not empty wherever [getToken] does this (lemma
    [turn_keeps_pool]), so that the modulus is not 0. *)
Definition advance : Op unit :=
  modify (with_mgr (λ m,
    set_currentIndex ((currentIndex m + 1) mod length (tokens m))%nat m)).

(** [error.statusCode === 403 || error.statusCode === 400] *)
Definition rejected (e : JSError) : bool :=
  match statusCode e with
  | Some c => (c =? 403) || (c =? 400)
  | None => false
  end.

(** The body of the [for] loop of [getToken], with [n] turns left.
    [Some r] from a turn: the function returns [r]; [None]: next turn. *)
Definition getToken_turn : Op (option (option Token)) :=
  m ← gets mgr;
  let idx := currentIndex m in
  let token := tokens m !! idx in
  try_catch
    (match token with
     | None => throw TypeError          (* [token.timestamp] on [undefined] *)
     | Some tok =>
         t ← now;
         tok' ← (if isExpired t tok then refreshToken idx tok else ret tok);
         advance;;
         recordUsage tok';;
         ret (Some (Some tok'))
     end)
    (λ error,
     if rejected error then
       m1 ← gets mgr;
       log Warn (AccountDisabled (currentIndex m1 + 1));;
       match token with
       | None => throw TypeError        (* [token.access_token] on [undefined] *)
       | Some tok =>
           disableToken idx tok;;
           m2 ← gets mgr;
           if (length (tokens m2) =? 0)%nat then ret (Some None) else ret None
       end
     else
       m1 ← gets mgr;
       log Error (RefreshFailed (currentIndex m1 + 1));;
       advance;;
       ret None).

Fixpoint getToken_loop (n : nat) : Op (option Token) :=
  match n with
  | O => ret None
  | S n' =>
      r ← getToken_turn;
      match r with
      | Some v => ret v
      | None => getToken_loop n'
      end
  end.

Definition getToken : Op (option Token) :=
  loadTokens;;
  m ← gets mgr;
  if (length (tokens m) =? 0)%nat then ret None
  else getToken_loop (length (tokens m)).

(** [this.tokens.find(t => t.access_token === a)], with its index *)
Fixpoint findByAccess (a : option jsstring) (l : list Token) : option (nat * Token) :=
  match l with
  | [] => None
  | t :: l' => if bool_decide (access_token t = a) then Some (O, t)
               else prod_map S id <$> findByAccess a l'
  end.

Definition disableCurrentToken (token : Token) : Op unit :=
  m ← gets mgr;
  match findByAccess (access_token token) (tokens m) with
  | Some (i, found) => disableToken i found
  | None => ret tt
  end.

Definition handleRequestError (error : JSError) (currentAccessToken : option jsstring)
  : Op (option Token) :=
  if bool_decide (statusCode error = Some 403) then
    log Warn Request403;;
    m ← gets mgr;
    let idx := currentIndex m in
    match tokens m !! idx with
    | Some currentToken =>
        if bool_decide (access_token currentToken = currentAccessToken) then
          r ← try_catch
                 (tok ← refreshToken idx currentToken;
                  log Info RefreshedAfter403;;
                  ret (Some (Some tok)))
                 (λ refreshError,
                  if bool_decide (statusCode refreshError = Some 403) then
                    log Warn Refresh403;;
                    disableToken idx currentToken;;
                    r ← getToken;
                    ret (Some r)
                  else
                    log Error RefreshFailedAfter403;;
                    ret None);
          match r with
          | Some v => ret v
          | None => getToken
          end
        else getToken
    | None => getToken
    end
  else ret None.

(** [getTokenRequests(token)] *)
Definition getTokenRequests (token : Token) : Op nat :=
  m ← gets mgr;
  ret (match usageStats m !! refresh_token token with
       | Some stats => requests stats
       | None => 0%nat
       end).

(** One line of the report of [getUsageStats()].  [lastUsed] is kept as
    the time that the source prints as an ISO string. *)
Record TokenUsage := mkTokenUsage {
  usageIndex : nat;
  usageRequests : nat;
  usageLastUsed : option Z;
  isCurrent : bool
}.

Record UsageReport := mkReport {
  totalTokens : nat;
  reportIndex : nat;
  totalRequests : nat;
  reportTokens : list TokenUsage
}.

(** [usage.lastUsed ? new Date(usage.lastUsed).toISOString() : null] *)
Definition printLastUsed (t : option Z) : option Z :=
  if JS.truthy_num t then t else None.

(** [Array.from(this.usageStats.values()).reduce((sum, s) => sum + s.requests, 0)] *)
Definition sumRequests (stats : gmap jsstring Usage) : nat :=
  map_fold (λ _ s sum, (sum + requests s)%nat) 0%nat stats.

Definition getUsageStats : Op UsageReport :=
  m ← gets mgr;
  let line (index : nat) (token : Token) :=
    let usage := default (mkUsage 0 None) (usageStats m !! refresh_token token) in
    mkTokenUsage index (requests usage) (printLastUsed (lastUsed usage))
                 (bool_decide (index = currentIndex m)) in
  ret (mkReport (length (tokens m)) (currentIndex m) (sumRequests (usageStats m))
                (imap line (tokens m))).

End TokenManager.
End TM.

(** ** The chat-completion handler *)

Module Server.

(** ['假流式/'] *)
Definition fakePrefix : jsstring := [20551; 27969; 24335; 47]%N.
(** ['-image'] *)
Definition imageMarker : jsstring := [45; 105; 109; 97; 103; 101]%N.
(** ['image_gen'] *)
Definition imageGen : jsstring := [105; 109; 97; 103; 101; 95; 103; 101; 110]%N.
(** ['messages is required'] *)
Definition messagesRequired : jsstring :=
  [109; 101; 115; 115; 97; 103; 101; 115; 32; 105; 115; 32; 114; 101; 113;
   117; 105; 114; 101; 100]%N.
(** The message of the error thrown when [getToken()] gives [null]. *)
Definition noTokenMessage : jsstring :=
  [27809; 26377; 21487; 29992; 30340; 116; 111; 107; 101; 110; 65292; 35831;
   36816; 34892; 32; 110; 112; 109; 32; 114; 117; 110; 32; 108; 111; 103;
   105; 110; 32; 33719; 21462; 116; 111; 107; 101; 110]%N.
(** The sentence appended to the system instruction of an image request. *)
Definition imageInstruction : jsstring :=
  [29616; 22312; 20320; 20316; 20026; 32472; 30011; 27169; 22411; 32858;
   28966; 20110; 24110; 21161; 29992; 25143; 29983; 25104; 22270; 29255]%N.
(** ['错误: '] and ['Error: '] *)
Definition errorPrefixZh : jsstring := [38169; 35823; 58; 32]%N.
Definition errorPrefixEn : jsstring := [69; 114; 114; 111; 114; 58; 32]%N.

(** The period of the heartbeat timer, in milliseconds. *)
Definition heartbeatPeriod : Z := 3000.

(** [messages[i].content]: absent, a string, or an array of parts. *)
Inductive Content :=
| NoContent
| Text (s : jsstring)
| Parts (n : nat).          (* an array of [n] parts *)

Record Message := mkMessage {
  role : jsstring;
  content : Content
}.

(** [messages.length === 1 && messages[0].content &&
       messages[0].content.length < 20], as a truth value *)
Definition isSingleShortMessage (messages : list Message) : bool :=
  match messages with
  | [m] =>
      match content m with
      | NoContent => false
      | Text s => JS.truthy s && (length s <? 20)%nat
      | Parts n => (n <? 20)%nat
      end
  | _ => false
  end.

(** [model && model.startsWith('假流式/')], as a truth value *)
Definition isFakeStreaming (model : option jsstring) : bool :=
  match model with
  | Some m => JS.truthy m && JS.startsWith fakePrefix m
  | None => false
  end.

(** [actualModel] *)
Definition actualModel (model : option jsstring) : option jsstring :=
  if isFakeStreaming model then JS.slice (length fakePrefix) <$> model else model.

Inductive HeaderName := ContentType | CacheControl | Connection | XAccelBuffering.

Inductive Header :=
| ContentTypeEventStream | ContentTypeJson
| CacheControlNoCache | ConnectionKeepAlive | XAccelBufferingNo.

Definition headerName (h : Header) : HeaderName :=
  match h with
  | ContentTypeEventStream | ContentTypeJson => ContentType
  | CacheControlNoCache => CacheControl
  | ConnectionKeepAlive => Connection
  | XAccelBufferingNo => XAccelBuffering
  end.

Definition sameName (h h' : Header) : bool :=
  match headerName h, headerName h' with
  | ContentType, ContentType | CacheControl, CacheControl
  | Connection, Connection | XAccelBuffering, XAccelBuffering => true
  | _, _ => false
  end.

(** A header set again takes the place of the one of the same name. *)
Definition putHeader (h : Header) (l : list Header) : list Header :=
  List.filter (λ h', negb (sameName h h')) l ++ [h].

Inductive FinishReason := Stop | ToolCalls.

Section Handler.

(** What the handler only passes along. *)
Context {Tools Params ToolCall Config Payload : Type}.

(** The translated request, as far as the handler looks into it. *)
Inductive GenerationConfig :=
| Translated (c : Config)
| SingleCandidate.                     (* [{ candidateCount: 1 }] *)

Record RequestBody := mkBody {
  generationConfig : GenerationConfig;
  systemInstruction : option (list jsstring);   (* the texts of [parts] *)
  bodyTools : option Tools;
  toolConfig : option Tools;
  requestType : option jsstring;
  payload : Payload
}.

Record Request := mkRequest {
  messages : option (list Message);
  model : option jsstring;
  stream : option bool;                (* absent, [true] or [false] *)
  tools : option Tools;
  params : Params;
  authorization : option jsstring
}.

Inductive Delta :=
| RoleDelta                            (* [{ role: 'assistant', content: '' }] *)
| ContentDelta (s : jsstring)
| ToolCallsDelta (tc : list ToolCall)
| EmptyDelta.                          (* [{}] *)

Record Chunk := mkChunk {
  chunk_id : Z;                        (* the time in [chatcmpl-<time>] *)
  created : Z;
  chunk_model : option jsstring;
  delta : Delta;
  finish_reason : option FinishReason
}.

Inductive Json :=
| ErrorBody (msg : jsstring)           (* [{ error: msg }] *)
| CompletionBody (id created : Z) (model : option jsstring)
                 (content : jsstring) (tool_calls : option (list ToolCall))
                 (finish : FinishReason).

(** What has been written to the connection. *)
Inductive Written :=
| Event (c : Chunk)                    (* [data: <JSON>\n\n] *)
| Done                                 (* [data: [DONE]\n\n] *)
| Body (j : Json).

Record Response := mkResponse {
  headers : list Header;
  status : Z;
  headersSent : bool;
  writableEnded : bool;
  written : list Written
}.

Definition fresh : Response := mkResponse [] 200 false false [].

(** The state of one request: the process, the response object, the
    heartbeat timer (the chunk it writes when it fires) and the local
    variable [stream]. *)
Record Conn := mkConn {
  world : World;
  res : Response;
  interval : option Chunk;
  streamVar : bool
}.

Definition start (w : World) : Conn := mkConn w fresh None true.

Definition with_res (f : Response → Response) (c : Conn) : Conn :=
  mkConn (world c) (f (res c)) (interval c) (streamVar c).

Definition with_world (f : World → World) (c : Conn) : Conn :=
  mkConn (f (world c)) (res c) (interval c) (streamVar c).

Definition set_interval (i : option Chunk) (c : Conn) : Conn :=
  mkConn (world c) (res c) i (streamVar c).

Definition set_streamVar (b : bool) (c : Conn) : Conn :=
  mkConn (world c) (res c) (interval c) b.

Abbreviation H := (M Conn).

(** Run an operation of the token manager inside a request. *)
Definition lift {A} (m : M World A) : H A :=
  λ c, let '(w, r) := m (world c) in (mkConn w (res c) (interval c) (streamVar c), r).

(** [res.setHeader]: throws once the headers are sent. *)
Definition setHeader (h : Header) : H unit :=
  r ← gets res;
  if headersSent r then throw (mkError None [])
  else modify (with_res (λ r, mkResponse (putHeader h (headers r)) (status r)
                                  (headersSent r) (writableEnded r) (written r))).

Definition flushHeaders : H unit :=
  modify (with_res (λ r, mkResponse (headers r) (status r) true
                           (writableEnded r) (written r))).

(** [res.write]: sends the headers if they were not; after [end] nothing
    reaches the client. *)
Definition write (x : Written) : H unit :=
  modify (with_res (λ r,
    if writableEnded r then r
    else mkResponse (headers r) (status r) true false (written r ++ [x]))).

Definition end_ : H unit :=
  modify (with_res (λ r, mkResponse (headers r) (status r) true true (written r))).

Definition setStatus (s : Z) : H unit :=
  modify (with_res (λ r, mkResponse (headers r) s (headersSent r)
                           (writableEnded r) (written r))).

(** [res.json(j)] *)
Definition json (j : Json) : H unit :=
  setHeader ContentTypeJson;;
  write (Body j);;
  end_.

(** The heartbeat timer fires once: [sendEmptyChunk]. *)
Definition timerFires : H unit :=
  i ← gets interval;
  match i with
  | None => ret tt
  | Some chunk =>
      r ← gets res;
      if writableEnded r then ret tt else write (Event chunk)
  end.

Fixpoint timerFiresTimes (n : nat) : H unit :=
  match n with
  | O => ret tt
  | S n' => timerFires;; timerFiresTimes n'
  end.

(** The request waits [d] milliseconds: the timer fires at every full
    period that has passed, the clock moves on. *)
Definition wait (d : Z) : H unit :=
  timerFiresTimes (Z.to_nat (d / heartbeatPeriod));;
  modify (with_world (advance_clock d)).

Definition clearInterval : H unit := modify (set_interval None).

(** The upstream requester.  A blocking call answers after [duration]
    milliseconds; a streaming call delivers its fragments and then ends
    normally or by an error. *)
Record Completion := mkCompletion {
  completionContent : jsstring;
  toolCalls : list ToolCall
}.

Record BlockingReply := mkBlocking {
  duration : Z;
  answer : result Completion
}.

Inductive Fragment :=
| ContentFragment (s : jsstring)
| ToolCallsFragment (tc : list ToolCall).

Record StreamReply := mkStream {
  fragments : list Fragment;
  ending : result unit
}.

Variable oauth : nat → jsstring → OAuthReply.
Variable generateProjectId : nat → jsstring.
Variable generateSessionId : nat → jsstring.
Variable generateRequestBody :
    list Message → jsstring → Params → option Tools → option jsstring → result RequestBody.
Variable generateAssistantResponseNoStream : RequestBody → Token → BlockingReply.
Variable generateAssistantResponse : RequestBody → Token → StreamReply.

Definition getToken : H (option Token) :=
  lift (TM.getToken oauth generateProjectId generateSessionId).

Definition logError (s : LogSite) : H unit :=
  modify (with_world (add_log (Error, s))).

Definition liftResult {A} (r : result A) : H A :=
  match r with Ok a => ret a | Throw e => throw e end.

(** [await generateAssistantResponseNoStream(requestBody, token)] *)
Definition awaitNoStream (body : RequestBody) (token : Token) : H Completion :=
  let r := generateAssistantResponseNoStream body token in
  wait (duration r);;
  liftResult (answer r).

(** [authHeader?.startsWith('Bearer ') ? authHeader.slice(7) : authHeader] *)
Definition bearer : jsstring := [66; 101; 97; 114; 101; 114; 32]%N.

Definition apiKeyOf (authHeader : option jsstring) : option jsstring :=
  match authHeader with
  | Some h => if JS.startsWith bearer h then Some (JS.slice 7 h) else Some h
  | None => None
  end.

(** The changes made to the translated request for an image model. *)
Definition imageConfig (b : RequestBody) : result RequestBody :=
  match systemInstruction b with
  | Some (text :: parts) =>
      Ok (mkBody SingleCandidate (Some ((text ++ imageInstruction) :: parts))
                 None None (Some imageGen) (payload b))
  | _ => Throw TypeError
  end.

Definition chunk (id created : Z) (model : option jsstring) (d : Delta)
                 (f : option FinishReason) : Written :=
  Event (mkChunk id created model d f).

Definition finishOf (hasToolCall : bool) : FinishReason :=
  if hasToolCall then ToolCalls else Stop.

(** The three writes that close a stream after an error. *)
Definition writeError (id created : Z) (model : option jsstring) (text : jsstring) : H unit :=
  write (chunk id created model (ContentDelta text) None);;
  write (chunk id created model EmptyDelta (Some Stop));;
  write Done;;
  end_.

Definition fakeStreaming (model : jsstring) (body : RequestBody) (token : Token) : H unit :=
  setHeader ContentTypeEventStream;;
  setHeader CacheControlNoCache;;
  setHeader ConnectionKeepAlive;;
  setHeader XAccelBufferingNo;;
  flushHeaders;;
  t ← lift TM.now;
  let id := t in
  let created := t / 1000 in
  write (chunk id created (Some model) RoleDelta None);;
  modify (set_interval (Some (mkChunk id created (Some model) (ContentDelta []) None)));;
  try_catch
    (r ← awaitNoStream body token;
     clearInterval;;
     (if (0 <? length (toolCalls r))%nat
      then write (chunk id created (Some model) (ToolCallsDelta (toolCalls r)) None)
      else ret tt);;
     (if JS.truthy (completionContent r)
      then write (chunk id created (Some model) (ContentDelta (completionContent r)) None)
      else ret tt);;
     write (chunk id created (Some model) EmptyDelta
                  (Some (finishOf (0 <? length (toolCalls r))%nat)));;
     write Done;;
     end_)
    (λ error,
     clearInterval;;
     logError FakeStreamFailed;;
     r ← gets res;
     if writableEnded r then ret tt
     else writeError id created (Some model) (errorPrefixEn ++ message error)).

(** The callback of the streaming call, run on every fragment in turn;
    the result is [hasToolCall]. *)
Fixpoint deliver (id created : Z) (model : option jsstring)
                 (fs : list Fragment) (hasToolCall : bool) : H bool :=
  match fs with
  | [] => ret hasToolCall
  | ContentFragment s :: fs' =>
      write (chunk id created model (ContentDelta s) None);;
      deliver id created model fs' hasToolCall
  | ToolCallsFragment tc :: fs' =>
      write (chunk id created model (ToolCallsDelta tc) None);;
      deliver id created model fs' true
  end.

Definition realStreaming (model : option jsstring) (isImageModel : bool)
                         (body : RequestBody) (token : Token) : H unit :=
  setHeader ContentTypeEventStream;;
  setHeader CacheControlNoCache;;
  setHeader ConnectionKeepAlive;;
  t ← lift TM.now;
  let id := t in
  let created := t / 1000 in
  if isImageModel then
    r ← awaitNoStream body token;
    write (chunk id created model (ContentDelta (completionContent r)) None);;
    write (chunk id created model EmptyDelta (Some Stop));;
    write Done;;
    end_
  else
    let reply := generateAssistantResponse body token in
    hasToolCall ← deliver id created model (fragments reply) false;
    liftResult (ending reply);;
    write (chunk id created model EmptyDelta (Some (finishOf hasToolCall)));;
    write Done;;
    end_.

Definition nonStreaming (model : option jsstring) (body : RequestBody) (token : Token) : H unit :=
  r ← awaitNoStream body token;
  let tool_calls := if (0 <? length (toolCalls r))%nat then Some (toolCalls r) else None in
  t ← lift TM.now;
  json (CompletionBody t (t / 1000) model (completionContent r) tool_calls
                       (finishOf (0 <? length (toolCalls r))%nat)).

(** The [try] block of the handler. *)
Definition chatCompletions_try (req : Request) : H unit :=
  match messages req with
  | None => setStatus 400;; json (ErrorBody messagesRequired)
  | Some msgs =>
      token ← getToken;
      match token with
      | None => throw (mkError None noTokenMessage)
      | Some token =>
          match actualModel (model req) with
          | None => throw TypeError      (* [actualModel.includes] on [undefined] *)
          | Some actual =>
              let isImageModel := JS.includes imageMarker actual in
              (if isSingleShortMessage msgs && bool_decide (stream req = None)
               then modify (set_streamVar false) else ret tt);;
              body ← liftResult (generateRequestBody msgs actual (params req) (tools req)
                                                     (apiKeyOf (authorization req)));
              body ← (if isImageModel then liftResult (imageConfig body) else ret body);
              s ← gets streamVar;
              if isFakeStreaming (model req) && s then fakeStreaming actual body token
              else if s && negb (isFakeStreaming (model req))
                   then realStreaming (model req) isImageModel body token
                   else if negb s then nonStreaming (model req) body token
                        else ret tt
          end
      end
  end.

(** The [catch] block of the handler. *)
Definition chatCompletions_catch (req : Request) (error : JSError) : H unit :=
  logError ResponseFailed;;
  r ← gets res;
  if headersSent r then ret tt
  else
    s ← gets streamVar;
    if s : bool then
      setHeader ContentTypeEventStream;;
      setHeader CacheControlNoCache;;
      setHeader ConnectionKeepAlive;;
      t ← lift TM.now;
      writeError t (t / 1000) (model req) (errorPrefixZh ++ message error)
    else
      setStatus 500;;
      json (ErrorBody (message error)).

(** The handler of [app.post('/v1/chat/completions', ...)] on a request
    that has a body, from the destructuring of the body on: [stream]
    defaults to [true] when the body has no such field. *)
Definition chatCompletions (req : Request) : H unit :=
  modify (set_streamVar (default true (stream req)));;
  try_catch (chatCompletions_try req) (chatCompletions_catch req).

(** What Express hands to the handler.  [req.body] is [undefined] when no
    body was parsed; the headers are there all the same. *)
Inductive Incoming :=
| NoBody (authHeader : option jsstring)
| WithBody (req : Request).

(** [app.post('/v1/chat/completions', async (req, res) => { ... })].  The
    first statement, [let { messages, model, stream = true, tools,
    ...params } = req.body], stands before the [try]: when [req.body] is
    [undefined] it throws a [TypeError] that no [catch] of the handler
    sees, and the handler rejects. *)
Definition postChatCompletions (r : Incoming) : H unit :=
  match r with
  | NoBody _ => throw TypeError
  | WithBody req => chatCompletions req
  end.

(** After the handler: the timer, if it is still armed, goes on firing. *)
Definition afterwards (n : nat) : H unit := timerFiresTimes n.

End Handler.

Arguments GenerationConfig : clear implicits.
Arguments RequestBody : clear implicits.
Arguments Request : clear implicits.
Arguments Incoming : clear implicits.
Arguments Delta : clear implicits.
Arguments Chunk : clear implicits.
Arguments Json : clear implicits.
Arguments Written : clear implicits.
Arguments Response : clear implicits.
Arguments Conn : clear implicits.
Arguments Completion : clear implicits.
Arguments BlockingReply : clear implicits.
Arguments Fragment : clear implicits.
Arguments StreamReply : clear implicits.

End Server.

(** ** The list of models *)

Module Models.

(** An entry of [models.data], as far as the route looks into it. *)
Record ModelInfo (Rest : Type) := mkModel {
  modelId : jsstring;
  modelCreated : Z;
  modelRest : Rest
}.
Arguments mkModel {Rest} _ _ _.
Arguments modelId {Rest} _.
Arguments modelCreated {Rest} _.
Arguments modelRest {Rest} _.

(** What [res] is made to say. *)
Inductive Reply (Rest : Type) :=
| ModelList (data : list (ModelInfo Rest))      (* [res.json(models)] *)
| Failure (status : Z) (error : jsstring).      (* [res.status(500).json({ error })] *)
Arguments ModelList {Rest} _.
Arguments Failure {Rest} _ _.

(** [{ ...model, id: `假流式/${model.id}`, created: Math.floor(Date.now() / 1000) }] *)
Definition fakeStreamingModel {Rest} (now : Z) (m : ModelInfo Rest) : ModelInfo Rest :=
  mkModel (Server.fakePrefix ++ modelId m) (now / 1000) (modelRest m).

(** [app.get('/v1/models', ...)].  [available] is what
    [await getAvailableModels()] gives: an error, or the object whose
    [data] field, if it has one, is the list of models. *)
Definition listModels {Rest} (now : Z) (available : result (option (list (ModelInfo Rest))))
  : Reply Rest :=
  match available with
  | Ok (Some data) => ModelList (data ++ map (fakeStreamingModel now) data)
  | Ok None => Failure 500 (message TypeError)    (* [models.data.map] on [undefined] *)
  | Throw error => Failure 500 (message error)
  end.

End Models.

(** ** The API key and rate limit middleware *)

Module ApiKey.

(** ['/v1/'] *)
Definition v1 : jsstring := [47; 118; 49; 47]%N.
(** ['Invalid API Key'] *)
Definition invalidApiKey : jsstring :=
  [73; 110; 118; 97; 108; 105; 100; 32; 65; 80; 73; 32; 75; 101; 121]%N.

Inductive LimitHeader := XRateLimitLimit | XRateLimitRemaining | XRateLimitReset.

(** What [checkRateLimit] answers. *)
Record RateLimitCheck := mkCheck {
  allowed : bool;
  limitError : jsstring;
  limit : option Z;
  remaining : option Z;
  resetIn : option Z
}.

Inductive Body :=
| InvalidKey                                        (* [{ error: 'Invalid API Key' }] *)
| RateLimitExceeded (msg : jsstring) (reset : option Z).

(** How the middleware ends: it hands the request on, with the headers
    it has set, or it answers itself. *)
Inductive Verdict :=
| Next (headers : list (LimitHeader * Z))
| Answer (status : Z) (headers : list (LimitHeader * Z)) (body : Body).

(** [x || 0] on a number *)
Definition orZero (x : option Z) : Z :=
  match x with
  | Some v => v          (* [0 || 0] is [0] as well *)
  | None => 0
  end.

Section Middleware.

(** [config.security?.apiKey] *)
Variable apiKey : option jsstring.
(** [validateKey] and [checkRateLimit] of the key manager. *)
Variable validateKey : option jsstring → bool.
Variable checkRateLimit : option jsstring → RateLimitCheck.

(** The middleware, for a request of the given path and [Authorization]
    header.  The log lines it writes are left out. *)
Definition apiKeyMiddleware (path : jsstring) (authHeader : option jsstring) : result Verdict :=
  if JS.startsWith v1 path then
    match apiKey with
    | Some key =>
        if JS.truthy key then
          let providedKey := Server.apiKeyOf authHeader in
          if bool_decide (providedKey = Some key) then Ok (Next [])
          else if negb (validateKey providedKey) then Ok (Answer 401 [] InvalidKey)
          else
            let rateLimitCheck := checkRateLimit providedKey in
            if negb (allowed rateLimitCheck) then
              match providedKey with
              | None => Throw TypeError      (* [providedKey.substring] on [undefined] *)
              | Some _ =>
                  Ok (Answer 429
                        [(XRateLimitLimit, orZero (limit rateLimitCheck));
                         (XRateLimitRemaining, 0);
                         (XRateLimitReset, orZero (resetIn rateLimitCheck))]
                        (RateLimitExceeded (limitError rateLimitCheck)
                                           (resetIn rateLimitCheck)))
              end
            else
              match limit rateLimitCheck with
              | Some l =>
                  if l =? 0 then Ok (Next [])
                  else match remaining rateLimitCheck with
                       | Some r => Ok (Next [(XRateLimitLimit, l); (XRateLimitRemaining, r)])
                       | None => Throw TypeError   (* [setHeader] with [undefined] *)
                       end
              | None => Ok (Next [])
              end
        else Ok (Next [])
    | None => Ok (Next [])
    end
  else Ok (Next []).

End Middleware.
End ApiKey.

(** * Vocabulary of the statements *)

(** The state in which a computation ends. *)
Definition exec {S A} (m : M S A) (s : S) : S := (m s).1.

(** The invariant of the rotation cursor. *)
Definition cursor_ok (m : TokenManager) : Prop :=
  tokens m ≠ [] → (currentIndex m < length (tokens m))%nat.

(** The exchange ends with a new grant: a status of the 2xx class and a
    JSON body. *)
Definition refresh_succeeds (r : OAuthReply) : bool :=
  match outcome r with
  | HttpResponse s _ (Some _) => response_ok s
  | _ => false
  end.

(** What one turn of the loop of [getToken] does to the pool and the cursor. *)
Inductive turn_outcome (oauth : nat → jsstring → OAuthReply) (w w' : World)
  : option (option Token) → Prop :=
| turn_valid tok :
    tokens (mgr w) !! currentIndex (mgr w) = Some tok →
    TM.isExpired (clock w) tok = false →
    tokens (mgr w') = tokens (mgr w) →
    currentIndex (mgr w') = ((currentIndex (mgr w) + 1) mod length (tokens (mgr w)))%nat →
    clock w' = clock w →
    turn_outcome oauth w w' (Some (Some tok))
| turn_refreshed tok0 tok :
    tokens (mgr w) !! currentIndex (mgr w) = Some tok0 →
    TM.isExpired (clock w) tok0 = true →
    refresh_succeeds (oauth (fetches w) (refresh_token tok0)) = true →
    refresh_token tok = refresh_token tok0 →
    tokens (mgr w') = <[currentIndex (mgr w) := tok]> (tokens (mgr w)) →
    currentIndex (mgr w') = ((currentIndex (mgr w) + 1) mod length (tokens (mgr w)))%nat →
    turn_outcome oauth w w' (Some (Some tok))
| turn_disabled tok0 :
    tokens (mgr w) !! currentIndex (mgr w) = Some tok0 →
    TM.isExpired (clock w) tok0 = true →
    refresh_succeeds (oauth (fetches w) (refresh_token tok0)) = false →
    tokens (mgr w') = List.filter (other (refresh_token tok0)) (tokens (mgr w)) →
    currentIndex (mgr w') =
      (currentIndex (mgr w) mod Nat.max (length (tokens (mgr w'))) 1)%nat →
    turn_outcome oauth w w'
      (if (length (tokens (mgr w')) =? 0)%nat then Some None else None)
| turn_skipped :
    tokens (mgr w') = tokens (mgr w) →
    currentIndex (mgr w') = ((currentIndex (mgr w) + 1) mod length (tokens (mgr w)))%nat →
    (∀ tok, tokens (mgr w) !! currentIndex (mgr w) = Some tok →
            TM.isExpired (clock w) tok = true
            ∧ refresh_succeeds (oauth (fetches w) (refresh_token tok)) = false) →
    turn_outcome oauth w w' None.

(** Calls of [getToken()] in a row: the [i]-th is made [dts !! i]
    milliseconds after the one before it has returned. *)
Fixpoint consecutive (getToken : M World (option Token)) (dts : list Z)
  : M World (list (option Token)) :=
  match dts with
  | [] => ret []
  | dt :: dts' =>
      modify (advance_clock dt);;
      t ← getToken;
      ts ← consecutive getToken dts';
      ret (t :: ts)
  end.

(** The sum of the waiting times. *)
Definition total (dts : list Z) : Z := foldr Z.add 0 dts.

(** No entry of [l] has the refresh token [rt]. *)
Definition absent (rt : jsstring) (l : list Token) : Prop :=
  Forall (λ t, refresh_token t ≠ rt) l.


(** The stored entry found for a pool entry is that entry without its
    session id. *)
Definition synced (cache : list Token) (p : Token) : Prop :=
  ∃ k, TM.findIndex (refresh_token p) cache = Some k
       ∧ cache !! k = Some (tokenToSave p).

(** The pool holds nothing that the stored collection does not have. *)
Definition in_sync (pool cache : list Token) : Prop := Forall (synced cache) pool.






(** ** Vocabulary of the statements about the handler *)

Section HandlerVocabulary.
Context {Tools Params ToolCall Config Payload : Type}.
Variable generateRequestBody :
    list Server.Message → jsstring → Params → option Tools → option jsstring
    → result (Server.RequestBody Tools Config Payload).

(** The value of the local variable [stream] once the heuristic for
    single short messages has been applied. *)
Definition effectiveStream (req : Server.Request Tools Params) (msgs : list Server.Message) : bool :=
  if Server.isSingleShortMessage msgs && bool_decide (Server.stream req = None)
  then false
  else default true (Server.stream req).

(** The request handed to the upstream requester. *)
Definition translated (req : Server.Request Tools Params) (msgs : list Server.Message)
                      (actual : jsstring) : result (Server.RequestBody Tools Config Payload) :=
  match generateRequestBody msgs actual (Server.params req) (Server.tools req)
                            (Server.apiKeyOf (Server.authorization req)) with
  | Ok b => if JS.includes Server.imageMarker actual then Server.imageConfig b else Ok b
  | Throw e => Throw e
  end.

(** The chunks of a stream that began at time [t]. *)
Definition roleChunk (t : Z) (model : option jsstring) : Server.Written ToolCall :=
  Server.chunk t (t / 1000) model Server.RoleDelta None.

Definition heartbeatChunk (t : Z) (model : option jsstring) : Server.Written ToolCall :=
  Server.chunk t (t / 1000) model (Server.ContentDelta []) None.

Definition contentChunk (t : Z) (model : option jsstring) (s : jsstring) : Server.Written ToolCall :=
  Server.chunk t (t / 1000) model (Server.ContentDelta s) None.

Definition toolCallsChunk (t : Z) (model : option jsstring) (tc : list ToolCall)
  : Server.Written ToolCall :=
  Server.chunk t (t / 1000) model (Server.ToolCallsDelta tc) None.

Definition finishChunk (t : Z) (model : option jsstring) (f : Server.FinishReason)
  : Server.Written ToolCall :=
  Server.chunk t (t / 1000) model Server.EmptyDelta (Some f).

(** An error rendered on a stream: the text, the finish chunk, the
    terminator. *)
Definition errorClosure (t : Z) (model : option jsstring) (text : jsstring)
  : list (Server.Written ToolCall) :=
  [contentChunk t model text; finishChunk t model Server.Stop; Server.Done].

(** The shape of the written events. *)
Definition is_role (x : Server.Written ToolCall) : bool :=
  match x with
  | Server.Event c =>
      match Server.delta c, Server.finish_reason c with
      | Server.RoleDelta, None => true
      | _, _ => false
      end
  | _ => false
  end.

Definition is_heartbeat (x : Server.Written ToolCall) : bool :=
  match x with
  | Server.Event c =>
      match Server.delta c, Server.finish_reason c with
      | Server.ContentDelta [], None => true
      | _, _ => false
      end
  | _ => false
  end.

Definition is_content (x : Server.Written ToolCall) : bool :=
  match x with
  | Server.Event c =>
      match Server.delta c, Server.finish_reason c with
      | Server.ContentDelta (_ :: _), None => true
      | _, _ => false
      end
  | _ => false
  end.

Definition is_toolCalls (x : Server.Written ToolCall) : bool :=
  match x with
  | Server.Event c =>
      match Server.delta c, Server.finish_reason c with
      | Server.ToolCallsDelta _, None => true
      | _, _ => false
      end
  | _ => false
  end.

Definition is_finish (f : Server.FinishReason) (x : Server.Written ToolCall) : bool :=
  match x with
  | Server.Event c =>
      match Server.delta c, Server.finish_reason c, f with
      | Server.EmptyDelta, Some Server.Stop, Server.Stop => true
      | Server.EmptyDelta, Some Server.ToolCalls, Server.ToolCalls => true
      | _, _, _ => false
      end
  | _ => false
  end.

Definition is_done (x : Server.Written ToolCall) : bool :=
  match x with Server.Done => true | _ => false end.

Fixpoint afterHeartbeats (l : list (Server.Written ToolCall)) : list (Server.Written ToolCall) :=
  match l with
  | x :: l' => if is_heartbeat x then afterHeartbeats l' else l
  | [] => []
  end.

(** The sequence that the design document gives for fake streaming: the
    role chunk, one or more heartbeats, possibly a tool-calls chunk, a
    content chunk, the finish chunk (with [tool_calls] exactly when there
    is a tool-calls chunk), the terminator. *)
Definition documented_fake_sequence (l : list (Server.Written ToolCall)) : bool :=
  match l with
  | r :: h :: rest =>
      is_role r && is_heartbeat h &&
      match afterHeartbeats rest with
      | [c; f; d] => is_content c && is_finish Server.Stop f && is_done d
      | [t; c; f; d] =>
          is_toolCalls t && is_content c && is_finish Server.ToolCalls f && is_done d
      | _ => false
      end
  | _ => false
  end.

(** The headers of the two kinds of stream. *)
Definition fakeStreamHeaders : list Server.Header :=
  [Server.ContentTypeEventStream; Server.CacheControlNoCache;
   Server.ConnectionKeepAlive; Server.XAccelBufferingNo].

Definition streamHeaders : list Server.Header :=
  [Server.ContentTypeEventStream; Server.CacheControlNoCache; Server.ConnectionKeepAlive].

(** What fake streaming writes once the blocking call has answered. *)
Definition fakeTail (t : Z) (model : option jsstring) (a : result (Server.Completion ToolCall))
  : list (Server.Written ToolCall) :=
  match a with
  | Ok r =>
      (if (0 <? length (Server.toolCalls r))%nat
       then [toolCallsChunk t model (Server.toolCalls r)] else [])
      ++ (if JS.truthy (Server.completionContent r)
          then [contentChunk t model (Server.completionContent r)] else [])
      ++ [finishChunk t model (Server.finishOf (0 <? length (Server.toolCalls r))%nat);
          Server.Done]
  | Throw e => errorClosure t model (Server.errorPrefixEn ++ message e)
  end.

(** The chunk written for a fragment of the upstream stream. *)
Definition fragmentChunk (t : Z) (model : option jsstring) (f : Server.Fragment ToolCall)
  : Server.Written ToolCall :=
  match f with
  | Server.ContentFragment s => contentChunk t model s
  | Server.ToolCallsFragment tc => toolCallsChunk t model tc
  end.

Definition isToolCallsFragment (f : Server.Fragment ToolCall) : bool :=
  match f with Server.ToolCallsFragment _ => true | _ => false end.

(** The number of times the heartbeat timer fires during a wait of [d]
    milliseconds. *)
Definition beats (d : Z) : nat := Z.to_nat (d / Server.heartbeatPeriod).

(** A response that is one JSON body and nothing else. *)
Definition single_json (r : Server.Response ToolCall) : Prop :=
  ∃ j, Server.written r = [Server.Body j]
       ∧ Server.headers r = [Server.ContentTypeJson]
       ∧ Server.writableEnded r = true.

(** A response with the framing of an event stream. *)
Definition event_stream (r : Server.Response ToolCall) : Prop :=
  Server.ContentTypeEventStream ∈ Server.headers r.

End HandlerVocabulary.

(** ** Vocabulary of the further properties *)

(** How many requests the usage record counts for a refresh token. *)
Definition requestsOf (rt : jsstring) (m : TokenManager) : nat :=
  match usageStats m !! rt with
  | Some stats => requests stats
  | None => 0%nat
  end.

(** A stored entry has a project id. *)
Definition hasProjectId (t : Token) : bool := JS.truthy_opt (projectId t).

(** The refresh exchange is answered by a failure that [getToken] does not
    take for a rejection: no status, or a status other than 403 and 400. *)
Definition transient_failure (r : OAuthReply) : bool :=
  match outcome r with
  | FetchRejected _ => true
  | HttpResponse s _ json =>
      if response_ok s then bool_decide (json = None)
      else negb ((s =? 403) || (s =? 400))
  end.

(** No disabled credential is in the pool. *)
Definition pool_enabled (m : TokenManager) : Prop :=
  Forall (λ t, enabled t = true) (tokens m).

(** Every credential of [l] has an access token. *)
Definition keyed (l : list Token) : Prop := Forall (λ t, access_token t ≠ None) l.

(** Every credential has an access token: in the pool, in the cached
    collection and in the file. *)
Definition all_keyed (w : World) : Prop :=
  keyed (tokens (mgr w))
  ∧ (∀ c, cachedData (mgr w) = Some c → keyed c)
  ∧ (∀ d, file (disk w) = Some d → keyed d).

(** Every grant of the OAuth endpoint carries an access token. *)
Definition grants_keyed (oauth : nat → jsstring → OAuthReply) : Prop :=
  ∀ k rt s text g, outcome (oauth k rt) = HttpResponse s text (Some g) →
                   grant_access_token g ≠ None.

(** What a step leaves in the usage records, by its result. *)
Definition usage_after (w : World) (r : World * result (option Token)) : Prop :=
  match r.2 with
  | Ok (Some tok) =>
      usageStats (mgr r.1)
      = <[refresh_token tok :=
            mkUsage (S (requests (default (mkUsage 0 None)
                                    (usageStats (mgr w) !! refresh_token tok))))
                    (Some (clock r.1))]> (usageStats (mgr w))
  | _ => usageStats (mgr r.1) = usageStats (mgr w)
  end.

(** ** Sample data *)

Module Sample.

(** An identifier generator. *)
Definition ids : nat → jsstring := λ n, [N.of_nat n].

(** An OAuth endpoint that answers every exchange with the same status
    and no grant, after 5 ms. *)
Definition answers (status : Z) : nat → jsstring → OAuthReply :=
  λ _ _, mkReply 5 (HttpResponse status [] None).

(** A stored credential, granted for one hour at time [ts]. *)
Definition stored (n : N) (ts : option Z) : Token :=
  mkToken [n] (Some [(n + 10)%N]) (Some 3600) ts None (Some [7%N]) None.

(** Granted at 1 000 000 ms: not expired before 4 300 000 ms. *)
Definition credA : Token := stored 1 (Some 1000000).
Definition credB : Token := stored 2 (Some 1000000).
Definition credC : Token := stored 3 (Some 1000000).
(** An account added by hand: a refresh token and a project id, nothing
    else. *)
Definition bare : Token := mkToken [5%N] None None None None (Some [7%N]) None.
(** Never granted: expired at any time. *)
Definition lapsedA : Token := stored 1 None.
Definition lapsedB : Token := stored 2 None.

Definition pooled (t : Token) : Token := set_sessionId (Some [0%N]) t.

(** A process that loaded [store] at time [loaded], with the cursor at
    [cursor], and whose clock shows [time]. *)
Definition loaded_world (store : list Token) (cursor : nat) (loaded time : Z)
                        (readable writable : bool) : World :=
  mkWorld (mkManager (pooled <$> store) cursor loaded (Some store) ∅)
          (mkDisk (if readable then Some store else None) writable 0)
          time 0 0 [].

(** Three valid credentials, cursor on the second, loaded 1 s ago. *)
Definition ring_world : World :=
  loaded_world [credA; credB; credC] 1 1000000 1001000 true true.

(** One credential in the pool, loaded 70 s ago; the store has become
    unreadable. *)
Definition unreadable_world : World :=
  loaded_world [credA] 0 1000000 1070000 false true.

(** The same pool, just loaded, on a store that cannot be written. *)
Definition unwritable_world : World :=
  loaded_world [lapsedA; credB] 0 1000000 1001000 true false.

(** Two credentials, the first of them expired, just loaded. *)
Definition lapsed_world : World :=
  loaded_world [lapsedA; credB] 0 1000000 1001000 true true.

(** Two expired credentials, just loaded. *)
Definition all_lapsed_world : World :=
  loaded_world [lapsedA; lapsedB] 0 1000000 1001000 true true.

(** A store whose only entry has no project id yet, not writable, and
    a process that has not loaded it. *)
Definition unprovisioned_world : World :=
  mkWorld (mkManager [] 0 0 None ∅)
          (mkDisk (Some [mkToken [4%N] (Some [14%N]) (Some 3600) (Some 1000000) None None None])
                  false 0)
          1001000 0 0 [].

(** An OAuth endpoint that grants every exchange, after 5 ms. *)
Definition grants : nat → jsstring → OAuthReply :=
  λ _ _, mkReply 5 (HttpResponse 200 [] (Some (mkGrant (Some [99%N]) (Some 3600)))).

(** The account added by hand is the only one, just loaded. *)
Definition bare_world : World :=
  loaded_world [bare] 0 1000000 1001000 true true.

(** A process that has nothing in its pool nor in its store. *)
Definition empty_world : World :=
  loaded_world [] 0 1000000 1001000 true true.

End Sample.

(** ** Sample requests and upstream answers *)

Module ServerSample.

(** A translator that accepts every request. *)
Definition translate : list Server.Message → jsstring → unit → option unit → option jsstring
                       → result (Server.RequestBody unit unit unit) :=
  λ _ _ _ _ _, Ok (Server.mkBody (Server.Translated tt) (Some [[1%N]]) None None None tt).

(** An upstream whose blocking call answers [a] after [d] ms and whose
    streaming call delivers [fs] and ends by [e]. *)
Definition blocking (d : Z) (a : result (Server.Completion nat))
  : Server.RequestBody unit unit unit → Token → Server.BlockingReply nat :=
  λ _ _, Server.mkBlocking d a.

Definition streaming (fs : list (Server.Fragment nat)) (e : result unit)
  : Server.RequestBody unit unit unit → Token → Server.StreamReply nat :=
  λ _ _, Server.mkStream fs e.

(** ["hi"], [""] and a text of 25 code units, as user messages. *)
Definition hi : Server.Message := Server.mkMessage [117; 115; 101; 114]%N (Server.Text [104; 105]%N).
Definition blank : Server.Message := Server.mkMessage [117; 115; 101; 114]%N (Server.Text []).
Definition long : Server.Message :=
  Server.mkMessage [117; 115; 101; 114]%N (Server.Text (replicate 25 104%N)).

(** The model ["g"], and the same behind the fake-streaming prefix. *)
Definition plainModel : jsstring := [103%N].
Definition fakeModel : jsstring := Server.fakePrefix ++ [103%N].

Definition request (msgs : list Server.Message) (model : jsstring) (stream : option bool)
  : Server.Request unit unit :=
  Server.mkRequest (Some msgs) (Some model) stream None tt None.

(** The upstream error ["overloaded"], with the status 503. *)
Definition overloaded : JSError :=
  mkError (Some 503) [111; 118; 101; 114; 108; 111; 97; 100; 101; 100]%N.

(** A process with one valid credential. *)
Definition world : World := Sample.loaded_world [Sample.credA] 0 1000000 1001000 true true.

(** The handler on the sample process. *)
Definition handle (b : Server.RequestBody unit unit unit → Token → Server.BlockingReply nat)
                  (s : Server.RequestBody unit unit unit → Token → Server.StreamReply nat)
                  (req : Server.Request unit unit) (w : World) : Server.Conn nat :=
  exec (Server.chatCompletions (Sample.answers 403) Sample.ids Sample.ids translate b s req)
       (Server.start w).

End ServerSample.

(** * Proofs *)

(** Unfold the monad and compute. *)
Ltac run := cbv [mbind M_bind mret M_ret bind ret throw gets modify try_catch exec]; cbn.

(** ** Facts about the token manager *)

Section TokenManagerFacts.
Variable oauth : nat → jsstring → OAuthReply.
Variable generateProjectId : nat → jsstring.
Variable generateSessionId : nat → jsstring.
Abbreviation getToken := (TM.getToken oauth generateProjectId generateSessionId).
Abbreviation initialize := (TM.initialize generateProjectId generateSessionId).
Abbreviation loadTokens := (TM.loadTokens generateProjectId generateSessionId).
Abbreviation refreshToken := (TM.refreshToken oauth).
Abbreviation getToken_turn := (TM.getToken_turn oauth).
Abbreviation getToken_loop := (TM.getToken_loop oauth).
Abbreviation handleRequestError :=
    (TM.handleRequestError oauth generateProjectId generateSessionId).

Lemma saveToFile_frame w :
  ∃ w', TM.saveToFile w = (w', Ok tt) ∧ tokens (mgr w') = tokens (mgr w)
    ∧ currentIndex (mgr w') = currentIndex (mgr w)
    ∧ lastLoadTime (mgr w') = lastLoadTime (mgr w)
    ∧ clock w' = clock w ∧ fetches w' = fetches w.
Proof.
  unfold TM.saveToFile, TM.writeFile, TM.readFile, TM.log. run.
  destruct (cachedData (mgr w)); run.
  - destruct (writable (disk w)); run; eexists; (split; [reflexivity|]); cbn; auto.
  - destruct (file (disk w)); run; [destruct (writable (disk w)); run|];
      eexists; (split; [reflexivity|]); cbn; auto.
Qed.

Lemma mod_max_lt (c n : nat) : (0 < n)%nat → (c mod Nat.max n 1 < n)%nat.
Proof. intros. replace (Nat.max n 1) with n by lia. apply Nat.mod_upper_bound. lia. Qed.

Lemma length_pos_ne {A} (l : list A) : l ≠ [] → (0 < length l)%nat.
Proof. destruct l; cbn; [done|lia]. Qed.

(** On a credential with an access token [disableToken] goes through. *)
Lemma disableToken_spec idx tok w :
  access_token tok ≠ None →
  ∃ w', TM.disableToken idx tok w = (w', Ok tt)
    ∧ tokens (mgr w') =
        List.filter (other (refresh_token tok))
                    (<[idx := set_enable false tok]> (tokens (mgr w)))
    ∧ currentIndex (mgr w') = (currentIndex (mgr w) mod Nat.max (length (tokens (mgr w'))) 1)%nat
    ∧ lastLoadTime (mgr w') = lastLoadTime (mgr w)
    ∧ clock w' = clock w ∧ fetches w' = fetches w.
Proof.
  intros Hacc. unfold TM.disableToken, TM.log.
  destruct (access_token tok) as [a|]; [|done]. run.
  match goal with |- context [TM.saveToFile ?x] =>
    destruct (saveToFile_frame x) as (w1 & -> & Ht & Hc & Hl & Hk & Hf) end.
  cbn in *. eexists; split; [reflexivity|]. cbn. rewrite Ht, Hc, Hl, Hk, Hf. auto.
Qed.

(** On a credential without one it throws, and nothing has changed. *)
Lemma disableToken_throws idx tok w :
  access_token tok = None → TM.disableToken idx tok w = (w, Throw TypeError).
Proof. intros Hacc. unfold TM.disableToken. by rewrite Hacc. Qed.

Lemma disableToken_cursor_ok idx tok w :
  cursor_ok (mgr w) → cursor_ok (mgr (exec (TM.disableToken idx tok) w)).
Proof.
  intros Hok. unfold exec. destruct (access_token tok) as [a|] eqn:Hacc.
  - destruct (disableToken_spec idx tok w) as (w' & -> & Ht & Hc & _); [by rewrite Hacc|]. cbn.
    intros Hne. rewrite Hc. apply mod_max_lt, length_pos_ne, Hne.
  - by rewrite disableToken_throws.
Qed.

(** A refresh either throws and leaves the manager as it was, or stores the
    new grant at [idx]. *)
Lemma refreshToken_cases idx tok w :
  (∃ w' e, refreshToken idx tok w = (w', Throw e)
     ∧ refresh_succeeds (oauth (fetches w) (refresh_token tok)) = false
     ∧ mgr w' = mgr w ∧ disk w' = disk w
     ∧ clock w' = clock w + Z.of_nat (latency (oauth (fetches w) (refresh_token tok)))
     ∧ fetches w' = S (fetches w)
     ∧ statusCode e = match outcome (oauth (fetches w) (refresh_token tok)) with
                      | HttpResponse s _ _ => if response_ok s then None else Some s
                      | FetchRejected _ => None
                      end)
  ∨ (∃ w' tok', refreshToken idx tok w = (w', Ok tok')
     ∧ refresh_succeeds (oauth (fetches w) (refresh_token tok)) = true
     ∧ refresh_token tok' = refresh_token tok
     ∧ tokens (mgr w') = <[idx := tok']> (tokens (mgr w))
     ∧ currentIndex (mgr w') = currentIndex (mgr w)
     ∧ lastLoadTime (mgr w') = lastLoadTime (mgr w)
     ∧ clock w' = clock w + Z.of_nat (latency (oauth (fetches w) (refresh_token tok)))
     ∧ fetches w' = S (fetches w)).
Proof.
  unfold TM.refreshToken, TM.fetchToken, TM.log, TM.now, refresh_succeeds. run.
  destruct (outcome (oauth (fetches w) (refresh_token tok))) as [msg|s text [g|]]; run.
  - left. do 2 eexists. split; [reflexivity|]. cbn. auto 10.
  - destruct (response_ok s) eqn:Hok; run.
    + right.
      match goal with |- context [TM.saveToFile ?x] =>
        destruct (saveToFile_frame x) as (w1 & -> & Ht & Hc & Hl & Hk & Hf) end.
      cbn in *. do 2 eexists. split; [reflexivity|]. rewrite Ht, Hc, Hl, Hk, Hf. auto 10.
    + left. do 2 eexists. split; [reflexivity|]. cbn. auto 10.
  - destruct (response_ok s) eqn:Hok; run;
      left; do 2 eexists; (split; [reflexivity|]); cbn; auto 10.
Qed.

Lemma filter_other_insert rt (l : list Token) i x y :
  l !! i = Some x → other rt x = false → other rt y = false →
  List.filter (other rt) (<[i := y]> l) = List.filter (other rt) l.
Proof.
  revert i. induction l as [|a l IH]; intros [|i] Hl Hx Hy; cbn in *; try done.
  - injection Hl as ->. by rewrite Hx, Hy.
  - destruct (other rt a); [f_equal|]; by apply IH.
Qed.

Lemma other_self t : other (refresh_token t) t = false.
Proof. unfold other. by rewrite bool_decide_eq_true_2. Qed.

Lemma if_run {S A} (b : bool) (x y : A) (s : S) :
  (if b then (λ s : S, (s, Ok x)) else (λ s : S, (s, Ok y))) s
  = (s, Ok (if b then x else y)).
Proof. by destruct b. Qed.

(** One turn of the loop ends in one of the four ways of [turn_outcome],
    or, when the credential that was rejected has no access token, by the
    [TypeError] of [disableToken], the manager being as it was. *)
Lemma turn_cases w :
  (∃ w' r, getToken_turn w = (w', Ok r) ∧ turn_outcome oauth w w' r
     ∧ clock w ≤ clock w' ∧ lastLoadTime (mgr w') = lastLoadTime (mgr w))
  ∨ (∃ w' tok, getToken_turn w = (w', Throw TypeError)
       ∧ tokens (mgr w) !! currentIndex (mgr w) = Some tok
       ∧ access_token tok = None
       ∧ TM.isExpired (clock w) tok = true
       ∧ refresh_succeeds (oauth (fetches w) (refresh_token tok)) = false
       ∧ mgr w' = mgr w ∧ disk w' = disk w ∧ clock w ≤ clock w').
Proof.
  unfold TM.getToken_turn. run.
  destruct (tokens (mgr w) !! currentIndex (mgr w)) as [tok|] eqn:Hlk; run.
  - destruct (TM.isExpired (clock w) tok) eqn:Hexp.
    + destruct (refreshToken_cases (currentIndex (mgr w)) tok w)
        as [(w1 & e & -> & Hfail & Hm & Hd & Hc & Hf & He)
           |(w1 & tok' & -> & Hs & Hrt & Ht & Hi & Hl & Hc & Hf)].
      * destruct (TM.rejected e) eqn:Hrej; run.
        -- destruct (access_token tok) as [a|] eqn:Hacc.
           ++ match goal with |- context [TM.disableToken ?i ?t ?x] =>
                destruct (disableToken_spec i t x)
                  as (w2 & -> & Ht2 & Hc2 & Hl2 & Hk2 & Hf2); [by rewrite Hacc|] end.
              cbn in *. rewrite if_run. left. do 2 eexists. split; [reflexivity|].
              rewrite Hm in *. split; [|split; [lia|congruence]].
              eapply turn_disabled; eauto.
              rewrite Ht2. apply (filter_other_insert _ _ _ tok); auto using other_self.
              apply (other_self (set_enable false tok)).
           ++ rewrite disableToken_throws by done. cbn. right.
              do 2 eexists. split; [reflexivity|]. cbn. rewrite Hm, Hd.
              repeat split; try done. lia.
        -- left. do 2 eexists. split; [reflexivity|]. cbn.
           rewrite Hm. split; [|split; [lia|done]].
           apply turn_skipped; cbn; rewrite ?Hm; auto.
           intros tok0 Ht0. assert (tok0 = tok) as -> by congruence. auto.
      * unfold TM.recordUsage. run.
        left. do 2 eexists. split; [reflexivity|]. cbn. split; [|split; [lia|done]].
        eapply turn_refreshed; eauto; cbn.
        by rewrite Hi, Ht, length_insert.
    + unfold TM.recordUsage. run.
      left. do 2 eexists. split; [reflexivity|]. cbn. split; [|split; [lia|done]].
      by eapply turn_valid.
  - left. do 2 eexists. split; [reflexivity|]. cbn.
    split; [|split; [lia|done]]. apply turn_skipped; cbn; auto. congruence.
Qed.

(** One turn of the loop, case by case. *)
Lemma turn_exact w :
  getToken_turn w =
  match tokens (mgr w) !! currentIndex (mgr w) with
  | None =>
      (exec TM.advance (add_log (Error, RefreshFailed (currentIndex (mgr w) + 1)) w), Ok None)
  | Some tok =>
      if TM.isExpired (clock w) tok then
        match refreshToken (currentIndex (mgr w)) tok w with
        | (w1, Ok tok') =>
            (exec (TM.recordUsage tok') (exec TM.advance w1), Ok (Some (Some tok')))
        | (w1, Throw e) =>
            if TM.rejected e then
              match TM.disableToken (currentIndex (mgr w)) tok
                      (add_log (Warn, AccountDisabled (currentIndex (mgr w1) + 1)) w1) with
              | (w2, Ok _) =>
                  (w2, Ok (if (length (tokens (mgr w2)) =? 0)%nat then Some None else None))
              | (w2, Throw e2) => (w2, Throw e2)
              end
            else
              (exec TM.advance (add_log (Error, RefreshFailed (currentIndex (mgr w1) + 1)) w1),
               Ok None)
        end
      else (exec (TM.recordUsage tok) (exec TM.advance w), Ok (Some (Some tok)))
  end.
Proof.
  unfold TM.getToken_turn. run.
  destruct (tokens (mgr w) !! currentIndex (mgr w)) as [tok|]; run; [|done].
  destruct (TM.isExpired (clock w) tok); [|unfold TM.recordUsage; run; done].
  destruct (refreshToken (currentIndex (mgr w)) tok w) as [w1 [tok'|e]]; cbn.
  - unfold TM.recordUsage. run. done.
  - destruct (TM.rejected e); run; [|done].
    match goal with |- context [TM.disableToken ?i ?t ?x] =>
      destruct (TM.disableToken i t x) as [w2 [[]|e2]] end; cbn; [|done].
    by rewrite if_run.
Qed.

Lemma initialize_cases w :
  ∃ w', initialize w = (w', Ok tt)
    ∧ clock w' = clock w ∧ fetches w' = fetches w
    ∧ (tokens (mgr w') = [] ∨ currentIndex (mgr w') = 0%nat).
Proof.
  unfold TM.initialize, TM.readFile, TM.writeFile. run.
  destruct (file (disk w)) as [data|]; run.
  - destruct (TM.assignProjectIds generateProjectId (draws w) data) as [[arr needSave] n1] eqn:Ha.
    run.
    destruct needSave; run; [destruct (writable (disk w)); run|].
    all: try (destruct (TM.assignSessionIds generateSessionId n1 (List.filter enabled arr))
                as [pool n2] eqn:Hs; run).
    all: eexists; (split; [reflexivity|]); cbn; auto.
  - eexists; (split; [reflexivity|]); cbn; auto.
Qed.

Lemma initialize_cursor_ok w : cursor_ok (mgr (exec initialize w)).
Proof.
  unfold exec. destruct (initialize_cases w) as (w' & -> & _ & _ & [H|H]); cbn; intros Hne.
  - done.
  - rewrite H. by apply length_pos_ne.
Qed.

Lemma loadTokens_cases w :
  (loadTokens w = (w, Ok tt)
     ∧ clock w - lastLoadTime (mgr w) < loadInterval ∧ tokens (mgr w) ≠ [])
  ∨ (loadTokens w = initialize w
     ∧ (loadInterval ≤ clock w - lastLoadTime (mgr w) ∨ tokens (mgr w) = [])).
Proof.
  unfold TM.loadTokens. run.
  destruct (Z.ltb_spec (clock w - lastLoadTime (mgr w)) loadInterval) as [Hlt|Hge]; cbn.
  - destruct (tokens (mgr w)) eqn:Ht; cbn.
    + right. auto.
    + left. auto.
  - right. auto.
Qed.

Lemma loadTokens_total w :
  ∃ w', loadTokens w = (w', Ok tt) ∧ clock w' = clock w ∧ fetches w' = fetches w.
Proof.
  destruct (loadTokens_cases w) as [(-> & _)|(-> & _)]; [by eexists|].
  destruct (initialize_cases w) as (w' & -> & ? & ? & _). eauto.
Qed.

Lemma loadTokens_cursor_ok w : cursor_ok (mgr w) → cursor_ok (mgr (exec loadTokens w)).
Proof.
  intros Hok. unfold exec.
  destruct (loadTokens_cases w) as [(-> & _)|(-> & _)]; [done|].
  apply initialize_cursor_ok.
Qed.

Lemma turn_cursor_ok w : cursor_ok (mgr w) → cursor_ok (mgr (exec getToken_turn w)).
Proof.
  intros Hok. unfold exec.
  destruct (turn_cases w) as [(w' & r & -> & Hout & _)|(w' & tok & -> & _ & _ & _ & _ & Hm & _)];
    cbn; [|by rewrite Hm].
  intros Hne. apply length_pos_ne in Hne.
  destruct Hout as [tok ? ? Ht Hc ?|tok0 tok ? ? ? ? Ht Hc|tok0 ? ? ? Ht Hc|Ht Hc ?].
  - rewrite Hc, Ht in *. apply Nat.mod_upper_bound; lia.
  - rewrite Hc, Ht, length_insert in *. apply Nat.mod_upper_bound; lia.
  - rewrite Hc. by apply mod_max_lt.
  - rewrite Hc, Ht in *. apply Nat.mod_upper_bound; lia.
Qed.

(** A turn after which the loop goes on leaves a pool that is not empty. *)
Lemma turn_keeps_pool w w' :
  tokens (mgr w) ≠ [] → getToken_turn w = (w', Ok None) → tokens (mgr w') ≠ [].
Proof.
  intros Hne Hturn.
  destruct (turn_cases w) as [(w1 & r & Heq & Hout & _)|(w1 & tok & Heq & _)]; [|congruence].
  rewrite Hturn in Heq. injection Heq as <- <-.
  inversion Hout as [| |tok0 Hl He Hs Ht Hc Hr|Ht Hc Hall Hr].
  - destruct (length (tokens (mgr w')) =? 0)%nat eqn:Hlen; [done|].
    apply Nat.eqb_neq in Hlen. intros Hnil. by rewrite Hnil in Hlen.
  - by rewrite Ht.
Qed.

Lemma loop_unfold n w :
  getToken_loop (S n) w =
  match getToken_turn w with
  | (w', Ok (Some v)) => (w', Ok v)
  | (w', Ok None) => getToken_loop n w'
  | (w', Throw e) => (w', Throw e)
  end.
Proof.
  cbn [TM.getToken_loop]. run. destruct (getToken_turn w) as [w' [[v|]|e]]; done.
Qed.

(** The loop throws nothing but the [TypeError] of [disableToken]. *)
Lemma loop_total n w :
  ∃ w' r, getToken_loop n w = (w', r) ∧ (∀ e, r = Throw e → e = TypeError).
Proof.
  revert w. induction n as [|n IH]; intros w; [by do 2 eexists|].
  rewrite loop_unfold.
  destruct (turn_cases w) as [(w' & r & -> & _)|(w' & tok & -> & _)].
  - destruct r as [v|]; [|apply IH]. by do 2 eexists.
  - do 2 eexists. split; [reflexivity|]. by intros e [= <-].
Qed.

Lemma loop_cursor_ok n w : cursor_ok (mgr w) → cursor_ok (mgr (exec (getToken_loop n) w)).
Proof.
  revert w. induction n as [|n IH]; intros w Hok; [done|].
  unfold exec in *. rewrite loop_unfold.
  pose proof (turn_cursor_ok w Hok) as Hturn. unfold exec in Hturn.
  destruct (getToken_turn w) as [w' [[v|]|e]]; cbn in *; [done| |done]. by apply IH.
Qed.

Lemma getToken_unfold w :
  getToken w =
  let w1 := exec loadTokens w in
  if (length (tokens (mgr w1)) =? 0)%nat then (w1, Ok None)
  else getToken_loop (length (tokens (mgr w1))) w1.
Proof.
  unfold TM.getToken, exec. run.
  destruct (loadTokens_total w) as (w1 & -> & _). cbn.
  by destruct (length (tokens (mgr w1)) =? 0)%nat.
Qed.

Lemma getToken_total w :
  ∃ w' r, getToken w = (w', r) ∧ (∀ e, r = Throw e → e = TypeError).
Proof.
  rewrite getToken_unfold. cbv zeta.
  destruct (length _ =? 0)%nat; [by do 2 eexists|]. apply loop_total.
Qed.

Lemma loadTokens_fresh w :
  clock w - lastLoadTime (mgr w) < loadInterval → tokens (mgr w) ≠ [] →
  loadTokens w = (w, Ok tt).
Proof.
  intros Hf Hne. destruct (loadTokens_cases w) as [(-> & _)|(_ & [?|?])]; [done|lia|done].
Qed.

Lemma getToken_fresh w :
  clock w - lastLoadTime (mgr w) < loadInterval → tokens (mgr w) ≠ [] →
  getToken w = getToken_loop (length (tokens (mgr w))) w.
Proof.
  intros Hf Hne. rewrite getToken_unfold. unfold exec. rewrite loadTokens_fresh by done.
  cbn. destruct (tokens (mgr w)); [done|]. done.
Qed.

Lemma getToken_first_turn w tok :
  clock w - lastLoadTime (mgr w) < loadInterval →
  tokens (mgr w) !! currentIndex (mgr w) = Some tok →
  getToken w =
  match getToken_turn w with
  | (w', Ok (Some v)) => (w', Ok v)
  | (w', Ok None) => getToken_loop (Nat.pred (length (tokens (mgr w)))) w'
  | (w', Throw e) => (w', Throw e)
  end.
Proof.
  intros Hfresh Hl.
  assert (Hne : tokens (mgr w) ≠ []) by (intros Hnil; by rewrite Hnil in Hl).
  rewrite getToken_fresh by done.
  destruct (length (tokens (mgr w))) as [|n] eqn:Hlen.
  { apply length_pos_ne in Hne. lia. }
  by rewrite loop_unfold.
Qed.

Lemma getToken_cursor_ok w : cursor_ok (mgr w) → cursor_ok (mgr (exec getToken w)).
Proof.
  intros Hok. unfold exec at 1. rewrite getToken_unfold. cbv zeta.
  apply loadTokens_cursor_ok in Hok.
  destruct (length _ =? 0)%nat; [done|]. by apply loop_cursor_ok.
Qed.

(** A returned credential sits in the pool just before the cursor. *)
Lemma loop_returned n w w' tok :
  getToken_loop n w = (w', Ok (Some tok)) →
  ∃ idx, tokens (mgr w') !! idx = Some tok
    ∧ currentIndex (mgr w') = ((idx + 1) mod length (tokens (mgr w')))%nat.
Proof.
  revert w. induction n as [|n IH]; intros w; [done|].
  rewrite loop_unfold.
  destruct (turn_cases w) as [(w1 & r & -> & Hout & _)|(w1 & tok0 & -> & _)]; [|done].
  destruct r as [v|]; [|by apply IH].
  intros [= -> ->].
  inversion Hout as [tok' Hl Hv Ht Hc Hk|tok0 tok' Hl He Hs Hrt Ht Hc|tok0 Hl He Hs Ht Hc Hr|].
  - exists (currentIndex (mgr w)). by rewrite Hc, Ht.
  - exists (currentIndex (mgr w)). rewrite Hc, Ht, length_insert. split; [|done].
    apply list_lookup_insert_eq. by eapply lookup_lt_Some.
  - by destruct (length _ =? 0)%nat.
Qed.

Lemma getToken_returned w w' tok :
  getToken w = (w', Ok (Some tok)) →
  ∃ idx, tokens (mgr w') !! idx = Some tok
    ∧ currentIndex (mgr w') = ((idx + 1) mod length (tokens (mgr w')))%nat.
Proof.
  rewrite getToken_unfold. cbv zeta.
  destruct (length _ =? 0)%nat; [done|]. apply loop_returned.
Qed.

Lemma isExpired_mono t t' tok :
  t ≤ t' → TM.isExpired t tok = true → TM.isExpired t' tok = true.
Proof.
  unfold TM.isExpired. intros Hle.
  destruct (negb (JS.truthy_num (timestamp tok)) || negb (JS.truthy_num (expires_in tok)));
    [done|].
  destruct (timestamp tok), (expires_in tok); try done. lia.
Qed.

Lemma Forall_filter_list {A} (P : A → Prop) (f : A → bool) (l : list A) :
  Forall P l → Forall P (List.filter f l).
Proof.
  induction 1 as [|x l Hx Hl IH]; cbn; [constructor|].
  destruct (f x); [by constructor|done].
Qed.

Lemma refreshToken_cursor_ok idx tok w :
  cursor_ok (mgr w) → cursor_ok (mgr (exec (refreshToken idx tok) w)).
Proof.
  intros Hok. unfold exec.
  destruct (refreshToken_cases idx tok w)
    as [(w1 & e & -> & _ & Hm & _)|(w1 & tok' & -> & _ & _ & Ht & Hi & _)]; cbn.
  - by rewrite Hm.
  - unfold cursor_ok in *. rewrite Hi, Ht, length_insert. intros Hne. apply Hok.
    intros Hnil. by rewrite Hnil in Hne.
Qed.

Lemma disableCurrentToken_cursor_ok tok w :
  cursor_ok (mgr w) → cursor_ok (mgr (exec (TM.disableCurrentToken tok) w)).
Proof.
  intros Hok. unfold exec, TM.disableCurrentToken. run.
  destruct (TM.findByAccess (access_token tok) (tokens (mgr w))) as [[i found]|]; [|done].
  by apply disableToken_cursor_ok.
Qed.

Lemma handleRequestError_cursor_ok e a w :
  cursor_ok (mgr w) → cursor_ok (mgr (exec (handleRequestError e a) w)).
Proof.
  intros Hok. unfold exec, TM.handleRequestError.
  case_bool_decide; [|done]. run.
  assert (Hlog : ∀ w0 l, cursor_ok (mgr w0) → cursor_ok (mgr (add_log l w0))) by done.
  assert (Hget : ∀ w0, cursor_ok (mgr w0) → cursor_ok (mgr (getToken w0).1)).
  { intros w0. apply getToken_cursor_ok. }
  destruct (tokens (mgr w) !! currentIndex (mgr w)) as [cur|]; [|by apply Hget].
  case_bool_decide; [|by apply Hget]. run.
  pose proof (refreshToken_cursor_ok (currentIndex (mgr w)) cur (add_log (Warn, Request403) w) Hok)
    as Href. unfold exec in Href.
  destruct (refreshToken (currentIndex (mgr w)) cur (add_log (Warn, Request403) w))
    as [w1 [tok'|e1]]; cbn in *; [done|].
  case_bool_decide; run.
  - pose proof (disableToken_cursor_ok (currentIndex (mgr w)) cur
                  (add_log (Warn, Refresh403) w1) Href) as Hdis. unfold exec in Hdis.
    destruct (TM.disableToken _ _ _) as [w2 [[]|e2]]; cbn in *; [|done].
    specialize (Hget w2 Hdis). by destruct (getToken w2) as [w3 [r|e3]].
  - by apply Hget.
Qed.

Lemma getToken_fresh_valid w tok :
  clock w - lastLoadTime (mgr w) < loadInterval →
  tokens (mgr w) !! currentIndex (mgr w) = Some tok →
  TM.isExpired (clock w) tok = false →
  ∃ w', getToken w = (w', Ok (Some tok))
    ∧ tokens (mgr w') = tokens (mgr w)
    ∧ currentIndex (mgr w') = ((currentIndex (mgr w) + 1) mod length (tokens (mgr w)))%nat
    ∧ clock w' = clock w
    ∧ lastLoadTime (mgr w') = lastLoadTime (mgr w).
Proof.
  intros Hfresh Hl Hv.
  assert (Hne : tokens (mgr w) ≠ []) by (intros Hnil; by rewrite Hnil in Hl).
  rewrite getToken_unfold. unfold exec.
  destruct (loadTokens_cases w) as [(-> & _)|(_ & [?|?])]; [|lia|done].
  cbn. apply length_pos_ne in Hne.
  destruct (length (tokens (mgr w))) as [|n] eqn:Hlen; [lia|].
  cbn [Nat.eqb]. rewrite loop_unfold.
  destruct (turn_cases w) as [(w1 & r & -> & Hout & _ & Hload)|(w1 & tok0 & _ & Hl0 & _ & He0 & _)];
    [|congruence].
  inversion Hout as [tok' Hl' Hv' Ht Hc Hk|tok0 tok' Hl' He Hs Hrt Ht Hc
                    |tok0 Hl' He Hs Ht Hc Hr|Ht Hc Hall Hr]; subst.
  - assert (tok' = tok) as -> by congruence. exists w1. rewrite Hc, Hlen. auto.
  - congruence.
  - congruence.
  - destruct (Hall tok Hl). congruence.
Qed.

Lemma isExpired_earlier t t' tok :
  t ≤ t' → TM.isExpired t' tok = false → TM.isExpired t tok = false.
Proof.
  intros Hle Hv. destruct (TM.isExpired t tok) eqn:He; [|done].
  by rewrite (isExpired_mono _ _ _ Hle He) in Hv.
Qed.

Lemma total_nonneg dts : Forall (Z.le 0) dts → 0 ≤ total dts.
Proof. unfold total. induction 1; cbn; lia. Qed.

Lemma consecutive_ring dts : ∀ w,
  (currentIndex (mgr w) < length (tokens (mgr w)))%nat →
  Forall (Z.le 0) dts →
  clock w + total dts - lastLoadTime (mgr w) < loadInterval →
  Forall (λ tok, TM.isExpired (clock w + total dts) tok = false) (tokens (mgr w)) →
  ∃ w', consecutive getToken dts w =
          (w', Ok ((λ j, tokens (mgr w) !! ((currentIndex (mgr w) + j) mod length (tokens (mgr w)))%nat)
                     <$> seq 0 (length dts)))
    ∧ tokens (mgr w') = tokens (mgr w)
    ∧ currentIndex (mgr w') =
        ((currentIndex (mgr w) + length dts) mod length (tokens (mgr w)))%nat.
Proof.
  induction dts as [|dt dts IH]; intros w Hc Hpos Hfresh Hvalid.
  - eexists. split; [reflexivity|]. split; [done|].
    cbn. rewrite Nat.add_0_r, Nat.mod_small; done.
  - apply Forall_cons in Hpos as [Hdt Hpos]. pose proof (total_nonneg _ Hpos) as Htot.
    cbn [total foldr] in *. fold (total dts) in *.
    destruct (lookup_lt_is_Some_2 _ _ Hc) as [tok Htok].
    destruct (getToken_fresh_valid (advance_clock dt w) tok) as (w1 & Hget & Ht & Hi & Hk & Hl);
      cbn; [lia|done| |].
    { rewrite Forall_lookup in Hvalid. eapply isExpired_earlier; [|by eapply Hvalid]. lia. }
    cbn in Ht, Hi, Hk, Hl.
    destruct (IH w1) as (w2 & Hrest & Ht2 & Hi2).
    + rewrite Ht, Hi. apply Nat.mod_upper_bound. lia.
    + done.
    + rewrite Hk, Hl. lia.
    + rewrite Ht, Hk. eapply Forall_impl; [exact Hvalid|]. intros t0 Ht0. cbn in Ht0.
      by replace (clock w + dt + total dts) with (clock w + (dt + total dts)) by lia.
    + exists w2. cbn [consecutive]. run. rewrite Hget. cbn. rewrite Hrest. cbn.
      rewrite Ht2, Hi2, Ht, Hi. split; [|split; [done|]].
      * do 2 f_equal. f_equal.
        -- by rewrite Nat.add_0_r, Nat.mod_small.
        -- rewrite <- fmap_S_seq, <- list_fmap_compose. apply list_fmap_ext.
           intros _ j _. cbn. f_equal.
           rewrite Nat.Div0.add_mod_idemp_l. f_equal. lia.
      * cbn [length]. rewrite Nat.Div0.add_mod_idemp_l. f_equal. lia.
Qed.

Lemma ring_rotate (pool : list Token) c :
  (λ j, pool !! ((c + j) mod length pool)%nat) <$> seq 0 (length pool)
  = Some <$> rotate c pool.
Proof.
  apply list_eq. intros i. rewrite !list_lookup_fmap.
  destruct (decide (i < length pool)%nat) as [Hi|Hi].
  - rewrite lookup_seq_lt by done. cbn.
    rewrite lookup_rotate_r by done.
    unfold rotate_nat_add.
    replace (Z.to_nat ((Z.of_nat c + Z.of_nat i) `mod` Z.of_nat (length pool)))
      with ((c + i) mod length pool)%nat.
    2:{ rewrite <- Nat2Z.inj_add, <- Nat2Z.inj_mod. by rewrite Nat2Z.id. }
    destruct (lookup_lt_is_Some_2 pool ((c + i) mod length pool)%nat) as [x Hx].
    { apply Nat.mod_upper_bound. lia. }
    by rewrite Hx.
  - rewrite lookup_seq_ge by lia. rewrite lookup_ge_None_2; [done|].
    rewrite length_rotate. lia.
Qed.

(** *** The merge of the pool into the stored collection *)

Lemma findIndex_Some rt l k :
  TM.findIndex rt l = Some k → ∃ t, l !! k = Some t ∧ refresh_token t = rt.
Proof.
  revert k. induction l as [|a l IH]; intros k; cbn; [done|].
  case_bool_decide as Ha.
  - intros [= <-]. eauto.
  - destruct (TM.findIndex rt l) as [j|]; cbn; [|done].
    intros [= <-]. destruct (IH j eq_refl) as (t & ? & ?). eauto.
Qed.


Lemma fmap_insert_same_rt (l : list Token) k x y :
  l !! k = Some x → refresh_token y = refresh_token x →
  refresh_token <$> <[k := y]> l = refresh_token <$> l.
Proof.
  intros Hk Hrt. rewrite list_fmap_insert, Hrt. apply list_insert_id.
  by rewrite list_lookup_fmap, Hk.
Qed.

Lemma mergeToken_rts cache p :
  refresh_token <$> TM.mergeToken cache p = refresh_token <$> cache.
Proof.
  unfold TM.mergeToken.
  destruct (TM.findIndex (refresh_token p) cache) as [k|] eqn:Hk; [|done].
  destruct (findIndex_Some _ _ _ Hk) as (t & Ht & Hrt).
  by apply (fmap_insert_same_rt _ _ t).
Qed.

Lemma mergeTokens_rts pool cache :
  refresh_token <$> TM.mergeTokens pool cache = refresh_token <$> cache.
Proof.
  unfold TM.mergeTokens. revert cache.
  induction pool as [|p pool IH]; intros cache; cbn; [done|].
  by rewrite IH, mergeToken_rts.
Qed.




(** An entry in step with the store is merged without effect. *)
Lemma mergeToken_synced cache p : synced cache p → TM.mergeToken cache p = cache.
Proof.
  intros (k & Hk & Hc). unfold TM.mergeToken. rewrite Hk. by apply list_insert_id.
Qed.

Lemma mergeTokens_in_sync pool cache : in_sync pool cache → TM.mergeTokens pool cache = cache.
Proof.
  unfold TM.mergeTokens. induction 1 as [|p pool Hp _ IH]; cbn; [done|].
  by rewrite mergeToken_synced.
Qed.



(** *** A retired credential stays retired *)










Lemma assignProjectIds_rts n l :
  refresh_token <$> (TM.assignProjectIds generateProjectId n l).1.1 = refresh_token <$> l.
Proof.
  revert n. induction l as [|t l IH]; intros n; cbn; [done|].
  destruct (JS.truthy_opt (projectId t)).
  - specialize (IH n). destruct (TM.assignProjectIds generateProjectId n l) as [[r b] n'].
    cbn in *. by rewrite IH.
  - specialize (IH (S n)). destruct (TM.assignProjectIds generateProjectId (S n) l) as [[r b] n'].
    cbn in *. by rewrite IH.
Qed.

Lemma assignProjectIds_enabled n l :
  length (List.filter enabled (TM.assignProjectIds generateProjectId n l).1.1)
  = length (List.filter enabled l).
Proof.
  revert n. induction l as [|t l IH]; intros n; cbn; [done|].
  destruct (JS.truthy_opt (projectId t)).
  - specialize (IH n). destruct (TM.assignProjectIds generateProjectId n l) as [[r b] n'].
    cbn in *. destruct (enabled t); cbn; by rewrite IH.
  - specialize (IH (S n)). destruct (TM.assignProjectIds generateProjectId (S n) l) as [[r b] n'].
    cbn in *. change (enabled (set_projectId (generateProjectId n) t)) with (enabled t).
    destruct (enabled t); cbn; by rewrite IH.
Qed.







(** *** Storage failures *)

Lemma initialize_unreadable w :
  file (disk w) = None →
  initialize w =
    (with_mgr (set_tokens [])
       (add_log (Error, InitFailed)
          (with_disk count_access (add_log (Info, InitStart) w))), Ok tt).
Proof. intros Hf. unfold TM.initialize, TM.readFile. run. rewrite Hf. done. Qed.

Lemma initialize_unwritable w data :
  file (disk w) = Some data →
  (TM.assignProjectIds generateProjectId (draws w) data).1.2 = true →
  writable (disk w) = false →
  let w' := exec initialize w in
  tokens (mgr w') = [] ∧ currentIndex (mgr w') = currentIndex (mgr w)
  ∧ cachedData (mgr w') = cachedData (mgr w)
  ∧ file (disk w') = Some data
  ∧ accesses (disk w') = S (S (accesses (disk w)))
  ∧ logs w' = logs w ++ [(Info, InitStart); (Error, InitFailed)].
Proof.
  intros Hf Hneed Hw. unfold exec, TM.initialize, TM.readFile, TM.writeFile. run.
  rewrite Hf. run.
  destruct (TM.assignProjectIds generateProjectId (draws w) data) as [[arr needSave] n1].
  cbn in Hneed. subst needSave. run. rewrite Hw. run.
  rewrite <- app_assoc. auto 10.
Qed.

Lemma saveToFile_unwritable w cache :
  writable (disk w) = false → cachedData (mgr w) = Some cache →
  TM.saveToFile w =
    (add_log (Error, SaveFailed)
       (with_disk count_access
          (with_mgr (set_cachedData (Some (TM.mergeTokens (tokens (mgr w)) cache))) w)),
     Ok tt).
Proof.
  intros Hw Hc. unfold TM.saveToFile, TM.writeFile. run. rewrite Hc. run. by rewrite Hw.
Qed.

Lemma saveToFile_writable w cache :
  writable (disk w) = true → cachedData (mgr w) = Some cache →
  TM.saveToFile w =
    (with_disk (set_file (TM.mergeTokens (tokens (mgr w)) cache))
       (with_disk count_access
          (with_mgr (set_cachedData (Some (TM.mergeTokens (tokens (mgr w)) cache))) w)),
     Ok tt).
Proof.
  intros Hw Hc. unfold TM.saveToFile, TM.writeFile. run. rewrite Hc. run. rewrite Hw. run.
  destruct w as [m d c f dr lg]. done.
Qed.

(** *** The turn that disables a rejected credential *)

Lemma rejected_status status text :
  status = 403 ∨ status = 400 →
  response_ok status = false ∧ TM.rejected (mkError (Some status) text) = true.
Proof. by intros [-> | ->]. Qed.

Lemma absent_filter_other rt l : absent rt (List.filter (other rt) l).
Proof.
  induction l as [|t l IH]; cbn; [constructor|].
  destruct (other rt t) eqn:Ho; [|done]. constructor; [|done].
  unfold other in Ho. intros Heq. by rewrite bool_decide_eq_true_2 in Ho.
Qed.


Lemma NoDup_rts_filter (f : Token → bool) (l : list Token) :
  NoDup (refresh_token <$> l) → NoDup (refresh_token <$> List.filter f l).
Proof.
  induction l as [|a l IH]; cbn; [done|].
  intros [Ha Hnd]%NoDup_cons. destruct (f a); cbn; [|by apply IH].
  apply NoDup_cons. split; [|by apply IH].
  intros Hin. apply Ha.
  apply list_elem_of_fmap in Hin as (t & -> & Ht).
  apply list_elem_of_fmap_2. apply list_elem_of_In in Ht.
  apply list_elem_of_In. by apply filter_In in Ht as [? _].
Qed.











(** *** What a successful load establishes *)

Lemma findIndex_NoDup (l : list Token) t :
  NoDup (refresh_token <$> l) → t ∈ l →
  ∃ k, TM.findIndex (refresh_token t) l = Some k ∧ l !! k = Some t.
Proof.
  induction l as [|a l IH]; intros Hnd Hin; [by apply elem_of_nil in Hin|].
  cbn in Hnd. apply NoDup_cons in Hnd as [Ha Hnd].
  apply elem_of_cons in Hin as [->|Hin]; cbn.
  - rewrite bool_decide_eq_true_2 by done. by exists 0%nat.
  - rewrite bool_decide_eq_false_2.
    + destruct (IH Hnd Hin) as (k & -> & Hk). by exists (S k).
    + intros Heq. apply Ha. rewrite Heq. by apply list_elem_of_fmap_2.
Qed.

Lemma assignSessionIds_pool n (l : list Token) :
  Forall2 (λ p t, ∃ sid, p = set_sessionId (Some sid) t)
          (TM.assignSessionIds generateSessionId n l).1 l.
Proof.
  revert n. induction l as [|t l IH]; intros n; cbn; [constructor|].
  specialize (IH (S n)). destruct (TM.assignSessionIds generateSessionId (S n) l) as [r n'].
  cbn in *. constructor; [by eexists|done].
Qed.

Lemma assignProjectIds_stored n (l : list Token) :
  Forall (λ t, sessionId t = None) l →
  Forall (λ t, sessionId t = None) (TM.assignProjectIds generateProjectId n l).1.1.
Proof.
  intros Hl. revert n. induction Hl as [|t l Ht _ IH]; intros n; cbn; [constructor|].
  destruct (JS.truthy_opt (projectId t)).
  - specialize (IH n). destruct (TM.assignProjectIds generateProjectId n l) as [[r b] n'].
    cbn in *. by constructor.
  - specialize (IH (S n)). destruct (TM.assignProjectIds generateProjectId (S n) l) as [[r b] n'].
    cbn in *. by constructor.
Qed.

Lemma tokenToSave_pooled sid t : sessionId t = None → tokenToSave (set_sessionId sid t) = t.
Proof. destruct t. cbn. by intros ->. Qed.

(** After a load that went through, the cache holds the stored
    collection, the pool is in step with it and the cursor is at 0. *)
Lemma initialize_in_sync w data :
  file (disk w) = Some data →
  NoDup (refresh_token <$> data) →
  Forall (λ t, sessionId t = None) data →
  (TM.assignProjectIds generateProjectId (draws w) data).1.2 = false
    ∨ writable (disk w) = true →
  let w' := exec initialize w in
  ∃ cache, cachedData (mgr w') = Some cache
    ∧ refresh_token <$> cache = refresh_token <$> data
    ∧ NoDup (refresh_token <$> cache)
    ∧ NoDup (refresh_token <$> tokens (mgr w'))
    ∧ in_sync (tokens (mgr w')) cache
    ∧ currentIndex (mgr w') = 0%nat
    ∧ lastLoadTime (mgr w') = clock w.
Proof.
  intros Hf Hnd Hsid Hsave.
  pose proof (assignProjectIds_rts (draws w) data) as Hrts.
  pose proof (assignProjectIds_stored (draws w) data Hsid) as Hstored.
  unfold exec, TM.initialize, TM.readFile, TM.writeFile. run. rewrite Hf. run.
  destruct (TM.assignProjectIds generateProjectId (draws w) data) as [[arr needSave] n1].
  cbn in Hrts, Hstored, Hsave. run.
  pose proof (assignSessionIds_pool n1 (List.filter enabled arr)) as Hpool.
  destruct (TM.assignSessionIds generateSessionId n1 (List.filter enabled arr)) as [pool n2].
  cbn in Hpool.
  assert (Hnda : NoDup (refresh_token <$> arr)) by (by rewrite Hrts).
  assert (Hprts : refresh_token <$> pool = refresh_token <$> List.filter enabled arr).
  { clear -Hpool. induction Hpool as [|p t ps ts (sid & ->) _ IH]; cbn; [done|]. by rewrite IH. }
  assert (Hsync : in_sync pool arr).
  { assert (Hsub : Forall (λ t, t ∈ arr) (List.filter enabled arr)).
    { apply Forall_forall. intros t Ht. apply list_elem_of_In in Ht.
      apply list_elem_of_In. by apply filter_In in Ht as [? _]. }
    clear Hprts. unfold in_sync.
    induction Hpool as [|p t ps ts (sid & ->) _ IH]; [constructor|].
    apply Forall_cons in Hsub as [Ht Hsub]. constructor; [|by apply IH].
    destruct (findIndex_NoDup arr t Hnda Ht) as (k & Hk & Hlk).
    exists k. rewrite tokenToSave_pooled; [done|].
    rewrite Forall_forall in Hstored. by apply Hstored. }
  assert (Hndp : NoDup (refresh_token <$> pool)).
  { rewrite Hprts. by apply NoDup_rts_filter. }
  destruct needSave; run.
  - destruct Hsave as [|Hw]; [done|]. rewrite Hw. run. exists arr. auto 10.
  - exists arr. auto 10.
Qed.

(** ** The properties of the credential pool *)

(** C3, as amended.  A storage failure is logged once and not retried, and
    what it does to the pool depends on the operation.  A load that cannot
    read the store, or cannot write back the project ids it generated,
    empties the pool (cursor and cache keep their values).  A save that
    cannot write leaves the file and the pool as they were and logs the
    failure after one attempt; the refresh or the disablement around it
    goes on: the refreshed credential is in the pool with its new grant,
    the disabled one (a credential with an access token, without which
    [disableToken] does not get as far as the save) is removed from the
    pool. *)
Theorem storage_failure_effects w :
  (file (disk w) = None →
     let w' := exec initialize w in
     tokens (mgr w') = [] ∧ currentIndex (mgr w') = currentIndex (mgr w)
     ∧ cachedData (mgr w') = cachedData (mgr w)
     ∧ accesses (disk w') = S (accesses (disk w))
     ∧ logs w' = logs w ++ [(Info, InitStart); (Error, InitFailed)])
  ∧ (∀ data, file (disk w) = Some data →
     (TM.assignProjectIds generateProjectId (draws w) data).1.2 = true →
     writable (disk w) = false →
     let w' := exec initialize w in
     tokens (mgr w') = [] ∧ currentIndex (mgr w') = currentIndex (mgr w)
     ∧ cachedData (mgr w') = cachedData (mgr w)
     ∧ file (disk w') = Some data
     ∧ accesses (disk w') = S (S (accesses (disk w)))
     ∧ logs w' = logs w ++ [(Info, InitStart); (Error, InitFailed)])
  ∧ (∀ cache, writable (disk w) = false → cachedData (mgr w) = Some cache →
     let w' := exec TM.saveToFile w in
     tokens (mgr w') = tokens (mgr w) ∧ currentIndex (mgr w') = currentIndex (mgr w)
     ∧ file (disk w') = file (disk w)
     ∧ accesses (disk w') = S (accesses (disk w))
     ∧ logs w' = logs w ++ [(Error, SaveFailed)])
  ∧ (∀ cache idx tok status text grant,
     writable (disk w) = false → cachedData (mgr w) = Some cache →
     outcome (oauth (fetches w) (refresh_token tok)) = HttpResponse status text (Some grant) →
     response_ok status = true →
     ∃ w' tok', refreshToken idx tok w = (w', Ok tok')
       ∧ access_token tok' = grant_access_token grant
       ∧ tokens (mgr w') = <[idx := tok']> (tokens (mgr w))
       ∧ file (disk w') = file (disk w)
       ∧ accesses (disk w') = S (accesses (disk w))
       ∧ logs w' = logs w ++ [(Info, RefreshStart); (Error, SaveFailed)])
  ∧ (∀ cache idx tok,
     writable (disk w) = false → cachedData (mgr w) = Some cache →
     access_token tok ≠ None →
     let w' := exec (TM.disableToken idx tok) w in
     tokens (mgr w') = List.filter (other (refresh_token tok))
                                   (<[idx := set_enable false tok]> (tokens (mgr w)))
     ∧ file (disk w') = file (disk w)
     ∧ accesses (disk w') = S (accesses (disk w))
     ∧ logs w' = logs w ++ [(Warn, Disabling); (Error, SaveFailed)]).
Proof.
  split; [|split; [|split; [|split]]].
  - intros Hf. unfold exec. rewrite initialize_unreadable by done. cbn.
    rewrite <- app_assoc. auto.
  - intros data. apply initialize_unwritable.
  - intros cache Hw Hc. unfold exec. rewrite (saveToFile_unwritable _ cache) by done.
    cbn. auto.
  - intros cache idx tok status text grant Hw Hc Hout Hok.
    unfold TM.refreshToken, TM.fetchToken. run. rewrite Hout. run. rewrite Hok. run.
    rewrite (saveToFile_unwritable _ cache) by done. cbn.
    do 2 eexists. split; [reflexivity|]. cbn. rewrite <- app_assoc. auto 10.
  - intros cache idx tok Hw Hc Hacc. unfold exec, TM.disableToken.
    destruct (access_token tok) as [a|]; [|done]. run.
    rewrite (saveToFile_unwritable _ cache) by done. cbn.
    rewrite <- app_assoc. auto.
Qed.


(** C5, as amended.  While the loaded pool is still fresh (less than
    60 s old at each call, so that no call reloads it) and every
    credential in it is unexpired, as many calls of [getToken()] as the
    pool has entries return its credentials in ring order from the cursor,
    each exactly once, and leave the cursor where it was. *)
Theorem ring_order_while_fresh w dts :
  length dts = length (tokens (mgr w)) →
  (currentIndex (mgr w) < length (tokens (mgr w)))%nat →
  Forall (Z.le 0) dts →
  clock w + total dts - lastLoadTime (mgr w) < loadInterval →
  Forall (λ tok, TM.isExpired (clock w + total dts) tok = false) (tokens (mgr w)) →
  ∃ w', consecutive getToken dts w
          = (w', Ok (Some <$> rotate (currentIndex (mgr w)) (tokens (mgr w))))
    ∧ rotate (currentIndex (mgr w)) (tokens (mgr w)) ≡ₚ tokens (mgr w)
    ∧ tokens (mgr w') = tokens (mgr w)
    ∧ currentIndex (mgr w') = currentIndex (mgr w).
Proof.
  intros Hlen Hc Hpos Hfresh Hvalid.
  destruct (consecutive_ring dts w Hc Hpos Hfresh Hvalid) as (w' & Hrun & Ht & Hi).
  exists w'. rewrite Hrun, Hlen, ring_rotate. split; [done|].
  split.
  { unfold rotate. by rewrite Permutation_app_comm, take_drop. }
  split; [done|].
  rewrite Hi, Hlen.
  replace (currentIndex (mgr w) + length (tokens (mgr w)))%nat
    with (currentIndex (mgr w) + 1 * length (tokens (mgr w)))%nat by lia.
  by rewrite Nat.Div0.mod_add, Nat.mod_small.
Qed.

(** C7, at the input on which it fails.  [getToken()] lets an exception
    escape: when the credential under the cursor has no access token and
    its refresh is answered 403 or 400, the [catch] block of the loop calls
    [disableToken], whose log line takes [token.access_token.slice(-8)],
    and the [TypeError] of that is thrown to the caller of [getToken()].
    The credential is then neither disabled nor removed: pool and store
    are as they were. *)
Theorem getToken_throws_on_rejected_bare_credential w tok status text json :
  clock w - lastLoadTime (mgr w) < loadInterval →
  tokens (mgr w) !! currentIndex (mgr w) = Some tok →
  access_token tok = None →
  TM.isExpired (clock w) tok = true →
  outcome (oauth (fetches w) (refresh_token tok)) = HttpResponse status text json →
  status = 403 ∨ status = 400 →
  ∃ w', getToken w = (w', Throw TypeError) ∧ mgr w' = mgr w ∧ disk w' = disk w.
Proof.
  intros Hfresh Hlk Hacc Hexp Hout Hst.
  destruct (rejected_status status text Hst) as [Hok Hrej].
  rewrite (getToken_first_turn w tok) by done.
  rewrite turn_exact, Hlk, Hexp.
  destruct (refreshToken_cases (currentIndex (mgr w)) tok w)
    as [(w1 & e & -> & _ & Hm & Hd & _ & _ & He)|(w1 & tok' & _ & Hs & _)].
  2: { unfold refresh_succeeds in Hs. rewrite Hout in Hs. destruct json; congruence. }
  rewrite Hout, Hok in He.
  assert (TM.rejected e = true) as ->.
  { unfold TM.rejected. rewrite He. by destruct Hst as [-> | ->]. }
  rewrite disableToken_throws by done. eexists. split; [reflexivity|]. by cbn.
Qed.

(** C8.  The rotation cursor is below the length of the pool whenever the
    pool is not empty: this holds when the manager is constructed, and
    every operation of the manager keeps it so.  A load that goes through
    sets the cursor to 0, wherever it was (one that fails empties the
    pool), and [loadTokens] is such a load once the pool is 60 s old or
    empty.  A dispatch moves the cursor one step on, modulo the length of
    the pool: [getToken()] on a fresh pool returns the credential under
    the cursor, as it is when it is valid and refreshed when its refresh
    is granted, and whenever [getToken()] returns a credential the cursor
    is one step past it.  A disablement removes the credential and
    reduces the cursor modulo the new length. *)
Theorem rotation_cursor_invariant w :
  cursor_ok (mgr (exec (TM.constructor generateProjectId generateSessionId) w)) ∧
  (cursor_ok (mgr w) →
  (cursor_ok (mgr (exec initialize w)) ∧ cursor_ok (mgr (exec loadTokens w))
   ∧ cursor_ok (mgr (exec getToken w))
   ∧ (∀ idx tok, cursor_ok (mgr (exec (refreshToken idx tok) w)))
   ∧ (∀ idx tok, cursor_ok (mgr (exec (TM.disableToken idx tok) w)))
   ∧ (∀ tok, cursor_ok (mgr (exec (TM.disableCurrentToken tok) w)))
   ∧ (∀ e a, cursor_ok (mgr (exec (handleRequestError e a) w))))
  ∧ (∀ data, file (disk w) = Some data →
       writable (disk w) = true
       ∨ (TM.assignProjectIds generateProjectId (draws w) data).1.2 = false →
       currentIndex (mgr (exec initialize w)) = 0%nat
       ∧ length (tokens (mgr (exec initialize w))) = length (List.filter enabled data))
  ∧ (file (disk w) = None → tokens (mgr (exec initialize w)) = [])
  ∧ (loadInterval ≤ clock w - lastLoadTime (mgr w) ∨ tokens (mgr w) = [] →
       loadTokens w = initialize w)
  ∧ (∀ tok, clock w - lastLoadTime (mgr w) < loadInterval →
       tokens (mgr w) !! currentIndex (mgr w) = Some tok →
       TM.isExpired (clock w) tok = false →
       ∃ w', getToken w = (w', Ok (Some tok))
         ∧ tokens (mgr w') = tokens (mgr w)
         ∧ currentIndex (mgr w')
           = ((currentIndex (mgr w) + 1) mod length (tokens (mgr w)))%nat)
  ∧ (∀ tok, clock w - lastLoadTime (mgr w) < loadInterval →
       tokens (mgr w) !! currentIndex (mgr w) = Some tok →
       TM.isExpired (clock w) tok = true →
       refresh_succeeds (oauth (fetches w) (refresh_token tok)) = true →
       ∃ w' tok', getToken w = (w', Ok (Some tok'))
         ∧ tokens (mgr w') = <[currentIndex (mgr w) := tok']> (tokens (mgr w))
         ∧ currentIndex (mgr w')
           = ((currentIndex (mgr w) + 1) mod length (tokens (mgr w)))%nat)
  ∧ (∀ w' tok, getToken w = (w', Ok (Some tok)) →
       ∃ idx, tokens (mgr w') !! idx = Some tok
         ∧ currentIndex (mgr w') = ((idx + 1) mod length (tokens (mgr w')))%nat)
  ∧ (∀ idx tok, access_token tok ≠ None →
       ∃ w', TM.disableToken idx tok w = (w', Ok tt)
         ∧ tokens (mgr w') = List.filter (other (refresh_token tok))
                                         (<[idx := set_enable false tok]> (tokens (mgr w)))
         ∧ absent (refresh_token tok) (tokens (mgr w'))
         ∧ currentIndex (mgr w')
           = (currentIndex (mgr w) mod Nat.max (length (tokens (mgr w'))) 1)%nat)).
Proof.
  split; [apply (initialize_cursor_ok (with_mgr _ w))|].
  intros Hok. split; [|split; [|split; [|split; [|split; [|split; [|split]]]]]].
  - auto 10 using initialize_cursor_ok, loadTokens_cursor_ok, getToken_cursor_ok,
      refreshToken_cursor_ok, disableToken_cursor_ok, disableCurrentToken_cursor_ok,
      handleRequestError_cursor_ok.
  - intros data Hf Hsave. unfold exec, TM.initialize, TM.readFile, TM.writeFile. run.
    rewrite Hf. run.
    pose proof (assignProjectIds_rts (draws w) data) as Hrts.
    pose proof (assignProjectIds_enabled (draws w) data) as Hen.
    destruct (TM.assignProjectIds generateProjectId (draws w) data) as [[arr needSave] n1].
    cbn in Hsave, Hrts, Hen. run.
    pose proof (assignSessionIds_pool n1 (List.filter enabled arr)) as Hpool.
    destruct (TM.assignSessionIds generateSessionId n1 (List.filter enabled arr)) as [pool n2].
    cbn in Hpool. apply Forall2_length in Hpool.
    destruct needSave; run.
    + destruct Hsave as [Hw|?]; [|done]. rewrite Hw. run. split; [done|]. by rewrite Hpool, Hen.
    + split; [done|]. by rewrite Hpool, Hen.
  - intros Hf. unfold exec. by rewrite initialize_unreadable.
  - intros Hstale. by destruct (loadTokens_cases w) as [(_ & ? & ?)|(-> & _)]; [destruct Hstale; [lia|done]|].
  - intros tok Hfresh Hlk Hv.
    destruct (getToken_fresh_valid w tok Hfresh Hlk Hv) as (w' & Hget & Ht & Hc & _).
    by exists w'.
  - intros tok Hfresh Hlk Hexp Hs.
    rewrite (getToken_first_turn w tok) by done.
    rewrite turn_exact, Hlk, Hexp.
    destruct (refreshToken_cases (currentIndex (mgr w)) tok w)
      as [(w1 & e & _ & Hfail & _)|(w1 & tok' & -> & _ & _ & Ht & Hc & _)]; [congruence|].
    do 2 eexists. split; [reflexivity|]. unfold TM.recordUsage, TM.advance. run.
    rewrite Ht, Hc, length_insert. done.
  - apply getToken_returned.
  - intros idx tok Hacc.
    destruct (disableToken_spec idx tok w Hacc) as (w' & Hrun & Ht & Hc & _).
    exists w'. split; [done|]. split; [done|]. split; [|done].
    rewrite Ht. apply absent_filter_other.
Qed.

Lemma ring_next_differs (i n : nat) : (i < n)%nat → (2 ≤ n)%nat → ((i + 1) mod n)%nat ≠ i.
Proof.
  intros Hi Hn. destruct (decide (i + 1 = n)%nat) as [<-|Hne].
  - rewrite Nat.Div0.mod_same. lia.
  - rewrite Nat.mod_small; lia.
Qed.

(** C10.  When [getToken()] returns a credential, the cursor has already
    moved past it: the returned credential sits at some index [idx] of the
    pool and the cursor is [(idx + 1) mod length].  So in a pool of two or
    more entries with distinct access tokens the credential under the
    cursor is another one, the test of [handleRequestError] on the access
    token of the credential just dispatched fails, and the handler does
    nothing but log and call [getToken()]: the failed credential is neither
    refreshed nor disabled by it.  In a pool of one entry the cursor is on
    the returned credential. *)
Theorem cursor_is_past_the_returned_credential w w' tok :
  getToken w = (w', Ok (Some tok)) →
  ∃ idx, tokens (mgr w') !! idx = Some tok
    ∧ currentIndex (mgr w') = ((idx + 1) mod length (tokens (mgr w')))%nat
    ∧ (length (tokens (mgr w')) = 1%nat → currentIndex (mgr w') = idx)
    ∧ ((2 ≤ length (tokens (mgr w')))%nat →
       NoDup (access_token <$> tokens (mgr w')) →
       ∃ next, tokens (mgr w') !! currentIndex (mgr w') = Some next
         ∧ access_token next ≠ access_token tok
         ∧ ∀ e, statusCode e = Some 403 →
             handleRequestError e (access_token tok) w'
             = getToken (add_log (Warn, Request403) w')).
Proof.
  intros Hget. destruct (getToken_returned _ _ _ Hget) as (idx & Hidx & Hcur).
  exists idx. split; [done|]. split; [done|].
  pose proof (lookup_lt_Some _ _ _ Hidx) as Hlt. split.
  - intros H1. rewrite Hcur, H1. rewrite H1 in Hlt. rewrite Nat.mod_1_r. lia.
  - intros H2 Hnd.
    assert (Hne : currentIndex (mgr w') ≠ idx) by (rewrite Hcur; by apply ring_next_differs).
    destruct (lookup_lt_is_Some_2 (tokens (mgr w')) (currentIndex (mgr w'))) as [next Hnext].
    { rewrite Hcur. apply Nat.mod_upper_bound. lia. }
    assert (Hacc : access_token next ≠ access_token tok).
    { intros Heq. apply Hne. eapply NoDup_lookup; [exact Hnd| |].
      - by rewrite list_lookup_fmap, Hnext.
      - rewrite list_lookup_fmap, Hidx. cbn. by rewrite Heq. }
    exists next. split; [done|]. split; [done|].
    intros e He. unfold TM.handleRequestError. rewrite He.
    rewrite bool_decide_eq_true_2 by done. run. rewrite Hnext.
    by rewrite bool_decide_eq_false_2.
Qed.
End TokenManagerFacts.

(** *** The same, on the sample data *)

Lemma storage_failure_effects_witness :
  tokens (mgr (exec (TM.initialize Sample.ids Sample.ids) Sample.unreadable_world)) = []
  ∧ tokens (mgr (exec (TM.initialize Sample.ids Sample.ids) Sample.unprovisioned_world)) = []
  ∧ logs (exec TM.saveToFile Sample.unwritable_world) = [(Error, SaveFailed)]
  ∧ (∃ w' tok', TM.refreshToken Sample.grants 0 (Sample.pooled Sample.lapsedA)
                  Sample.unwritable_world = (w', Ok tok')
       ∧ tokens (mgr w') = <[0%nat := tok']> (tokens (mgr Sample.unwritable_world))
       ∧ file (disk w') = file (disk Sample.unwritable_world))
  ∧ file (disk (exec (TM.disableToken 0 (Sample.pooled Sample.lapsedA)) Sample.unwritable_world))
    = file (disk Sample.unwritable_world).
Proof.
  pose proof (storage_failure_effects Sample.grants Sample.ids Sample.ids) as T.
  split; [|split; [|split; [|split]]].
  - destruct (T Sample.unreadable_world) as (H & _). apply H. reflexivity.
  - destruct (T Sample.unprovisioned_world) as (_ & H & _).
    eapply H; [reflexivity|vm_compute; reflexivity|reflexivity].
  - destruct (T Sample.unwritable_world) as (_ & _ & H & _).
    eapply (H [Sample.lapsedA; Sample.credB]); reflexivity.
  - destruct (T Sample.unwritable_world) as (_ & _ & _ & H & _).
    destruct (H [Sample.lapsedA; Sample.credB] 0%nat (Sample.pooled Sample.lapsedA)
                200 [] (mkGrant (Some [99%N]) (Some 3600)))
      as (w' & tok' & Hrun & _ & Ht & Hf & _); try reflexivity.
    exists w', tok'. auto.
  - destruct (T Sample.unwritable_world) as (_ & _ & _ & _ & H).
    assert (Hacc : access_token (Sample.pooled Sample.lapsedA) ≠ None) by discriminate.
    exact (proj1 (proj2 (H [Sample.lapsedA; Sample.credB] 0%nat (Sample.pooled Sample.lapsedA)
                           eq_refl eq_refl Hacc))).
Defined.

(** C3, as stated, fails: a load that cannot read the store does not leave
    the pool as it was, it empties it. *)
Lemma load_failure_empties_pool :
  file (disk Sample.unreadable_world) = None
  ∧ tokens (mgr Sample.unreadable_world) = [Sample.pooled Sample.credA]
  ∧ tokens (mgr (exec (TM.getToken (Sample.answers 403) Sample.ids Sample.ids)
                      Sample.unreadable_world)) = []
  ∧ tokens (mgr (exec (TM.getToken (Sample.answers 403) Sample.ids Sample.ids)
                      Sample.unreadable_world))
    ≠ tokens (mgr Sample.unreadable_world).
Proof. vm_compute. repeat split; done. Qed.



Lemma ring_order_while_fresh_witness :
  let w := Sample.ring_world in
  let getToken := TM.getToken (Sample.answers 403) Sample.ids Sample.ids in
  (length [0; 20000; 30000] = length (tokens (mgr w))
   ∧ (currentIndex (mgr w) < length (tokens (mgr w)))%nat
   ∧ clock w + total [0; 20000; 30000] - lastLoadTime (mgr w) < loadInterval)
  ∧ ∃ w', consecutive getToken [0; 20000; 30000] w
          = (w', Ok (Some <$> rotate (currentIndex (mgr w)) (tokens (mgr w)))).
Proof.
  intros w getToken.
  split; [repeat split; vm_compute; (reflexivity || lia)|].
  destruct (ring_order_while_fresh (Sample.answers 403) Sample.ids Sample.ids
              w [0; 20000; 30000]) as (w' & Hrun & _).
  - reflexivity.
  - vm_compute. lia.
  - repeat constructor; vm_compute; discriminate.
  - vm_compute. reflexivity.
  - repeat constructor.
  - exists w'. exact Hrun.
Defined.

(** C5, as stated, fails: the second of three calls comes 70 s after the
    load, reloads the store and puts the cursor back to 0, so that the
    three calls return the second credential, the first, and the second
    again, and never the third. *)
Lemma reload_breaks_ring_order :
  let w := Sample.ring_world in
  let getToken := TM.getToken (Sample.answers 403) Sample.ids Sample.ids in
  length (tokens (mgr w)) = 3%nat
  ∧ currentIndex (mgr w) = 1%nat
  ∧ Forall (λ tok, TM.isExpired (clock w + total [0; 69000; 0]) tok = false) (tokens (mgr w))
  ∧ ∃ w' r, consecutive getToken [0; 69000; 0] w = (w', Ok r)
      ∧ map (option_map refresh_token) r = [Some [2%N]; Some [1%N]; Some [2%N]]
      ∧ map (option_map refresh_token) (Some <$> rotate 1 (tokens (mgr w)))
        = [Some [2%N]; Some [3%N]; Some [1%N]]
      ∧ r ≠ Some <$> rotate (currentIndex (mgr w)) (tokens (mgr w)).
Proof.
  split; [reflexivity|]. split; [reflexivity|]. split; [repeat constructor|].
  do 2 eexists. split; [vm_compute; reflexivity|].
  split; [reflexivity|]. split; [reflexivity|]. vm_compute. discriminate.
Qed.

Lemma getToken_throws_on_rejected_bare_credential_witness :
  let getToken := TM.getToken (Sample.answers 403) Sample.ids Sample.ids in
  tokens (mgr Sample.bare_world) = [Sample.pooled Sample.bare]
  ∧ ∃ w', getToken Sample.bare_world = (w', Throw TypeError)
      ∧ tokens (mgr w') = [Sample.pooled Sample.bare]
      ∧ file (disk w') = Some [Sample.bare].
Proof.
  intros getToken. split; [reflexivity|].
  destruct (getToken_throws_on_rejected_bare_credential (Sample.answers 403) Sample.ids
              Sample.ids Sample.bare_world (Sample.pooled Sample.bare) 403 [] None
              eq_refl eq_refl eq_refl eq_refl eq_refl (or_introl eq_refl))
    as (w' & Hrun & Hm & Hd).
  exists w'. split; [exact Hrun|]. by rewrite Hm, Hd.
Defined.

Lemma rotation_cursor_invariant_witness :
  let getToken := TM.getToken (Sample.answers 403) Sample.ids Sample.ids in
  let initialize := TM.initialize Sample.ids Sample.ids in
  (cursor_ok (mgr Sample.ring_world) ∧ currentIndex (mgr Sample.ring_world) = 1%nat)
  ∧ cursor_ok (mgr (exec getToken Sample.ring_world))
  ∧ (currentIndex (mgr (exec initialize Sample.ring_world)) = 0%nat
     ∧ length (tokens (mgr (exec initialize Sample.ring_world))) = 3%nat)
  ∧ (∃ w', getToken Sample.ring_world = (w', Ok (Some (Sample.pooled Sample.credB)))
       ∧ currentIndex (mgr w') = 2%nat)
  ∧ (∃ w', TM.disableToken 2 (Sample.pooled Sample.credC) Sample.ring_world = (w', Ok tt)
       ∧ tokens (mgr w') = [Sample.pooled Sample.credA; Sample.pooled Sample.credB]
       ∧ currentIndex (mgr w') = 1%nat).
Proof.
  intros getToken initialize.
  assert (H : cursor_ok (mgr Sample.ring_world)) by (intros _; vm_compute; lia).
  split; [split; [exact H|reflexivity]|].
  destruct (proj2 (rotation_cursor_invariant (Sample.answers 403) Sample.ids Sample.ids
                     Sample.ring_world) H)
    as ((_ & _ & Hget & _) & Hload & _ & _ & Hvalid & _ & _ & Hdis).
  split; [exact Hget|]. split; [|split].
  - exact (Hload [Sample.credA; Sample.credB; Sample.credC] eq_refl (or_introl eq_refl)).
  - destruct (Hvalid (Sample.pooled Sample.credB) eq_refl eq_refl eq_refl)
      as (w' & Hrun & _ & Hc).
    exists w'. split; [exact Hrun|exact Hc].
  - assert (Hacc : access_token (Sample.pooled Sample.credC) ≠ None) by discriminate.
    destruct (Hdis 2%nat (Sample.pooled Sample.credC) Hacc) as (w' & Hrun & Ht & _ & Hc).
    exists w'. split; [exact Hrun|]. split; [exact Ht|]. rewrite Hc, Ht. reflexivity.
Defined.

Lemma cursor_is_past_the_returned_credential_witness :
  let getToken := TM.getToken (Sample.answers 403) Sample.ids Sample.ids in
  let w' := exec getToken Sample.ring_world in
  getToken Sample.ring_world = (w', Ok (Some (Sample.pooled Sample.credB)))
  ∧ ∃ idx, tokens (mgr w') !! idx = Some (Sample.pooled Sample.credB)
      ∧ currentIndex (mgr w') = ((idx + 1) mod length (tokens (mgr w')))%nat.
Proof.
  intros getToken w'.
  assert (H : getToken Sample.ring_world = (w', Ok (Some (Sample.pooled Sample.credB))))
    by (vm_compute; reflexivity).
  split; [exact H|].
  destruct (cursor_is_past_the_returned_credential (Sample.answers 403) Sample.ids Sample.ids
              _ _ _ H) as (idx & Hidx & Hcur & _).
  exists idx. split; [exact Hidx|exact Hcur].
Defined.

(** ** Facts about the handler *)

(** Unfold the monad and the operations on the response, and compute. *)
Ltac srun :=
  cbv [mbind M_bind mret M_ret bind ret throw gets modify try_catch exec
       Server.with_res Server.with_world Server.set_interval Server.set_streamVar
       Server.write Server.end_ Server.setStatus Server.flushHeaders Server.setHeader
       Server.json Server.clearInterval Server.logError Server.liftResult Server.lift
       Server.writeError Server.getToken TM.now];
  cbn.

Section HandlerFacts.
Context {Tools Params ToolCall Config Payload : Type}.
Variable oauth : nat → jsstring → OAuthReply.
Variable generateProjectId : nat → jsstring.
Variable generateSessionId : nat → jsstring.
Variable generateRequestBody :
    list Server.Message → jsstring → Params → option Tools → option jsstring
    → result (Server.RequestBody Tools Config Payload).
Variable generateAssistantResponseNoStream :
    Server.RequestBody Tools Config Payload → Token → Server.BlockingReply ToolCall.
Variable generateAssistantResponse :
    Server.RequestBody Tools Config Payload → Token → Server.StreamReply ToolCall.

Import Server.

Abbreviation getTokenOp := (TM.getToken oauth generateProjectId generateSessionId).
Abbreviation chatCompletions :=
    (Server.chatCompletions oauth generateProjectId generateSessionId generateRequestBody
       generateAssistantResponseNoStream generateAssistantResponse).
Abbreviation chatCompletions_try :=
    (Server.chatCompletions_try oauth generateProjectId generateSessionId generateRequestBody
       generateAssistantResponseNoStream generateAssistantResponse).
Abbreviation fakeStreaming := (Server.fakeStreaming generateAssistantResponseNoStream).
Abbreviation realStreaming :=
    (Server.realStreaming generateAssistantResponseNoStream generateAssistantResponse).
Abbreviation nonStreaming := (Server.nonStreaming generateAssistantResponseNoStream).
Abbreviation translatedBy := (translated generateRequestBody).



Lemma timer_idle n (c : Conn ToolCall) :
  interval c = None → timerFiresTimes n c = (c, Ok tt).
Proof.
  intros Hi. induction n as [|n IH]; [done|].
  cbn [timerFiresTimes]. unfold timerFires. srun. rewrite Hi. srun. exact IH.
Qed.

Lemma timer_beats n w hs st ws (hb : Chunk ToolCall) s :
  timerFiresTimes n (mkConn w (mkResponse hs st true false ws) (Some hb) s)
  = (mkConn w (mkResponse hs st true false (ws ++ replicate n (Event hb))) (Some hb) s, Ok tt).
Proof.
  revert ws. induction n as [|n IH]; intros ws.
  - cbn. by rewrite app_nil_r.
  - cbn [timerFiresTimes]. unfold timerFires. srun. rewrite IH.
    by rewrite <- app_assoc.
Qed.

Lemma handler_prepared req msgs w w1 token actual body :
  messages req = Some msgs →
  getTokenOp w = (w1, Ok (Some token)) →
  actualModel (model req) = Some actual →
  translatedBy req msgs actual = Ok body →
  chatCompletions req (start w) =
    try_catch
      (if isFakeStreaming (model req) && effectiveStream req msgs
       then fakeStreaming actual body token
       else if effectiveStream req msgs && negb (isFakeStreaming (model req))
            then realStreaming (model req) (JS.includes imageMarker actual) body token
            else if negb (effectiveStream req msgs)
                 then nonStreaming (model req) body token
                 else ret tt)
      (chatCompletions_catch req)
      (mkConn w1 fresh None (effectiveStream req msgs)).
Proof.
  intros Hm Hget Hact Htr.
  unfold Server.chatCompletions, Server.chatCompletions_try, translated, effectiveStream in *.
  srun. rewrite Hm. srun. rewrite Hget. srun. rewrite Hact. srun.
  destruct (generateRequestBody msgs actual (params req) (tools req)
              (apiKeyOf (authorization req))) as [b0|e0]; [|done].
  destruct (isSingleShortMessage msgs && bool_decide (stream req = None)); srun.
  - destruct (JS.includes imageMarker actual); rewrite ?Htr; srun;
      try injection Htr as <-; reflexivity.
  - destruct (JS.includes imageMarker actual); rewrite ?Htr; srun;
      try injection Htr as <-; reflexivity.
Qed.

Lemma fakeStreaming_run w1 s actual body token :
  let reply := generateAssistantResponseNoStream body token in
  let t := clock w1 in
  ∃ w2, fakeStreaming actual body token (mkConn w1 fresh None s)
    = (mkConn w2
         (mkResponse fakeStreamHeaders 200 true true
            ([roleChunk t (Some actual)]
             ++ replicate (beats (duration reply)) (heartbeatChunk t (Some actual))
             ++ fakeTail t (Some actual) (answer reply)))
         None s, Ok tt).
Proof.
  intros reply t. unfold Server.fakeStreaming, awaitNoStream, wait. srun.
  fold reply. rewrite timer_beats. cbn.
  destruct (answer reply) as [[content tcs]|e]; srun.
  - destruct tcs, content; srun;
      eexists; unfold fakeTail; cbn; repeat rewrite <- app_assoc; reflexivity.
  - eexists. repeat rewrite <- app_assoc. reflexivity.
Qed.

Lemma nonStreaming_run w1 s m body token :
  let reply := generateAssistantResponseNoStream body token in
  nonStreaming m body token (mkConn w1 fresh None s)
  = match answer reply with
    | Ok r =>
        let t := clock w1 + duration reply in
        (mkConn (advance_clock (duration reply) w1)
           (mkResponse [ContentTypeJson] 200 true true
              [Body (CompletionBody t (t / 1000) m (completionContent r)
                       (if (0 <? length (toolCalls r))%nat then Some (toolCalls r) else None)
                       (finishOf (0 <? length (toolCalls r))%nat))])
           None s, Ok tt)
    | Throw e => (mkConn (advance_clock (duration reply) w1) fresh None s, Throw e)
    end.
Proof.
  intros reply. unfold Server.nonStreaming, awaitNoStream, wait. srun. fold reply.
  rewrite timer_idle by done. cbn.
  destruct (answer reply) as [[content tcs]|e]; srun; [|reflexivity].
  destruct tcs; reflexivity.
Qed.

Lemma catch_unsent (req : Request Tools Params) e w1 hs st (ws : list (Written ToolCall)) i s :
  chatCompletions_catch req e (mkConn w1 (mkResponse hs st false false ws) i s)
  = (mkConn (add_log (Error, ResponseFailed) w1)
       (if s
        then mkResponse (putHeader ConnectionKeepAlive
                           (putHeader CacheControlNoCache
                              (putHeader ContentTypeEventStream hs)))
                        st true true
                        (ws ++ errorClosure (clock w1) (model req) (errorPrefixZh ++ message e))
        else mkResponse (putHeader ContentTypeJson hs) 500 true true
                        (ws ++ [Body (ErrorBody (message e))]))
       i s, Ok tt).
Proof.
  unfold chatCompletions_catch. srun. destruct s; srun.
  - by repeat rewrite <- app_assoc.
  - done.
Qed.

Lemma catch_sent (req : Request Tools Params) e (c : Conn ToolCall) :
  headersSent (res c) = true →
  chatCompletions_catch req e c
  = (mkConn (add_log (Error, ResponseFailed) (world c)) (res c) (interval c) (streamVar c), Ok tt).
Proof. intros Hs. unfold chatCompletions_catch. srun. by rewrite Hs. Qed.

Lemma deliver_run t m (fs : list (Fragment ToolCall)) : ∀ b w hs st sent ws i s,
  deliver t (t / 1000) m fs b (mkConn w (mkResponse hs st sent false ws) i s)
  = (mkConn w (mkResponse hs st (sent || negb (bool_decide (fs = []))) false
                 (ws ++ (fragmentChunk t m <$> fs))) i s,
     Ok (b || existsb isToolCallsFragment fs)).
Proof.
  induction fs as [|f fs IH]; intros b w hs st sent ws i s.
  - cbn. by rewrite app_nil_r, !orb_false_r.
  - destruct f as [str|tc]; cbn [deliver]; srun; rewrite IH; cbn;
      rewrite <- app_assoc, ?orb_true_r; reflexivity.
Qed.

Lemma realStreaming_run w1 s m body token :
  let reply := generateAssistantResponse body token in
  let t := clock w1 in
  realStreaming m false body token (mkConn w1 fresh None s)
  = match ending reply with
    | Ok _ =>
        (mkConn w1
           (mkResponse streamHeaders 200 true true
              ((fragmentChunk t m <$> fragments reply)
               ++ [finishChunk t m (finishOf (existsb isToolCallsFragment (fragments reply)));
                   Done]))
           None s, Ok tt)
    | Throw e =>
        (mkConn w1
           (mkResponse streamHeaders 200 (negb (bool_decide (fragments reply = []))) false
              (fragmentChunk t m <$> fragments reply))
           None s, Throw e)
    end.
Proof.
  intros reply t. unfold Server.realStreaming. srun. fold reply.
  change (putHeader _ (putHeader _ (putHeader _ []))) with streamHeaders.
  rewrite deliver_run. cbn.
  destruct (ending reply) as [[]|e]; srun; [|reflexivity].
  by rewrite <- app_assoc.
Qed.

Lemma imageStreaming_run w1 s m body token :
  let reply := generateAssistantResponseNoStream body token in
  let t := clock w1 in
  realStreaming m true body token (mkConn w1 fresh None s)
  = match answer reply with
    | Ok r =>
        (mkConn (advance_clock (duration reply) w1)
           (mkResponse streamHeaders 200 true true
              [contentChunk t m (completionContent r); finishChunk t m Stop; Done])
           None s, Ok tt)
    | Throw e =>
        (mkConn (advance_clock (duration reply) w1)
           (mkResponse streamHeaders 200 false false []) None s, Throw e)
    end.
Proof.
  intros reply t. unfold Server.realStreaming, awaitNoStream, wait. srun. fold reply.
  rewrite timer_idle by done. cbn.
  destruct (answer reply) as [r|e]; srun; reflexivity.
Qed.

Lemma handler_untranslated req msgs w w1 token actual e :
  messages req = Some msgs →
  getTokenOp w = (w1, Ok (Some token)) →
  actualModel (model req) = Some actual →
  translatedBy req msgs actual = Throw e →
  chatCompletions req (start w)
  = chatCompletions_catch req e (mkConn w1 fresh None (effectiveStream req msgs)).
Proof.
  intros Hm Hget Hact Htr.
  unfold Server.chatCompletions, Server.chatCompletions_try, translated, effectiveStream in *.
  srun. rewrite Hm. srun. rewrite Hget. srun. rewrite Hact. srun.
  destruct (generateRequestBody msgs actual (params req) (tools req)
              (apiKeyOf (authorization req))) as [b0|e0].
  - destruct (isSingleShortMessage msgs && bool_decide (stream req = None)); srun;
      destruct (JS.includes imageMarker actual); try done; rewrite Htr; srun; reflexivity.
  - injection Htr as ->.
    destruct (isSingleShortMessage msgs && bool_decide (stream req = None)); srun; reflexivity.
Qed.

Lemma beats_positive d : heartbeatPeriod < d → (1 ≤ beats d)%nat.
Proof.
  unfold beats, heartbeatPeriod. intros Hd.
  assert (1 ≤ d / 3000) by (apply Z.div_le_lower_bound; lia). lia.
Qed.

Lemma afterHeartbeats_replicate n t m (rest : list (Written ToolCall)) :
  afterHeartbeats (replicate n (heartbeatChunk t m) ++ rest) = afterHeartbeats rest.
Proof. induction n as [|n IH]; [done|]. cbn. exact IH. Qed.

(** ** The properties of the handler *)

(** C1, as amended.  An error raised by the upstream call is turned into a
    response in the framing of the request.  In fake streaming, where the
    headers are flushed before the call, the error is written as a content
    chunk after the role chunk and the heartbeats, followed by the finish
    chunk and the terminator, and the stream is ended.  On a real stream
    on which nothing was written when the error came, the headers not
    being sent yet, the error is written in the same way, as a stream,
    and the stream is ended.  Without streaming the response is the
    status 500 with a JSON error body. *)
Theorem dispatch_error_response req msgs w w1 token actual body e :
  messages req = Some msgs →
  getTokenOp w = (w1, Ok (Some token)) →
  actualModel (model req) = Some actual →
  translatedBy req msgs actual = Ok body →
  let c := exec (chatCompletions req) (start w) in
  let blocking := generateAssistantResponseNoStream body token in
  let streaming := generateAssistantResponse body token in
  (isFakeStreaming (model req) = true → effectiveStream req msgs = true →
   answer blocking = Throw e →
   res c = mkResponse fakeStreamHeaders 200 true true
             ([roleChunk (clock w1) (Some actual)]
              ++ replicate (beats (duration blocking)) (heartbeatChunk (clock w1) (Some actual))
              ++ errorClosure (clock w1) (Some actual) (errorPrefixEn ++ message e))
   ∧ interval c = None)
  ∧ (isFakeStreaming (model req) = false → effectiveStream req msgs = true →
     (if JS.includes imageMarker actual then answer blocking = Throw e
      else streaming = mkStream [] (Throw e)) →
     res c = mkResponse streamHeaders 200 true true
               (errorClosure (clock (world c)) (model req) (errorPrefixZh ++ message e)))
  ∧ (effectiveStream req msgs = false → answer blocking = Throw e →
     res c = mkResponse [ContentTypeJson] 500 true true [Body (ErrorBody (message e))]).
Proof.
  intros Hm Hget Hact Htr c blocking streaming.
  unfold c, exec. rewrite (handler_prepared _ _ _ _ _ _ _ Hm Hget Hact Htr).
  split; [|split].
  - intros Hfake Hs Hans. rewrite Hfake, Hs. cbn [andb]. unfold try_catch.
    destruct (fakeStreaming_run w1 true actual body token) as (w2 & ->). cbn.
    fold blocking. by rewrite Hans.
  - intros Hfake Hs Hfail. rewrite Hfake, Hs. cbn [andb negb]. unfold try_catch.
    destruct (JS.includes imageMarker actual).
    + rewrite imageStreaming_run. fold blocking. rewrite Hfail.
      rewrite catch_unsent. reflexivity.
    + rewrite realStreaming_run. fold streaming. rewrite Hfail. cbn [ending fragments].
      rewrite bool_decide_eq_true_2 by done. cbn [negb fmap list_fmap].
      rewrite catch_unsent. reflexivity.
  - intros Hs Hans. rewrite Hs, andb_false_r. cbn [andb negb]. unfold try_catch.
    rewrite nonStreaming_run. fold blocking. rewrite Hans.
    unfold fresh. rewrite catch_unsent. reflexivity.
Qed.

(** C2, as amended.  A request for which the pool gives no credential is
    answered with the "no credentials" error before anything else is
    written, in the framing of its [stream] field: with the status 500 and
    a JSON error body when the field is [false]; as an event stream of the
    status 200 whose content chunk carries the error, followed by the
    finish chunk and the terminator, when the field is [true] or absent. *)
Theorem no_credential_response req msgs w w1 :
  messages req = Some msgs →
  getTokenOp w = (w1, Ok None) →
  let c := exec (chatCompletions req) (start w) in
  res c =
    if default true (stream req)
    then mkResponse streamHeaders 200 true true
           (errorClosure (clock w1) (model req) (errorPrefixZh ++ noTokenMessage))
    else mkResponse [ContentTypeJson] 500 true true [Body (ErrorBody noTokenMessage)].
Proof.
  intros Hm Hget c. unfold c, Server.chatCompletions, Server.chatCompletions_try.
  srun. rewrite Hm. srun. rewrite Hget. srun.
  unfold chatCompletions_catch. srun.
  destruct (default true (stream req)); srun; reflexivity.
Qed.

(** C6, as amended.  In fake streaming, when the blocking call answers,
    the handler has written the role chunk, one heartbeat for every full
    period of 3 s that the call took (at least one when it took longer than
    a period), then a tool-calls chunk if there are tool calls, a content
    chunk if the content is not empty, the finish chunk ([tool_calls] if
    there are tool calls, else [stop]) and the terminator; the stream is
    ended and the timer writes nothing afterwards.  With a content that is
    not empty this is the documented sequence. *)
Theorem fake_stream_sequence req msgs w w1 token actual body r :
  messages req = Some msgs →
  getTokenOp w = (w1, Ok (Some token)) →
  actualModel (model req) = Some actual →
  translatedBy req msgs actual = Ok body →
  isFakeStreaming (model req) = true →
  effectiveStream req msgs = true →
  answer (generateAssistantResponseNoStream body token) = Ok r →
  let d := duration (generateAssistantResponseNoStream body token) in
  let t := clock w1 in
  let c := exec (chatCompletions req) (start w) in
  written (res c) =
    [roleChunk t (Some actual)]
    ++ replicate (beats d) (heartbeatChunk t (Some actual))
    ++ (if (0 <? length (toolCalls r))%nat
        then [toolCallsChunk t (Some actual) (toolCalls r)] else [])
    ++ (if JS.truthy (completionContent r)
        then [contentChunk t (Some actual) (completionContent r)] else [])
    ++ [finishChunk t (Some actual) (finishOf (0 <? length (toolCalls r))%nat); Done]
  ∧ writableEnded (res c) = true
  ∧ (heartbeatPeriod < d → (1 ≤ beats d)%nat)
  ∧ (∀ k, res (exec (afterwards k) c) = res c)
  ∧ (heartbeatPeriod < d → JS.truthy (completionContent r) = true →
     documented_fake_sequence (written (res c)) = true).
Proof.
  intros Hm Hget Hact Htr Hfake Hs Hans d t c.
  assert (Hc : ∃ w2, c = mkConn w2
             (mkResponse fakeStreamHeaders 200 true true
                ([roleChunk t (Some actual)]
                 ++ replicate (beats d) (heartbeatChunk t (Some actual))
                 ++ fakeTail t (Some actual) (Ok r))) None true).
  { unfold c, exec. rewrite (handler_prepared _ _ _ _ _ _ _ Hm Hget Hact Htr).
    rewrite Hfake, Hs. cbn [andb]. unfold try_catch.
    destruct (fakeStreaming_run w1 true actual body token) as (w2 & ->). cbn.
    rewrite Hans. by exists w2. }
  destruct Hc as (w2 & Hc). rewrite Hc. cbn [res written writableEnded].
  split; [reflexivity|]. split; [reflexivity|]. split; [apply beats_positive|].
  split.
  - intros k. unfold exec, afterwards. by rewrite timer_idle.
  - intros Hd Htruthy. pose proof (beats_positive d Hd) as Hb.
    destruct (beats d) as [|n]; [lia|].
    unfold documented_fake_sequence, fakeTail. cbn. rewrite afterHeartbeats_replicate.
    rewrite Htruthy.
    destruct r as [content tcs]. cbn in *.
    destruct content as [|ch content]; [done|]. by destruct tcs.
Qed.

(** C9, as amended.  A request of exactly one message whose content is a
    string of 1 to 19 code units, without a [stream] field, that names a
    model and for which a credential was obtained, is answered with one
    JSON body and no stream: the completion when the upstream call
    answers, the status 500 and the error when the translation or the
    upstream call fails. *)
Theorem short_message_is_not_streamed req m s w w1 token actual :
  messages req = Some [m] →
  content m = Text s →
  s ≠ [] →
  (length s < 20)%nat →
  stream req = None →
  getTokenOp w = (w1, Ok (Some token)) →
  actualModel (model req) = Some actual →
  let c := exec (chatCompletions req) (start w) in
  single_json (res c) ∧ ¬ event_stream (res c)
  ∧ match translatedBy req [m] actual with
    | Throw e =>
        status (res c) = 500 ∧ written (res c) = [Body (ErrorBody (message e))]
    | Ok body =>
        let reply := generateAssistantResponseNoStream body token in
        match answer reply with
        | Throw e =>
            status (res c) = 500 ∧ written (res c) = [Body (ErrorBody (message e))]
        | Ok r =>
            let t := clock w1 + duration reply in
            status (res c) = 200
            ∧ written (res c) =
                [Body (CompletionBody t (t / 1000) (model req) (completionContent r)
                         (if (0 <? length (toolCalls r))%nat then Some (toolCalls r) else None)
                         (finishOf (0 <? length (toolCalls r))%nat))]
        end
    end.
Proof.
  intros Hm Hcontent Hs Hlen Hstream Hget Hact c.
  assert (Heff : effectiveStream req [m] = false).
  { unfold effectiveStream, isSingleShortMessage. rewrite Hcontent, Hstream.
    destruct s as [|ch s]; [done|]. cbn [JS.truthy andb].
    apply Nat.ltb_lt in Hlen. rewrite Hlen. done. }
  assert (Hjson : ∀ r : Response ToolCall,
            (∃ st j, r = mkResponse [ContentTypeJson] st true true [Body j]) →
            single_json r ∧ ¬ event_stream r).
  { intros r (st & j & ->). split; [by exists j|].
    unfold event_stream. cbn. intros Hin. apply list_elem_of_singleton in Hin. done. }
  assert (Hfin : ∀ (r : Response ToolCall) (P : Prop),
            (∃ st j, r = mkResponse [ContentTypeJson] st true true [Body j]) → P →
            single_json r ∧ ¬ event_stream r ∧ P).
  { intros r P Hr HP. destruct (Hjson r Hr). auto. }
  unfold c, exec.
  destruct (translatedBy req [m] actual) as [body|e] eqn:Htr.
  - rewrite (handler_prepared _ _ _ _ _ _ _ Hm Hget Hact Htr).
    rewrite Heff, andb_false_r. cbn [andb negb]. unfold try_catch.
    rewrite nonStreaming_run.
    destruct (answer (generateAssistantResponseNoStream body token)) as [r|e].
    + cbn. apply Hfin; eauto.
    + unfold fresh. rewrite catch_unsent. cbn. apply Hfin; eauto.
  - rewrite (handler_untranslated _ _ _ _ _ _ _ Hm Hget Hact Htr).
    rewrite Heff. unfold fresh. rewrite catch_unsent. cbn. apply Hfin; eauto.
Qed.
End HandlerFacts.

(** *** The same, on the sample data *)

Section HandlerSamples.
Import Server ServerSample.

Lemma dispatch_error_response_witness :
  let b := blocking 7000 (Throw overloaded) in
  let s := streaming [] (Throw overloaded) in
  res (handle b s (request [long] fakeModel None) world)
  = mkResponse fakeStreamHeaders 200 true true
      ([roleChunk 1001000 (Some plainModel)]
       ++ replicate 2 (heartbeatChunk 1001000 (Some plainModel))
       ++ errorClosure 1001000 (Some plainModel) (errorPrefixEn ++ message overloaded))
  ∧ res (handle b s (request [long] plainModel None) world)
    = mkResponse streamHeaders 200 true true
        (errorClosure 1001000 (Some plainModel) (errorPrefixZh ++ message overloaded))
  ∧ res (handle b s (request [long] plainModel (Some false)) world)
    = mkResponse [ContentTypeJson] 500 true true [Body (ErrorBody (message overloaded))].
Proof.
  intros b s.
  pose proof (λ req, dispatch_error_response (Sample.answers 403) Sample.ids Sample.ids
                       translate b s req [long] world
                       (exec (TM.getToken (Sample.answers 403) Sample.ids Sample.ids) world)
                       (Sample.pooled Sample.credA)) as T.
  pose (body := mkBody (Config := unit) (Translated tt) (Some [[1%N]]) (@None unit) None None tt).
  split; [|split].
  - exact (proj1 (proj1 (T (request [long] fakeModel None) plainModel body overloaded
                           eq_refl eq_refl eq_refl eq_refl) eq_refl eq_refl eq_refl)).
  - exact (proj1 (proj2 (T (request [long] plainModel None) plainModel body overloaded
                           eq_refl eq_refl eq_refl eq_refl)) eq_refl eq_refl eq_refl).
  - exact (proj2 (proj2 (T (request [long] plainModel (Some false)) plainModel body overloaded
                           eq_refl eq_refl eq_refl eq_refl)) eq_refl eq_refl).
Defined.

(** C1, as stated, fails: the streaming call of a request for a stream
    raises its error before any fragment, so that nothing has been sent
    when the error is caught, and the response is an event stream of the
    status 200, not a structured error body. *)
Lemma stream_error_before_first_chunk :
  let b := blocking 7000 (Throw overloaded) in
  let s := streaming [] (Throw overloaded) in
  let req := request [long] plainModel None in
  let thrown := Server.chatCompletions_try (Sample.answers 403) Sample.ids Sample.ids
                  translate b s req (start world) in
  thrown.2 = Throw overloaded
  ∧ headersSent (res thrown.1) = false
  ∧ written (res thrown.1) = []
  ∧ status (res (handle b s req world)) = 200
  ∧ event_stream (res (handle b s req world))
  ∧ ¬ single_json (res (handle b s req world)).
Proof.
  repeat split; try reflexivity.
  - unfold event_stream. vm_compute. apply list_elem_of_here.
  - intros (j & Hw & _). vm_compute in Hw. discriminate.
Qed.

(** The case that the amended C1 leaves out: the streaming call raises its
    error after a fragment was written.  The error is logged and nothing
    more is written: no error chunk, no finish chunk, no terminator, and
    the response is not ended. *)
Lemma stream_error_after_first_chunk :
  let b := blocking 7000 (Throw overloaded) in
  let s := streaming [ContentFragment [72; 105]%N] (Throw overloaded) in
  let c := handle b s (request [long] plainModel None) world in
  written (res c) = [contentChunk 1001000 (Some plainModel) [72; 105]%N]
  ∧ headersSent (res c) = true
  ∧ writableEnded (res c) = false.
Proof. repeat split; reflexivity. Qed.

Lemma no_credential_response_witness :
  res (handle (blocking 0 (Throw overloaded)) (streaming [] (Ok tt))
              (request [long] plainModel (Some false)) Sample.empty_world)
  = mkResponse [ContentTypeJson] 500 true true [Body (ErrorBody noTokenMessage)].
Proof.
  exact (no_credential_response (Sample.answers 403) Sample.ids Sample.ids translate
           (blocking 0 (Throw overloaded)) (streaming [] (Ok tt))
           (request [long] plainModel (Some false)) [long] Sample.empty_world
           (exec (TM.getToken (Sample.answers 403) Sample.ids Sample.ids) Sample.empty_world)
           eq_refl eq_refl).
Defined.

(** C2, as stated, fails: without a credential, a request that does not
    set [stream] to [false] is answered with the status 200 and an event
    stream, not with a status of the 5xx class. *)
Lemma no_credential_is_streamed :
  let c := handle (blocking 0 (Throw overloaded)) (streaming [] (Ok tt))
                  (request [long] plainModel None) Sample.empty_world in
  (TM.getToken (Sample.answers 403) Sample.ids Sample.ids Sample.empty_world).2 = Ok None
  ∧ status (res c) = 200
  ∧ event_stream (res c)
  ∧ written (res c)
    = errorClosure 1001000 (Some plainModel) (errorPrefixZh ++ noTokenMessage).
Proof.
  repeat split; try reflexivity.
  unfold event_stream. vm_compute. apply list_elem_of_here.
Qed.

Lemma fake_stream_sequence_witness :
  let b := blocking 7000 (Ok (mkCompletion [79; 75]%N [])) in
  let c := handle b (streaming [] (Ok tt)) (request [long] fakeModel None) world in
  written (res c)
  = [roleChunk 1001000 (Some plainModel); heartbeatChunk 1001000 (Some plainModel);
     heartbeatChunk 1001000 (Some plainModel);
     contentChunk 1001000 (Some plainModel) [79; 75]%N;
     finishChunk 1001000 (Some plainModel) Stop; Done]
  ∧ documented_fake_sequence (written (res c)) = true.
Proof.
  intros b c.
  pose proof (fake_stream_sequence (Sample.answers 403) Sample.ids Sample.ids translate
              b (streaming [] (Ok tt)) (request [long] fakeModel None) [long] world
              (exec (TM.getToken (Sample.answers 403) Sample.ids Sample.ids) world)
              (Sample.pooled Sample.credA) plainModel
              (mkBody (Translated tt) (Some [[1%N]]) None None None tt)
              (mkCompletion [79; 75]%N [])
              eq_refl eq_refl eq_refl eq_refl eq_refl eq_refl eq_refl)
    as (Hw & _ & _ & _ & Hdoc).
  split; [exact Hw|]. apply Hdoc; reflexivity.
Defined.

(** C6, as stated, fails: when the answer has a tool call and an empty
    content, no content chunk is written; the finish chunk follows the
    tool-calls chunk. *)
Lemma fake_stream_without_content_chunk :
  let b := blocking 4000 (Ok (mkCompletion [] [7%nat])) in
  let c := handle b (streaming [] (Ok tt)) (request [long] fakeModel None) world in
  written (res c)
  = [roleChunk 1001000 (Some plainModel); heartbeatChunk 1001000 (Some plainModel);
     toolCallsChunk 1001000 (Some plainModel) [7%nat];
     finishChunk 1001000 (Some plainModel) ToolCalls; Done]
  ∧ documented_fake_sequence (written (res c)) = false.
Proof. split; reflexivity. Qed.

Lemma short_message_is_not_streamed_witness :
  let req := Server.mkRequest (Some [hi]) (Some plainModel) None None tt None in
  let c := handle (blocking 300 (Ok (mkCompletion [79; 75]%N []))) (streaming [] (Ok tt))
                  req world in
  single_json (res c) ∧ ¬ event_stream (res c).
Proof.
  intros req c.
  assert (Hs : [104; 105]%N ≠ []) by discriminate.
  assert (Hlen : (length [104; 105]%N < 20)%nat) by (vm_compute; lia).
  pose proof (short_message_is_not_streamed (Sample.answers 403) Sample.ids Sample.ids translate
              (blocking 300 (Ok (mkCompletion [79; 75]%N []))) (streaming [] (Ok tt))
              req hi [104; 105]%N world
              (exec (TM.getToken (Sample.answers 403) Sample.ids Sample.ids) world)
              (Sample.pooled Sample.credA) plainModel
              eq_refl eq_refl Hs Hlen eq_refl eq_refl eq_refl)
    as (Hj & He & _).
  split; [exact Hj|exact He].
Defined.

(** C9, as stated, fails: a single message whose text is empty, in a
    request without a [stream] field, is answered with an event stream. *)
Lemma blank_message_is_streamed :
  let req := request [blank] plainModel None in
  let c := handle (blocking 300 (Ok (mkCompletion [79; 75]%N [])))
                  (streaming [ContentFragment [79; 75]%N] (Ok tt)) req world in
  messages req = Some [blank]
  ∧ content blank = Text []
  ∧ stream req = None
  ∧ event_stream (res c)
  ∧ written (res c)
    = [contentChunk 1001000 (Some plainModel) [79; 75]%N;
       finishChunk 1001000 (Some plainModel) Stop; Done]
  ∧ ¬ single_json (res c).
Proof.
  repeat split; try reflexivity.
  - unfold event_stream. vm_compute. apply list_elem_of_here.
  - intros (j & Hw & _). vm_compute in Hw. discriminate.
Qed.

End HandlerSamples.

(** * Further properties of the token manager *)

Section TokenManagerMore.
Variable oauth : nat → jsstring → OAuthReply.
Variable generateProjectId : nat → jsstring.
Variable generateSessionId : nat → jsstring.
Abbreviation getToken := (TM.getToken oauth generateProjectId generateSessionId).
Abbreviation initialize := (TM.initialize generateProjectId generateSessionId).
Abbreviation loadTokens := (TM.loadTokens generateProjectId generateSessionId).
Abbreviation refreshToken := (TM.refreshToken oauth).
Abbreviation getToken_turn := (TM.getToken_turn oauth).
Abbreviation getToken_loop := (TM.getToken_loop oauth).
Abbreviation handleRequestError :=
  (TM.handleRequestError oauth generateProjectId generateSessionId).

Lemma getToken_valid_exact w tok :
  clock w - lastLoadTime (mgr w) < loadInterval →
  tokens (mgr w) !! currentIndex (mgr w) = Some tok →
  TM.isExpired (clock w) tok = false →
  getToken w = (exec (TM.recordUsage tok) (exec TM.advance w), Ok (Some tok)).
Proof.
  intros Hfresh Hl Hv.
  rewrite (getToken_first_turn oauth generateProjectId generateSessionId w tok) by done.
  by rewrite turn_exact, Hl, Hv.
Qed.

(** A granted refresh, step by step. *)
Lemma refreshToken_granted idx tok w status text grant :
  outcome (oauth (fetches w) (refresh_token tok)) = HttpResponse status text (Some grant) →
  response_ok status = true →
  let w0 := advance_clock (Z.of_nat (latency (oauth (fetches w) (refresh_token tok))))
              (count_fetch (add_log (Info, RefreshStart) w)) in
  let tok' := set_grant (grant_access_token grant) (grant_expires_in grant) (clock w0) tok in
  refreshToken idx tok w
  = (exec TM.saveToFile (with_mgr (λ m, set_tokens (<[idx := tok']> (tokens m)) m) w0),
     Ok tok').
Proof.
  intros Hout Hok w0 tok'.
  unfold TM.refreshToken, TM.fetchToken. run. rewrite Hout. run. rewrite Hok. run.
  match goal with |- context [TM.saveToFile ?x] =>
    destruct (saveToFile_frame x) as (w1 & Hs & _) end.
  unfold exec. cbn in Hs. unfold w0, tok'. cbn. by rewrite Hs.
Qed.

Lemma getToken_refreshed_exact w tok status text grant :
  clock w - lastLoadTime (mgr w) < loadInterval →
  tokens (mgr w) !! currentIndex (mgr w) = Some tok →
  TM.isExpired (clock w) tok = true →
  outcome (oauth (fetches w) (refresh_token tok)) = HttpResponse status text (Some grant) →
  response_ok status = true →
  let w0 := advance_clock (Z.of_nat (latency (oauth (fetches w) (refresh_token tok))))
              (count_fetch (add_log (Info, RefreshStart) w)) in
  let tok' := set_grant (grant_access_token grant) (grant_expires_in grant) (clock w0) tok in
  getToken w
  = (exec (TM.recordUsage tok')
       (exec TM.advance
          (exec TM.saveToFile
             (with_mgr (λ m, set_tokens (<[currentIndex (mgr w) := tok']> (tokens m)) m) w0))),
     Ok (Some tok')).
Proof.
  intros Hfresh Hl Hexp Hout Hok w0 tok'.
  rewrite (getToken_first_turn oauth generateProjectId generateSessionId w tok) by done.
  rewrite turn_exact, Hl, Hexp.
  by rewrite (refreshToken_granted _ _ _ status text grant).
Qed.

(** X1.  A valid credential under the cursor of a fresh pool is returned
    without any input or output: the file system is not touched, no OAuth
    exchange is made, nothing is logged and the clock, the pool and the
    cache stay as they are.  Only the cursor moves on and the usage record
    of the credential counts one more request. *)
Theorem valid_credential_needs_no_io w tok :
  clock w - lastLoadTime (mgr w) < loadInterval →
  tokens (mgr w) !! currentIndex (mgr w) = Some tok →
  TM.isExpired (clock w) tok = false →
  ∃ w', getToken w = (w', Ok (Some tok))
    ∧ disk w' = disk w ∧ fetches w' = fetches w ∧ logs w' = logs w
    ∧ clock w' = clock w ∧ draws w' = draws w
    ∧ tokens (mgr w') = tokens (mgr w) ∧ cachedData (mgr w') = cachedData (mgr w)
    ∧ lastLoadTime (mgr w') = lastLoadTime (mgr w)
    ∧ currentIndex (mgr w') = ((currentIndex (mgr w) + 1) mod length (tokens (mgr w)))%nat
    ∧ requestsOf (refresh_token tok) (mgr w') = S (requestsOf (refresh_token tok) (mgr w))
    ∧ (∀ rt, rt ≠ refresh_token tok → requestsOf rt (mgr w') = requestsOf rt (mgr w)).
Proof.
  intros Hfresh Hl Hv. rewrite (getToken_valid_exact w tok) by done.
  eexists. split; [reflexivity|]. unfold TM.recordUsage, TM.advance, requestsOf. run.
  repeat split; try done.
  - rewrite lookup_insert_eq. cbn. by destruct (usageStats (mgr w) !! refresh_token tok).
  - intros rt Hrt. by rewrite lookup_insert_ne.
Qed.

(** X2.  An expired credential under the cursor of a fresh pool whose
    refresh is granted is returned with the new access token and time to
    live and with the time of the grant as its timestamp; it is stored in
    the pool in the place of the old one, the cursor moves on, one
    exchange was made, and on a writable store the file then holds the
    stored collection merged with the pool. *)
Theorem refreshed_credential_is_returned w tok status text grant :
  clock w - lastLoadTime (mgr w) < loadInterval →
  tokens (mgr w) !! currentIndex (mgr w) = Some tok →
  TM.isExpired (clock w) tok = true →
  outcome (oauth (fetches w) (refresh_token tok)) = HttpResponse status text (Some grant) →
  response_ok status = true →
  let granted := clock w + Z.of_nat (latency (oauth (fetches w) (refresh_token tok))) in
  let tok' := set_grant (grant_access_token grant) (grant_expires_in grant) granted tok in
  ∃ w', getToken w = (w', Ok (Some tok'))
    ∧ tokens (mgr w') = <[currentIndex (mgr w) := tok']> (tokens (mgr w))
    ∧ currentIndex (mgr w') = ((currentIndex (mgr w) + 1) mod length (tokens (mgr w)))%nat
    ∧ fetches w' = S (fetches w)
    ∧ clock w' = granted
    ∧ (∀ cache, writable (disk w) = true → cachedData (mgr w) = Some cache →
         file (disk w') = Some (TM.mergeTokens (tokens (mgr w')) cache)).
Proof.
  intros Hfresh Hl Hexp Hout Hok granted tok'.
  rewrite (getToken_refreshed_exact w tok status text grant) by done.
  cbn zeta. change (clock (advance_clock _ _)) with granted. fold tok'.
  unfold exec.
  match goal with |- context [TM.saveToFile ?x] =>
    pose proof (saveToFile_writable x) as Hsavew;
    destruct (saveToFile_frame x) as (w1 & Hs & Ht & Hc & Hll & Hk & Hf) end.
  rewrite Hs in *. cbn in Ht, Hc, Hll, Hk, Hf.
  unfold TM.recordUsage, TM.advance. run.
  eexists. split; [reflexivity|]. cbn.
  rewrite Ht, Hc, Hk, Hf, length_insert. repeat split; try done.
  intros cache Hw Hcache. specialize (Hsavew cache Hw Hcache).
  injection Hsavew as ->. reflexivity.
Qed.

(** *** What the operations leave alone *)

Lemma saveToFile_usage w : usageStats (mgr (exec TM.saveToFile w)) = usageStats (mgr w).
Proof.
  unfold exec, TM.saveToFile, TM.writeFile, TM.readFile. run.
  destruct (cachedData (mgr w)); run.
  - by destruct (writable (disk w)).
  - destruct (file (disk w)); run; [|done]. by destruct (writable (disk w)).
Qed.

Lemma refreshToken_usage idx tok w :
  usageStats (mgr (exec (refreshToken idx tok) w)) = usageStats (mgr w).
Proof.
  unfold exec, TM.refreshToken, TM.fetchToken. run.
  destruct (outcome (oauth (fetches w) (refresh_token tok))) as [msg|s text [g|]]; run;
    try destruct (response_ok s); run; try done.
  match goal with |- context [TM.saveToFile ?x] =>
    pose proof (saveToFile_usage x) as Hs; unfold exec in Hs;
    destruct (TM.saveToFile x) as [w1 [[]|e]] end; cbn in *; done.
Qed.

Lemma disableToken_usage idx tok w :
  usageStats (mgr (exec (TM.disableToken idx tok) w)) = usageStats (mgr w).
Proof.
  unfold exec, TM.disableToken. destruct (access_token tok) as [a|]; [|done]. run.
  match goal with |- context [TM.saveToFile ?x] =>
    pose proof (saveToFile_usage x) as Hs; unfold exec in Hs;
    destruct (TM.saveToFile x) as [w1 [[]|e]] end; cbn in *; done.
Qed.

Lemma initialize_usage w : usageStats (mgr (exec initialize w)) = usageStats (mgr w).
Proof.
  unfold exec, TM.initialize, TM.readFile, TM.writeFile. run.
  destruct (file (disk w)) as [data|]; run; [|done].
  destruct (TM.assignProjectIds generateProjectId (draws w) data) as [[arr needSave] n1]. run.
  destruct (TM.assignSessionIds generateSessionId n1 (List.filter enabled arr)) as [pool n2].
  destruct needSave; run; [destruct (writable (disk w)); run|]; done.
Qed.

Lemma loadTokens_usage w : usageStats (mgr (exec loadTokens w)) = usageStats (mgr w).
Proof.
  unfold exec. destruct (loadTokens_cases generateProjectId generateSessionId w)
    as [(-> & _)|(-> & _)]; [done|]. apply initialize_usage.
Qed.

Lemma refreshToken_fetches idx tok w :
  fetches (exec (refreshToken idx tok) w) = S (fetches w).
Proof.
  unfold exec. destruct (refreshToken_cases oauth idx tok w)
    as [(w1 & e & -> & H)|(w1 & tok' & -> & H)]; cbn; tauto.
Qed.

Lemma disableToken_fetches idx tok w :
  fetches (exec (TM.disableToken idx tok) w) = fetches w.
Proof.
  unfold exec. destruct (access_token tok) as [a|] eqn:Hacc.
  - destruct (disableToken_spec idx tok w) as (w' & -> & H); [by rewrite Hacc|]. cbn. tauto.
  - by rewrite disableToken_throws.
Qed.

Lemma disableToken_tokens idx tok w :
  tokens (mgr (exec (TM.disableToken idx tok) w))
  = match access_token tok with
    | Some _ => List.filter (other (refresh_token tok))
                            (<[idx := set_enable false tok]> (tokens (mgr w)))
    | None => tokens (mgr w)
    end.
Proof.
  unfold exec. destruct (access_token tok) as [a|] eqn:Hacc.
  - destruct (disableToken_spec idx tok w) as (w' & -> & H); [by rewrite Hacc|]. cbn. tauto.
  - by rewrite disableToken_throws.
Qed.

(** *** The number of exchanges *)

Lemma turn_fetches w : (fetches (exec getToken_turn w) ≤ S (fetches w))%nat.
Proof.
  unfold exec. rewrite turn_exact.
  destruct (tokens (mgr w) !! currentIndex (mgr w)) as [tok|]; [|cbn; lia].
  destruct (TM.isExpired (clock w) tok); [|unfold TM.recordUsage; run; lia].
  pose proof (refreshToken_fetches (currentIndex (mgr w)) tok w) as Hf. unfold exec in Hf.
  destruct (refreshToken (currentIndex (mgr w)) tok w) as [w1 [tok'|e]]; cbn in Hf.
  - unfold TM.recordUsage. run. lia.
  - destruct (TM.rejected e); cbn; [|lia].
    match goal with |- context [TM.disableToken ?i ?t ?x] =>
      pose proof (disableToken_fetches i t x) as Hd; unfold exec in Hd;
      destruct (TM.disableToken i t x) as [w2 [[]|e2]] end; cbn in *; lia.
Qed.

Lemma loop_fetches n w : (fetches (exec (getToken_loop n) w) ≤ fetches w + n)%nat.
Proof.
  revert w. induction n as [|n IH]; intros w; [cbn; lia|].
  unfold exec in *. rewrite loop_unfold.
  pose proof (turn_fetches w) as Ht. unfold exec in Ht.
  destruct (getToken_turn w) as [w1 [[v|]|e]]; cbn in *; try lia.
  specialize (IH w1). lia.
Qed.

(** X3.  One call of [getToken()] makes at most as many refresh exchanges
    as the pool has entries once its load step has run; on an empty pool
    it makes none. *)
Theorem getToken_fetch_bound w :
  (fetches (exec getToken w)
   ≤ fetches w + length (tokens (mgr (exec loadTokens w))))%nat.
Proof.
  unfold exec at 1. rewrite getToken_unfold. cbv zeta.
  destruct (loadTokens_total generateProjectId generateSessionId w) as (w1 & Hl & _ & Hf).
  unfold exec. rewrite Hl. cbn.
  destruct (length (tokens (mgr w1)) =? 0)%nat; cbn; [lia|].
  pose proof (loop_fetches (length (tokens (mgr w1))) w1) as H. unfold exec in H. lia.
Qed.

(** *** No disabled credential in the pool *)

Lemma enabled_filter_insert rt (l : list Token) i y :
  Forall (λ t, enabled t = true) l → other rt y = false →
  Forall (λ t, enabled t = true) (List.filter (other rt) (<[i := y]> l)).
Proof.
  intros Hl Hy. revert i. induction Hl as [|a l Ha Hl IH]; intros i; [constructor|].
  destruct i as [|i]; cbn.
  - rewrite Hy. by apply Forall_filter_list.
  - destruct (other rt a); [constructor; [done|]|]; apply IH.
Qed.

Lemma disableToken_enabled idx tok w :
  pool_enabled (mgr w) → pool_enabled (mgr (exec (TM.disableToken idx tok) w)).
Proof.
  intros H. unfold pool_enabled. rewrite disableToken_tokens.
  destruct (access_token tok); [|done].
  apply enabled_filter_insert; [done|]. apply (other_self (set_enable false tok)).
Qed.

Lemma refreshToken_enabled idx tok w :
  pool_enabled (mgr w) → enabled tok = true →
  pool_enabled (mgr (exec (refreshToken idx tok) w)).
Proof.
  intros H Htok. unfold exec, pool_enabled in *.
  destruct (refreshToken_cases oauth idx tok w)
    as [(w1 & e & -> & _ & Hm & _)|(w1 & tok' & Hr & Hs & _ & Ht & _)]; cbn.
  - by rewrite Hm.
  - rewrite Hr. cbn. rewrite Ht.
    assert (Htok' : enabled tok' = true).
    { unfold refresh_succeeds in Hs.
      destruct (outcome (oauth (fetches w) (refresh_token tok))) as [|s text [g|]] eqn:Hout;
        try done.
      rewrite (refreshToken_granted idx tok w s text g Hout Hs) in Hr.
      by injection Hr as _ <-. }
    apply Forall_lookup. intros j t Hj.
    destruct (decide (j = idx)) as [->|Hne].
    + destruct (decide (idx < length (tokens (mgr w)))%nat).
      * rewrite list_lookup_insert_eq in Hj by done. by injection Hj as <-.
      * rewrite list_insert_ge in Hj by lia. rewrite Forall_lookup in H. by eapply H.
    + rewrite list_lookup_insert_ne in Hj by done. rewrite Forall_lookup in H. by eapply H.
Qed.

Lemma assignSessionIds_enabled n (l : list Token) :
  Forall (λ t, enabled t = true) l →
  Forall (λ t, enabled t = true) (TM.assignSessionIds generateSessionId n l).1.
Proof.
  intros Hl. revert n. induction Hl as [|t l Ht _ IH]; intros n; cbn; [constructor|].
  specialize (IH (S n)). destruct (TM.assignSessionIds generateSessionId (S n) l) as [r n'].
  cbn in *. by constructor.
Qed.

Lemma filter_enabled_all (l : list Token) : Forall (λ t, enabled t = true) (List.filter enabled l).
Proof.
  induction l as [|t l IH]; cbn; [constructor|].
  destruct (enabled t) eqn:He; [by constructor|done].
Qed.

Lemma initialize_enabled w : pool_enabled (mgr (exec initialize w)).
Proof.
  unfold pool_enabled, exec, TM.initialize, TM.readFile, TM.writeFile. run.
  destruct (file (disk w)) as [data|]; run; [|constructor].
  destruct (TM.assignProjectIds generateProjectId (draws w) data) as [[arr needSave] n1]. run.
  pose proof (assignSessionIds_enabled n1 _ (filter_enabled_all arr)) as Hpool.
  destruct (TM.assignSessionIds generateSessionId n1 (List.filter enabled arr)) as [pool n2].
  cbn in Hpool.
  destruct needSave; run; [destruct (writable (disk w)); run|]; first [done|constructor].
Qed.

Lemma loadTokens_enabled w :
  pool_enabled (mgr w) → pool_enabled (mgr (exec loadTokens w)).
Proof.
  intros H. unfold exec. destruct (loadTokens_cases generateProjectId generateSessionId w)
    as [(-> & _)|(-> & _)]; [done|]. apply initialize_enabled.
Qed.

Lemma turn_enabled w :
  pool_enabled (mgr w) → pool_enabled (mgr (exec getToken_turn w)).
Proof.
  intros H. unfold exec. rewrite turn_exact.
  destruct (tokens (mgr w) !! currentIndex (mgr w)) as [tok|] eqn:Hl; [|done].
  assert (Htok : enabled tok = true).
  { unfold pool_enabled in H. rewrite Forall_lookup in H. by eapply H. }
  destruct (TM.isExpired (clock w) tok); [|unfold TM.recordUsage; run; done].
  pose proof (refreshToken_enabled (currentIndex (mgr w)) tok w H Htok) as Hr.
  unfold exec in Hr.
  destruct (refreshToken (currentIndex (mgr w)) tok w) as [w1 [tok'|e]]; cbn in Hr.
  - unfold TM.recordUsage. run. done.
  - destruct (TM.rejected e); cbn; [|done].
    match goal with |- context [TM.disableToken ?i ?t ?x] =>
      pose proof (disableToken_enabled i t x Hr) as Hd; unfold exec in Hd;
      destruct (TM.disableToken i t x) as [w2 [[]|e2]] end; cbn in *; done.
Qed.

Lemma loop_enabled n w :
  pool_enabled (mgr w) → pool_enabled (mgr (exec (getToken_loop n) w)).
Proof.
  revert w. induction n as [|n IH]; intros w H; [done|].
  unfold exec in *. rewrite loop_unfold.
  pose proof (turn_enabled w H) as Ht. unfold exec in Ht.
  destruct (getToken_turn w) as [w1 [[v|]|e]]; cbn in *; auto.
Qed.

Lemma getToken_enabled w :
  pool_enabled (mgr w) → pool_enabled (mgr (exec getToken w)).
Proof.
  intros H. unfold exec at 1. rewrite getToken_unfold. cbv zeta.
  apply loadTokens_enabled in H.
  destruct (length _ =? 0)%nat; [done|]. by apply loop_enabled.
Qed.

Lemma handleRequestError_enabled e a w :
  pool_enabled (mgr w) → pool_enabled (mgr (exec (handleRequestError e a) w)).
Proof.
  intros Hok. unfold exec, TM.handleRequestError.
  case_bool_decide; [|done]. run.
  assert (Hget : ∀ w0, pool_enabled (mgr w0) → pool_enabled (mgr (getToken w0).1)).
  { intros w0. apply getToken_enabled. }
  destruct (tokens (mgr w) !! currentIndex (mgr w)) as [cur|] eqn:Hl; [|by apply Hget].
  assert (Hcur : enabled cur = true).
  { unfold pool_enabled in Hok. rewrite Forall_lookup in Hok. by eapply Hok. }
  case_bool_decide; [|by apply Hget]. run.
  pose proof (refreshToken_enabled (currentIndex (mgr w)) cur
                (add_log (Warn, Request403) w) Hok Hcur) as Href. unfold exec in Href.
  destruct (refreshToken (currentIndex (mgr w)) cur (add_log (Warn, Request403) w))
    as [w1 [tok'|e1]]; cbn in *; [done|].
  case_bool_decide; run.
  - pose proof (disableToken_enabled (currentIndex (mgr w)) cur
                  (add_log (Warn, Refresh403) w1) Href) as Hdis. unfold exec in Hdis.
    destruct (TM.disableToken _ _ _) as [w2 [[]|e2]]; cbn in *; [|done].
    specialize (Hget w2 Hdis). by destruct (getToken w2) as [w3 [r|e3]].
  - by apply Hget.
Qed.

Lemma refreshToken_result_enabled idx tok w w1 tok' :
  refreshToken idx tok w = (w1, Ok tok') → enabled tok = true → enabled tok' = true.
Proof.
  intros Hr Htok.
  destruct (refreshToken_cases oauth idx tok w)
    as [(w2 & e & He & _)|(w2 & tok2 & Hr2 & Hs & _)]; [congruence|].
  unfold refresh_succeeds in Hs.
  destruct (outcome (oauth (fetches w) (refresh_token tok))) as [|s text [g|]] eqn:Hout;
    try done.
  rewrite (refreshToken_granted idx tok w s text g Hout Hs) in Hr.
  by injection Hr as _ <-.
Qed.

Lemma getToken_returned_enabled w w' tok :
  pool_enabled (mgr w) → getToken w = (w', Ok (Some tok)) → enabled tok = true.
Proof.
  intros H Hget. pose proof (getToken_enabled w H) as He. unfold exec in He.
  rewrite Hget in He. cbn in He.
  destruct (getToken_returned _ _ _ _ _ _ Hget) as (idx & Hidx & _).
  unfold pool_enabled in He. rewrite Forall_lookup in He. by eapply He.
Qed.

Lemma handleRequestError_returned_enabled e a w w' tok :
  pool_enabled (mgr w) → handleRequestError e a w = (w', Ok (Some tok)) →
  enabled tok = true.
Proof.
  intros Hok. unfold TM.handleRequestError.
  case_bool_decide; [|done]. run.
  assert (Hget : ∀ w0, pool_enabled (mgr w0) →
                       getToken w0 = (w', Ok (Some tok)) → enabled tok = true).
  { intros w0 H0. by apply getToken_returned_enabled. }
  destruct (tokens (mgr w) !! currentIndex (mgr w)) as [cur|] eqn:Hl; [|by apply Hget].
  assert (Hcur : enabled cur = true).
  { unfold pool_enabled in Hok. rewrite Forall_lookup in Hok. by eapply Hok. }
  case_bool_decide; [|by apply Hget]. run.
  pose proof (refreshToken_enabled (currentIndex (mgr w)) cur
                (add_log (Warn, Request403) w) Hok Hcur) as Href. unfold exec in Href.
  pose proof (λ w1 t, refreshToken_result_enabled (currentIndex (mgr w)) cur
                (add_log (Warn, Request403) w) w1 t) as Hres.
  destruct (refreshToken (currentIndex (mgr w)) cur (add_log (Warn, Request403) w))
    as [w1 [tok1|e1]]; cbn in *.
  - intros [= _ <-]. by eapply Hres.
  - case_bool_decide; run.
    + pose proof (disableToken_enabled (currentIndex (mgr w)) cur
                    (add_log (Warn, Refresh403) w1) Href) as Hdis. unfold exec in Hdis.
      destruct (TM.disableToken _ _ _) as [w2 [[]|e2]]; cbn in *; [|done].
      specialize (Hget w2 Hdis). destruct (getToken w2) as [w3 [r|e3]]; cbn; [|done].
      intros Heq. by apply Hget.
    + by apply Hget.
Qed.

(** X4.  The pool never holds a disabled credential: this is so when the
    manager is constructed and after every load, and [getToken],
    [handleRequestError], [disableToken] and [disableCurrentToken] keep it
    so.  Hence a credential returned by [getToken()] or by
    [handleRequestError()] is never a disabled one. *)
Theorem pool_holds_enabled_credentials w :
  pool_enabled (mgr (exec (TM.constructor generateProjectId generateSessionId) w))
  ∧ pool_enabled (mgr (exec initialize w))
  ∧ (pool_enabled (mgr w) →
     pool_enabled (mgr (exec getToken w))
     ∧ (∀ e a, pool_enabled (mgr (exec (handleRequestError e a) w)))
     ∧ (∀ idx tok, pool_enabled (mgr (exec (TM.disableToken idx tok) w)))
     ∧ (∀ tok, pool_enabled (mgr (exec (TM.disableCurrentToken tok) w)))
     ∧ (∀ w' tok, getToken w = (w', Ok (Some tok)) → enabled tok = true)
     ∧ (∀ e a w' tok, handleRequestError e a w = (w', Ok (Some tok)) → enabled tok = true)).
Proof.
  split; [apply (initialize_enabled (with_mgr _ w))|].
  split; [apply initialize_enabled|].
  intros H. split; [by apply getToken_enabled|].
  split; [intros; by apply handleRequestError_enabled|].
  split; [intros; by apply disableToken_enabled|].
  split.
  { intros tok. unfold exec, TM.disableCurrentToken. run.
    destruct (TM.findByAccess (access_token tok) (tokens (mgr w))) as [[i found]|]; [|done].
    by apply disableToken_enabled. }
  split; [intros w' tok; by apply getToken_returned_enabled|].
  intros e a w' tok. by apply handleRequestError_returned_enabled.
Qed.

(** *** The usage records *)

Lemma sumRequests_insert (stats : gmap jsstring Usage) key t :
  TM.sumRequests (<[key := mkUsage (S (requests (default (mkUsage 0 None) (stats !! key)))) t]> stats)
  = S (TM.sumRequests stats).
Proof.
  unfold TM.sumRequests.
  assert (Hcomm : ∀ (m : gmap jsstring Usage) (j1 j2 : jsstring) (z1 z2 : Usage) (y : nat),
             j1 ≠ j2 → m !! j1 = Some z1 → m !! j2 = Some z2 →
             (y + requests z2 + requests z1 = y + requests z1 + requests z2)%nat)
    by (intros; lia).
  destruct (stats !! key) as [u|] eqn:Hk; cbn.
  - rewrite <- insert_delete_eq.
    rewrite map_fold_insert_L; [|apply Hcomm|apply lookup_delete_eq].
    rewrite (map_fold_delete_L _ _ key u stats); [|apply Hcomm|done]. cbn. lia.
  - rewrite map_fold_insert_L; [|apply Hcomm|done]. cbn. lia.
Qed.

Lemma turn_usage w :
  match getToken_turn w with
  | (w', Ok (Some v)) => usage_after w (w', Ok v)
  | (w', _) => usageStats (mgr w') = usageStats (mgr w)
  end.
Proof.
  rewrite turn_exact.
  destruct (tokens (mgr w) !! currentIndex (mgr w)) as [tok|]; [|done].
  destruct (TM.isExpired (clock w) tok); [|unfold usage_after, TM.recordUsage; run; done].
  pose proof (refreshToken_usage (currentIndex (mgr w)) tok w) as Hu. unfold exec in Hu.
  destruct (refreshToken (currentIndex (mgr w)) tok w) as [w1 [tok'|e]]; cbn in Hu.
  - unfold usage_after, TM.recordUsage. run. by rewrite Hu.
  - destruct (TM.rejected e); cbn; [|done].
    match goal with |- context [TM.disableToken ?i ?t ?x] =>
      pose proof (disableToken_usage i t x) as Hd; unfold exec in Hd;
      destruct (TM.disableToken i t x) as [w2 [[]|e2]] end; cbn in *; rewrite Hu in Hd;
      [|done].
    by destruct (length _ =? 0)%nat.
Qed.

Lemma usage_after_same w w0 r :
  usageStats (mgr w0) = usageStats (mgr w) → usage_after w0 r → usage_after w r.
Proof. unfold usage_after. intros ->. done. Qed.

Lemma loop_usage n w : usage_after w (getToken_loop n w).
Proof.
  revert w. induction n as [|n IH]; intros w; [done|].
  rewrite loop_unfold. pose proof (turn_usage w) as Ht.
  destruct (getToken_turn w) as [w1 [[v|]|e]]; cbn in *; try done.
  by apply (usage_after_same w w1).
Qed.

Lemma getToken_usage w : usage_after w (getToken w).
Proof.
  rewrite getToken_unfold. cbv zeta.
  pose proof (loadTokens_usage w) as Hl.
  destruct (length _ =? 0)%nat; [done|].
  apply (usage_after_same w (exec loadTokens w)); [done|]. apply loop_usage.
Qed.

(** X5.  The usage records count the dispatches.  When [getToken()]
    returns a credential, [getTokenRequests] of that credential is one
    more than before, [getTokenRequests] of every credential with another
    refresh token is as before, the [totalRequests] of [getUsageStats()]
    is one more than before and the record holds the time of the
    dispatch.  When [getToken()] returns [null], nothing is counted. *)
Theorem usage_counts_dispatches w w' r :
  getToken w = (w', Ok r) →
  match r with
  | Some tok =>
      (∀ t, ∃ n, (TM.getTokenRequests t w).2 = Ok n
          ∧ (TM.getTokenRequests t w').2
            = Ok (if bool_decide (refresh_token t = refresh_token tok) then S n else n))
      ∧ (∃ rep rep', (TM.getUsageStats w).2 = Ok rep ∧ (TM.getUsageStats w').2 = Ok rep'
          ∧ TM.totalRequests rep' = S (TM.totalRequests rep))
      ∧ lastUsed <$> (usageStats (mgr w') !! refresh_token tok) = Some (Some (clock w'))
  | None =>
      (∀ t, (TM.getTokenRequests t w').2 = (TM.getTokenRequests t w).2)
      ∧ ∃ rep rep', (TM.getUsageStats w).2 = Ok rep ∧ (TM.getUsageStats w').2 = Ok rep'
          ∧ TM.totalRequests rep' = TM.totalRequests rep
  end.
Proof.
  intros Hget. pose proof (getToken_usage w) as Hu. rewrite Hget in Hu.
  unfold usage_after in Hu. cbn in Hu. destruct r as [tok|].
  - split; [|split].
    + intros t. eexists. split; [reflexivity|]. unfold TM.getTokenRequests. run.
      rewrite Hu. f_equal. case_bool_decide as Heq.
      * rewrite Heq, lookup_insert_eq. cbn.
        by destruct (usageStats (mgr w) !! refresh_token tok).
      * by rewrite lookup_insert_ne.
    + do 2 eexists. split; [reflexivity|]. split; [reflexivity|]. cbn.
      rewrite Hu. apply sumRequests_insert.
    + by rewrite Hu, lookup_insert_eq.
  - split.
    + intros t. unfold TM.getTokenRequests. run. by rewrite Hu.
    + do 2 eexists. split; [reflexivity|]. split; [reflexivity|]. cbn. by rewrite Hu.
Qed.

(** *** What a save writes *)

Lemma mergeToken_keeps cache p i t :
  cache !! i = Some t → refresh_token p ≠ refresh_token t →
  TM.mergeToken cache p !! i = Some t.
Proof.
  intros Hi Hne. unfold TM.mergeToken.
  destruct (TM.findIndex (refresh_token p) cache) as [k|] eqn:Hk; [|done].
  destruct (findIndex_Some _ _ _ Hk) as (x & Hx & Hrt).
  rewrite list_lookup_insert_ne; [done|]. intros ->. congruence.
Qed.

Lemma mergeTokens_keeps pool cache i t :
  cache !! i = Some t → absent (refresh_token t) pool →
  TM.mergeTokens pool cache !! i = Some t.
Proof.
  unfold TM.mergeTokens. intros Hi Habs. revert cache Hi.
  induction Habs as [|p pool Hp _ IH]; intros cache Hi; cbn; [done|].
  apply IH. by apply mergeToken_keeps.
Qed.

Lemma mergeToken_entry cache p i t :
  TM.mergeToken cache p !! i = Some t → cache !! i = Some t ∨ t = tokenToSave p.
Proof.
  unfold TM.mergeToken.
  destruct (TM.findIndex (refresh_token p) cache) as [k|]; [|by left].
  destruct (decide (i = k)) as [->|Hne].
  - intros Hl. apply list_lookup_insert_Some in Hl as [(_ & -> & _)|(? & _)]; [by right|done].
  - rewrite list_lookup_insert_ne by done. by left.
Qed.

Lemma mergeTokens_entry pool cache i t :
  TM.mergeTokens pool cache !! i = Some t →
  cache !! i = Some t ∨ ∃ p, p ∈ pool ∧ t = tokenToSave p.
Proof.
  unfold TM.mergeTokens. revert cache.
  induction pool as [|p pool IH]; intros cache; cbn; [by left|].
  intros Hl. destruct (IH _ Hl) as [Hc|(q & Hq & ->)].
  - destruct (mergeToken_entry _ _ _ _ Hc) as [?| ->]; [by left|].
    right. exists p. split; [apply list_elem_of_here|done].
  - right. exists q. split; [by apply list_elem_of_further|done].
Qed.

(** X6.  A save on a writable store, from the cached collection, writes
    a collection with the same entries in the same order: an entry whose
    refresh token no pool credential has is written as it was, and every
    other entry is either as it was or a pool credential without its
    session id.  The pool itself is not changed and the cache holds what
    was written. *)
Theorem save_rewrites_only_pooled_entries w cache :
  cachedData (mgr w) = Some cache → writable (disk w) = true →
  let w' := exec TM.saveToFile w in
  ∃ saved, file (disk w') = Some saved
    ∧ cachedData (mgr w') = Some saved
    ∧ tokens (mgr w') = tokens (mgr w)
    ∧ refresh_token <$> saved = refresh_token <$> cache
    ∧ (∀ i t, cache !! i = Some t → absent (refresh_token t) (tokens (mgr w)) →
         saved !! i = Some t)
    ∧ (∀ i t, saved !! i = Some t →
         cache !! i = Some t
         ∨ sessionId t = None ∧ ∃ p, p ∈ tokens (mgr w) ∧ t = tokenToSave p)
    ∧ logs w' = logs w.
Proof.
  intros Hc Hw w'. unfold w', exec. rewrite (saveToFile_writable w cache Hw Hc). cbn.
  exists (TM.mergeTokens (tokens (mgr w)) cache).
  split; [done|]. split; [done|]. split; [done|].
  split; [apply mergeTokens_rts|].
  split; [intros i t; apply mergeTokens_keeps|].
  split; [|done].
  intros i t Hl. destruct (mergeTokens_entry _ _ _ _ Hl) as [?|(p & Hp & ->)]; [by left|].
  right. split; [done|]. by exists p.
Qed.

(** *** What a load yields *)

Lemma assignProjectIds_shape n (l : list Token) :
  Forall2 (λ a d, if hasProjectId d then a = d
                  else ∃ k, a = set_projectId (generateProjectId k) d)
          (TM.assignProjectIds generateProjectId n l).1.1 l.
Proof.
  revert n. induction l as [|t l IH]; intros n; cbn; [constructor|].
  unfold hasProjectId at 1.
  destruct (JS.truthy_opt (projectId t)) eqn:Hp.
  - specialize (IH n). destruct (TM.assignProjectIds generateProjectId n l) as [[r b] n'].
    cbn in *. constructor; [|done]. unfold hasProjectId. by rewrite Hp.
  - specialize (IH (S n)). destruct (TM.assignProjectIds generateProjectId (S n) l) as [[r b] n'].
    cbn in *. constructor; [|done]. unfold hasProjectId. rewrite Hp. by eexists.
Qed.

Lemma assignProjectIds_needSave n (l : list Token) :
  (TM.assignProjectIds generateProjectId n l).1.2
  = negb (forallb hasProjectId l).
Proof.
  revert n. induction l as [|t l IH]; intros n; cbn; [done|].
  unfold hasProjectId at 1.
  destruct (JS.truthy_opt (projectId t)) eqn:Hp.
  - specialize (IH n). destruct (TM.assignProjectIds generateProjectId n l) as [[r b] n'].
    cbn in *. done.
  - specialize (IH (S n)). destruct (TM.assignProjectIds generateProjectId (S n) l) as [[r b] n'].
    cbn in *. done.
Qed.

Lemma assignProjectIds_same n (l : list Token) :
  forallb hasProjectId l = true →
  TM.assignProjectIds generateProjectId n l = (l, false, n).
Proof.
  revert n. induction l as [|t l IH]; intros n; cbn; [done|].
  unfold hasProjectId at 1. intros [Ht Hl]%andb_true_iff. rewrite Ht.
  by rewrite (IH n Hl).
Qed.

Lemma assignProjectIds_all n (l : list Token) :
  (∀ k, generateProjectId k ≠ []) →
  forallb hasProjectId (TM.assignProjectIds generateProjectId n l).1.1 = true.
Proof.
  intros Hgen. revert n. induction l as [|t l IH]; intros n; cbn; [done|].
  destruct (JS.truthy_opt (projectId t)) eqn:Hp.
  - specialize (IH n). destruct (TM.assignProjectIds generateProjectId n l) as [[r b] n'].
    cbn in *. unfold hasProjectId at 1. by rewrite Hp.
  - specialize (IH (S n)). destruct (TM.assignProjectIds generateProjectId (S n) l) as [[r b] n'].
    cbn in *. rewrite IH, andb_true_r. unfold hasProjectId. cbn.
    specialize (Hgen n). by destruct (generateProjectId n).
Qed.

Lemma assignSessionIds_shape n (l : list Token) :
  Forall2 (λ p t, ∃ k, p = set_sessionId (Some (generateSessionId k)) t)
          (TM.assignSessionIds generateSessionId n l).1 l.
Proof.
  revert n. induction l as [|t l IH]; intros n; cbn; [constructor|].
  specialize (IH (S n)). destruct (TM.assignSessionIds generateSessionId (S n) l) as [r n'].
  cbn in *. constructor; [by eexists|done].
Qed.

(** X7.  A load from a readable store that can be written back, or that
    needs no writing, puts into the pool exactly the entries that are not
    disabled, in the order of the store, each with a generated session
    id, and sets the cursor to 0.  An entry without a project id gets a
    generated one, the others are left as they are; the store is
    rewritten only when an entry was given a project id. With a generator
    of non-empty ids every entry has a project id afterwards, so that
    the next load does not write. *)
Theorem load_yields_enabled_entries w data :
  file (disk w) = Some data →
  writable (disk w) = true ∨ forallb hasProjectId data = true →
  let w' := exec initialize w in
  ∃ arr, cachedData (mgr w') = Some arr ∧ file (disk w') = Some arr
    ∧ Forall2 (λ a d, if hasProjectId d then a = d
                      else ∃ k, a = set_projectId (generateProjectId k) d) arr data
    ∧ Forall2 (λ p a, ∃ k, p = set_sessionId (Some (generateSessionId k)) a)
              (tokens (mgr w')) (List.filter enabled arr)
    ∧ currentIndex (mgr w') = 0%nat ∧ lastLoadTime (mgr w') = clock w
    ∧ accesses (disk w')
      = (accesses (disk w) + if forallb hasProjectId data then 1 else 2)%nat
    ∧ ((∀ k, generateProjectId k ≠ []) → forallb hasProjectId arr = true).
Proof.
  intros Hf Hsave w'. unfold w', exec, TM.initialize, TM.readFile, TM.writeFile. run.
  rewrite Hf. run.
  pose proof (assignProjectIds_shape (draws w) data) as Hshape.
  pose proof (assignProjectIds_needSave (draws w) data) as Hneed.
  pose proof (assignProjectIds_all (draws w) data) as Hall.
  pose proof (assignProjectIds_same (draws w) data) as Hsame.
  destruct (TM.assignProjectIds generateProjectId (draws w) data) as [[arr needSave] n1].
  cbn in Hshape, Hneed, Hall. run.
  pose proof (assignSessionIds_shape n1 (List.filter enabled arr)) as Hpool.
  destruct (TM.assignSessionIds generateSessionId n1 (List.filter enabled arr)) as [pool n2].
  cbn in Hpool.
  destruct (forallb hasProjectId data) eqn:Hd; cbn in Hneed; subst needSave; run.
  - injection (Hsame eq_refl) as -> _. exists data. rewrite Hf. repeat split; try done. lia.
  - destruct Hsave as [Hw|?]; [|done]. rewrite Hw. run.
    exists arr. repeat split; try done. lia.
Qed.

(** *** After a request was answered 403 *)

Lemma mergeTokens_keyed pool cache :
  keyed pool → keyed cache → keyed (TM.mergeTokens pool cache).
Proof.
  unfold keyed. rewrite !Forall_lookup. intros Hp Hc i t Hi.
  destruct (mergeTokens_entry _ _ _ _ Hi) as [?|(p & Hin & ->)]; [by eapply Hc|].
  apply list_elem_of_lookup in Hin as [j Hj]. by eapply (Hp j p).
Qed.

(** Close a goal of [all_keyed]: by a hypothesis, or because the
    collection is the one just written. *)
Ltac keyed_parts simplify :=
  split; [first [done|constructor]|]; cbn; simplify; split;
  first [done | solve [auto] | by intros ? [= <-]].

Lemma saveToFile_keyed w : all_keyed w → all_keyed (exec TM.saveToFile w).
Proof.
  intros (Hp & Hc & Hf).
  unfold exec, TM.saveToFile, TM.writeFile, TM.readFile. run.
  destruct (cachedData (mgr w)) as [c|] eqn:Hcache; run.
  - pose proof (mergeTokens_keyed _ _ Hp (Hc c eq_refl)) as Hm.
    pose proof Hm as Hm'. unfold TM.mergeTokens in Hm'.
    destruct (writable (disk w)); run; keyed_parts idtac.
  - destruct (file (disk w)) as [d|] eqn:Hfile; run.
    + pose proof (mergeTokens_keyed _ _ Hp (Hf d eq_refl)) as Hm.
      pose proof Hm as Hm'. unfold TM.mergeTokens in Hm'.
      destruct (writable (disk w)); run; keyed_parts ltac:(rewrite ?Hcache, ?Hfile).
    + keyed_parts ltac:(rewrite ?Hcache, ?Hfile).
Qed.

Lemma refreshToken_keyed idx tok w :
  grants_keyed oauth → all_keyed w → all_keyed (exec (refreshToken idx tok) w).
Proof.
  intros Hg HJ. unfold exec, TM.refreshToken, TM.fetchToken. run.
  destruct (outcome (oauth (fetches w) (refresh_token tok))) as [msg|s text [g|]] eqn:Hout; run;
    try destruct (response_ok s); run; try exact HJ.
  match goal with |- context [TM.saveToFile ?x] =>
    pose proof (saveToFile_keyed x) as Hsave; unfold exec in Hsave;
    destruct (TM.saveToFile x) as [w1 [[]|e]] end; cbn in *; apply Hsave.
  all: destruct HJ as (Hp & Hc & Hf); split; [|done]; cbn;
    apply Forall_insert; [done|]; cbn; by eapply Hg.
Qed.

Lemma disableToken_keyed idx tok w :
  all_keyed w → all_keyed (exec (TM.disableToken idx tok) w).
Proof.
  intros HJ. unfold exec, TM.disableToken.
  destruct (access_token tok) as [a|] eqn:Hacc; [|exact HJ]. run.
  match goal with |- context [TM.saveToFile ?x] =>
    pose proof (saveToFile_keyed x) as Hsave; unfold exec in Hsave;
    destruct (TM.saveToFile x) as [w1 [[]|e]] end; cbn in *.
  - destruct Hsave as (Hp1 & Hc1 & Hf1).
    { destruct HJ as (Hp & Hc & Hf). split; [|done]. cbn.
      apply Forall_insert; [done|]. cbn. by rewrite Hacc. }
    split; [|done]. cbn. by apply Forall_filter_list.
  - apply Hsave. destruct HJ as (Hp & Hc & Hf). split; [|done]. cbn.
    apply Forall_insert; [done|]. cbn. by rewrite Hacc.
Qed.

Lemma assignProjectIds_keyed n (l : list Token) :
  keyed l → keyed (TM.assignProjectIds generateProjectId n l).1.1.
Proof.
  intros Hl. revert n. induction Hl as [|t l Ht _ IH]; intros n; cbn; [constructor|].
  destruct (JS.truthy_opt (projectId t)).
  - specialize (IH n). destruct (TM.assignProjectIds generateProjectId n l) as [[r b] n'].
    cbn in *. by constructor.
  - specialize (IH (S n)). destruct (TM.assignProjectIds generateProjectId (S n) l) as [[r b] n'].
    cbn in *. by constructor.
Qed.

Lemma assignSessionIds_keyed n (l : list Token) :
  keyed l → keyed (TM.assignSessionIds generateSessionId n l).1.
Proof.
  intros Hl. revert n. induction Hl as [|t l Ht _ IH]; intros n; cbn; [constructor|].
  specialize (IH (S n)). destruct (TM.assignSessionIds generateSessionId (S n) l) as [r n'].
  cbn in *. by constructor.
Qed.

Lemma initialize_keyed w : all_keyed w → all_keyed (exec initialize w).
Proof.
  intros (Hp & Hc & Hf).
  unfold exec, TM.initialize, TM.readFile, TM.writeFile. run.
  destruct (file (disk w)) as [data|] eqn:Hfile; run.
  2: { keyed_parts ltac:(rewrite ?Hfile). }
  pose proof (assignProjectIds_keyed (draws w) data (Hf data eq_refl)) as Harr.
  destruct (TM.assignProjectIds generateProjectId (draws w) data) as [[arr needSave] n1].
  cbn in Harr. run.
  pose proof (assignSessionIds_keyed n1 _ (Forall_filter_list _ enabled _ Harr)) as Hpool.
  destruct (TM.assignSessionIds generateSessionId n1 (List.filter enabled arr)) as [pool n2].
  cbn in Hpool.
  destruct needSave; run; [destruct (writable (disk w)); run|];
    keyed_parts ltac:(rewrite ?Hfile).
Qed.

Lemma loadTokens_keyed w : all_keyed w → all_keyed (exec loadTokens w).
Proof.
  intros HJ. unfold exec. destruct (loadTokens_cases generateProjectId generateSessionId w)
    as [(-> & _)|(-> & _)]; [done|]. by apply initialize_keyed.
Qed.

Lemma turn_keyed w :
  grants_keyed oauth → all_keyed w → all_keyed (exec getToken_turn w).
Proof.
  intros Hg HJ. unfold exec. rewrite turn_exact.
  destruct (tokens (mgr w) !! currentIndex (mgr w)) as [tok|]; [|exact HJ].
  destruct (TM.isExpired (clock w) tok); [|unfold TM.recordUsage; run; exact HJ].
  pose proof (refreshToken_keyed (currentIndex (mgr w)) tok w Hg HJ) as Hr. unfold exec in Hr.
  destruct (refreshToken (currentIndex (mgr w)) tok w) as [w1 [tok'|e]]; cbn in Hr.
  - unfold TM.recordUsage. run. exact Hr.
  - destruct (TM.rejected e); cbn; [|exact Hr].
    match goal with |- context [TM.disableToken ?i ?t ?x] =>
      pose proof (disableToken_keyed i t x Hr) as Hd; unfold exec in Hd;
      destruct (TM.disableToken i t x) as [w2 [[]|e2]] end; cbn in *; done.
Qed.

(** While every credential has an access token, a turn does not throw. *)
Lemma turn_total_keyed w :
  all_keyed w → ∃ w' r, getToken_turn w = (w', Ok r).
Proof.
  intros (Hp & _).
  destruct (turn_cases oauth w) as [(w' & r & -> & _)|(w' & tok & _ & Hlk & Hacc & _)];
    [by do 2 eexists|].
  unfold keyed in Hp. rewrite Forall_lookup in Hp. by destruct (Hp _ _ Hlk).
Qed.

Lemma loop_total_keyed n w :
  grants_keyed oauth → all_keyed w →
  ∃ w' r, getToken_loop n w = (w', Ok r) ∧ all_keyed w'.
Proof.
  intros Hg. revert w. induction n as [|n IH]; intros w HJ; [by do 2 eexists|].
  rewrite loop_unfold. pose proof (turn_keyed w Hg HJ) as HJ'. unfold exec in HJ'.
  destruct (turn_total_keyed w HJ) as (w' & r & Hturn). rewrite Hturn in *. cbn in HJ'.
  destruct r as [v|]; [by do 2 eexists|]. by apply IH.
Qed.

Lemma getToken_total_keyed w :
  grants_keyed oauth → all_keyed w →
  ∃ w' r, getToken w = (w', Ok r) ∧ all_keyed w'.
Proof.
  intros Hg HJ. rewrite getToken_unfold. cbv zeta.
  apply loadTokens_keyed in HJ.
  destruct (length _ =? 0)%nat; [by do 2 eexists|]. by apply loop_total_keyed.
Qed.

(** X8.  While every credential has an access token (in the pool, in the
    cached collection and in the file) and every grant carries one,
    [handleRequestError] never throws, and every credential still has an
    access token afterwards.  For an error whose status is not 403 it does
    nothing and returns [null], whatever the store holds. *)
Theorem handleRequestError_never_throws e a w :
  (statusCode e ≠ Some 403 → handleRequestError e a w = (w, Ok None))
  ∧ (grants_keyed oauth → all_keyed w →
     ∃ w' r, handleRequestError e a w = (w', Ok r) ∧ all_keyed w').
Proof.
  unfold TM.handleRequestError. case_bool_decide as H403; [|by split; [|do 2 eexists]].
  split; [done|]. intros Hg HJ.
  assert (Hget : ∀ w0, all_keyed w0 → ∃ w' r, getToken w0 = (w', Ok r) ∧ all_keyed w').
  { intros w0. by apply getToken_total_keyed. }
  run. destruct (tokens (mgr w) !! currentIndex (mgr w)) as [cur|] eqn:Hlk; [|by apply Hget].
  assert (Hcur : access_token cur ≠ None).
  { destruct HJ as (Hp & _). unfold keyed in Hp. rewrite Forall_lookup in Hp. by eapply Hp. }
  case_bool_decide; [|by apply Hget]. run.
  pose proof (refreshToken_keyed (currentIndex (mgr w)) cur (add_log (Warn, Request403) w) Hg HJ)
    as Href. unfold exec in Href.
  destruct (refreshToken (currentIndex (mgr w)) cur (add_log (Warn, Request403) w))
    as [w1 [tok'|e1]]; cbn in *; [by do 2 eexists|].
  case_bool_decide; run; [|by apply Hget].
  pose proof (disableToken_keyed (currentIndex (mgr w)) cur
                (add_log (Warn, Refresh403) w1) Href) as Hdis. unfold exec in Hdis.
  match goal with |- context [TM.disableToken ?i ?t ?x] =>
    destruct (disableToken_spec i t x Hcur) as (w2 & Hrun & _) end.
  rewrite Hrun in *. cbn in *.
  destruct (Hget w2 Hdis) as (w3 & r & -> & HJ3). by do 2 eexists.
Qed.

(** X9.  When a request was answered 403 and the credential under the
    cursor is the one that was used, a granted refresh gives that
    credential back with the new grant: it replaces the old one in the
    pool, the cursor stays on it, no dispatch is counted and exactly one
    exchange was made. *)
Theorem refresh_after_403_keeps_cursor e w tok status text grant :
  statusCode e = Some 403 →
  tokens (mgr w) !! currentIndex (mgr w) = Some tok →
  outcome (oauth (fetches w) (refresh_token tok)) = HttpResponse status text (Some grant) →
  response_ok status = true →
  let granted := clock w + Z.of_nat (latency (oauth (fetches w) (refresh_token tok))) in
  let tok' := set_grant (grant_access_token grant) (grant_expires_in grant) granted tok in
  ∃ w', handleRequestError e (access_token tok) w = (w', Ok (Some tok'))
    ∧ tokens (mgr w') = <[currentIndex (mgr w) := tok']> (tokens (mgr w))
    ∧ tokens (mgr w') !! currentIndex (mgr w') = Some tok'
    ∧ currentIndex (mgr w') = currentIndex (mgr w)
    ∧ usageStats (mgr w') = usageStats (mgr w)
    ∧ fetches w' = S (fetches w)
    ∧ clock w' = granted.
Proof.
  intros H403 Hl Hout Hok granted tok'.
  unfold TM.handleRequestError. rewrite bool_decide_eq_true_2 by done. run.
  rewrite Hl. rewrite bool_decide_eq_true_2 by done. run.
  rewrite (refreshToken_granted _ _ (add_log (Warn, Request403) w) status text grant Hout Hok).
  cbn zeta. change (clock (advance_clock _ _)) with granted. fold tok'. cbn.
  match goal with |- context [exec TM.saveToFile ?x] =>
    pose proof (saveToFile_usage x) as Hu;
    destruct (saveToFile_frame x) as (w1 & Hs & Ht & Hc & _ & Hk & Hf) end.
  unfold exec in *. rewrite Hs in *. cbn in *.
  eexists. split; [reflexivity|]. cbn. rewrite Ht, Hc, Hu, Hk, Hf.
  repeat split; try done.
  apply list_lookup_insert_eq. by eapply lookup_lt_Some.
Qed.

(** *** A refreshed credential is used again *)

(** X10.  A refreshed credential is not refreshed again while its grant
    lasts.  In a pool of one, after a granted refresh at a time other than
    0 with a time to live of [ex] seconds, a second [getToken()] made less
    than [ex] seconds minus five minutes later, the pool still being
    fresh, returns the same credential without any exchange. *)
Theorem refreshed_credential_is_reused w tok status text grant ex dt :
  clock w - lastLoadTime (mgr w) < loadInterval →
  tokens (mgr w) = [tok] → currentIndex (mgr w) = 0%nat →
  TM.isExpired (clock w) tok = true →
  outcome (oauth (fetches w) (refresh_token tok)) = HttpResponse status text (Some grant) →
  response_ok status = true →
  grant_expires_in grant = Some ex →
  let granted := clock w + Z.of_nat (latency (oauth (fetches w) (refresh_token tok))) in
  granted ≠ 0 → ex ≠ 0 →
  0 ≤ dt → dt < ex * 1000 - 300000 →
  granted + dt - lastLoadTime (mgr w) < loadInterval →
  let tok' := set_grant (grant_access_token grant) (Some ex) granted tok in
  ∃ w1 w2, getToken w = (w1, Ok (Some tok'))
    ∧ getToken (advance_clock dt w1) = (w2, Ok (Some tok'))
    ∧ fetches w1 = S (fetches w) ∧ fetches w2 = fetches w1.
Proof.
  intros Hfresh Hpool Hcur Hexp Hout Hok Hex granted Hg Hex0 Hdt Hlast Hfresh2 tok'.
  assert (Hl : tokens (mgr w) !! currentIndex (mgr w) = Some tok) by (by rewrite Hpool, Hcur).
  rewrite (getToken_refreshed_exact w tok status text grant) by done.
  cbn zeta. change (clock (advance_clock _ _)) with granted. rewrite Hex. fold tok'.
  match goal with |- context [exec TM.saveToFile ?x] =>
    destruct (saveToFile_frame x) as (w1 & Hs & Ht & Hc & Hll & Hk & Hf) end.
  unfold exec at 3. rewrite Hs. cbn in Ht, Hc, Hll, Hk, Hf. cbn [fst].
  set (w1' := exec (TM.recordUsage tok') (exec TM.advance w1)).
  assert (Ht' : tokens (mgr w1') = [tok']).
  { unfold w1', TM.recordUsage, TM.advance. run. by rewrite Ht, Hpool, Hcur. }
  assert (Hc' : currentIndex (mgr w1') = 0%nat).
  { unfold w1', TM.recordUsage, TM.advance. run. by rewrite Ht, Hc, Hpool, Hcur. }
  assert (Hll' : lastLoadTime (mgr w1') = lastLoadTime (mgr w)).
  { unfold w1', TM.recordUsage, TM.advance. run. done. }
  assert (Hk' : clock w1' = granted).
  { unfold w1', TM.recordUsage, TM.advance. run. done. }
  assert (Hf' : fetches w1' = S (fetches w)).
  { unfold w1', TM.recordUsage, TM.advance. run. done. }
  exists w1'. eexists. split; [reflexivity|]. split; [|split; [done|]].
  - apply (getToken_valid_exact (advance_clock dt w1') tok'); cbn.
    + rewrite Hk', Hll'. lia.
    + by rewrite Ht', Hc'.
    + rewrite Hk'. unfold TM.isExpired, tok'. cbn.
      assert (Hlt : granted + dt < granted + ex * 1000 - 300000) by lia.
      clearbody granted. clear -Hg Hex0 Hlt.
      destruct granted as [|g|g]; [done| |]; (destruct ex as [|x|x]; [done| |]); cbn;
        rewrite Z.geb_leb; apply Z.leb_gt; exact Hlt.
  - unfold TM.recordUsage, TM.advance. run. done.
Qed.

(** *** Disabling the credential of a request *)

Lemma findByAccess_None a (l : list Token) :
  Forall (λ t, access_token t ≠ a) l → TM.findByAccess a l = None.
Proof.
  induction 1 as [|t l Ht _ IH]; cbn; [done|].
  by rewrite bool_decide_eq_false_2, IH.
Qed.

Lemma findByAccess_Some a (l : list Token) t :
  t ∈ l → access_token t = a →
  ∃ i found, TM.findByAccess a l = Some (i, found)
    ∧ l !! i = Some found ∧ access_token found = a.
Proof.
  induction l as [|x l IH]; intros Hin Ha; [by apply elem_of_nil in Hin|]. cbn.
  case_bool_decide as Hx; [by exists 0%nat, x|].
  apply elem_of_cons in Hin as [->|Hin]; [done|].
  destruct (IH Hin Ha) as (i & found & -> & Hi & Hf). by exists (S i), found.
Qed.

Lemma filter_shorter (f : Token → bool) (l : list Token) x :
  x ∈ l → f x = false → (length (List.filter f l) < length l)%nat.
Proof.
  assert (Hle : ∀ l', (length (List.filter f l') ≤ length l')%nat).
  { induction l' as [|a l' IH]; cbn; [lia|]. destruct (f a); cbn; lia. }
  induction l as [|a l IH]; intros Hin Hx; [by apply elem_of_nil in Hin|].
  apply elem_of_cons in Hin as [<-|Hin]; cbn.
  - rewrite Hx. specialize (Hle l). lia.
  - specialize (IH Hin Hx). destruct (f a); cbn; lia.
Qed.

(** X11.  [disableCurrentToken(token)] looks the credential up by its
    access token.  When no pool credential has it, nothing happens at
    all.  When the pool, whose access tokens are distinct, has a
    credential with it, every entry with the refresh token of that
    credential leaves the pool and the others stay in their order; no
    exchange is made and nothing is thrown.  (The access token is a
    string.  When the argument has none and a pool credential has none
    either, that credential is found and the [TypeError] of
    [disableToken] is thrown, nothing being changed.) *)
Theorem disableCurrentToken_removes_holder w token :
  (Forall (λ t, access_token t ≠ access_token token) (tokens (mgr w)) →
     TM.disableCurrentToken token w = (w, Ok tt))
  ∧ (∀ found, found ∈ tokens (mgr w) → access_token found = access_token token →
       access_token token ≠ None →
       NoDup (access_token <$> tokens (mgr w)) →
       ∃ w', TM.disableCurrentToken token w = (w', Ok tt)
         ∧ tokens (mgr w') = List.filter (other (refresh_token found)) (tokens (mgr w))
         ∧ absent (refresh_token found) (tokens (mgr w'))
         ∧ (length (tokens (mgr w')) < length (tokens (mgr w)))%nat
         ∧ fetches w' = fetches w)
  ∧ (∀ found, found ∈ tokens (mgr w) → access_token found = access_token token →
       access_token token = None →
       TM.disableCurrentToken token w = (w, Throw TypeError)).
Proof.
  split; [|split].
  - intros Hnone. unfold TM.disableCurrentToken. run. by rewrite findByAccess_None.
  - intros found Hin Ha Hacc Hnd. unfold TM.disableCurrentToken. run.
    destruct (findByAccess_Some _ _ _ Hin Ha) as (i & f & -> & Hi & Hf).
    assert (f = found) as ->.
    { apply list_elem_of_lookup in Hin as [j Hj].
      assert (i = j) as ->; [|congruence].
      eapply NoDup_lookup; [exact Hnd| |]; rewrite list_lookup_fmap.
      - by rewrite Hi.
      - rewrite Hj. cbn. congruence. }
    destruct (disableToken_spec i found w) as (w' & -> & Ht & _ & _ & _ & Hfe);
      [by rewrite Ha|].
    exists w'. split; [done|].
    assert (Hpool : tokens (mgr w') = List.filter (other (refresh_token found)) (tokens (mgr w))).
    { rewrite Ht. apply (filter_other_insert _ _ _ found); [done|apply other_self|].
      apply (other_self (set_enable false found)). }
    split; [done|]. rewrite Hpool. split; [|split; [|done]].
    + unfold absent. apply Forall_forall. intros t Ht'.
      apply list_elem_of_In, filter_In in Ht' as [_ Ho]. unfold other in Ho.
      by apply negb_true_iff, bool_decide_eq_false in Ho.
    + apply (filter_shorter _ _ found); [done|apply other_self].
  - intros found Hin Ha Hacc. unfold TM.disableCurrentToken. run.
    destruct (findByAccess_Some _ _ _ Hin Ha) as (i & f & -> & Hi & Hf).
    apply disableToken_throws. by rewrite Hf.
Qed.

(** *** The usage report *)

(** X12.  [getUsageStats()] only reads.  Its report has one line per pool
    credential, in the order of the pool; the line of a credential shows
    what [getTokenRequests] gives for it, and a last use at time 0 is
    shown as none.  The line marked as current is the one under the
    cursor, and while the cursor invariant holds a pool that is not
    empty has exactly that one. *)
Theorem usage_report_follows_pool w :
  ∃ rep, TM.getUsageStats w = (w, Ok rep)
    ∧ TM.totalTokens rep = length (tokens (mgr w))
    ∧ TM.reportIndex rep = currentIndex (mgr w)
    ∧ length (TM.reportTokens rep) = length (tokens (mgr w))
    ∧ (∀ i tok, tokens (mgr w) !! i = Some tok →
         ∃ line, TM.reportTokens rep !! i = Some line
           ∧ TM.usageIndex line = i
           ∧ (TM.getTokenRequests tok w).2 = Ok (TM.usageRequests line)
           ∧ (TM.usageLastUsed line = Some 0 → False)
           ∧ (TM.isCurrent line = true ↔ i = currentIndex (mgr w)))
    ∧ (cursor_ok (mgr w) → tokens (mgr w) ≠ [] →
         ∃ line, TM.reportTokens rep !! currentIndex (mgr w) = Some line
           ∧ TM.isCurrent line = true).
Proof.
  unfold TM.getUsageStats. run. eexists. split; [reflexivity|]. cbn.
  split; [done|]. split; [done|]. split; [by rewrite length_imap|]. split.
  - intros i tok Hi. eexists. split; [by rewrite list_lookup_imap, Hi|]. cbn.
    split; [done|]. split; [|split].
    + unfold TM.getTokenRequests. run.
      by destruct (usageStats (mgr w) !! refresh_token tok).
    + unfold TM.printLastUsed.
      destruct (lastUsed _) as [[| |]|]; cbn; done.
    + by rewrite bool_decide_eq_true.
  - intros Hok Hne. destruct (lookup_lt_is_Some_2 _ _ (Hok Hne)) as [tok Htok].
    eexists. split; [by rewrite list_lookup_imap, Htok|]. cbn.
    by rewrite bool_decide_eq_true.
Qed.

(** *** A refresh that fails for another reason *)

Lemma transient_not_granted r : transient_failure r = true → refresh_succeeds r = false.
Proof.
  unfold transient_failure, refresh_succeeds.
  destruct (outcome r) as [msg|s text [g|]]; try done.
  by destruct (response_ok s).
Qed.

Lemma refreshToken_transient idx tok w :
  transient_failure (oauth (fetches w) (refresh_token tok)) = true →
  ∃ w1 e, refreshToken idx tok w = (w1, Throw e) ∧ TM.rejected e = false
    ∧ mgr w1 = mgr w ∧ disk w1 = disk w
    ∧ clock w1 = clock w + Z.of_nat (latency (oauth (fetches w) (refresh_token tok)))
    ∧ fetches w1 = S (fetches w).
Proof.
  intros Htr. pose proof (transient_not_granted _ Htr) as Hno.
  destruct (refreshToken_cases oauth idx tok w)
    as [(w1 & e & Hr & _ & Hm & Hd & Hk & Hf & He)|(w1 & tok' & _ & Hs & _)]; [|congruence].
  exists w1, e. repeat split; try done.
  unfold TM.rejected. rewrite He. unfold transient_failure in Htr.
  destruct (outcome (oauth (fetches w) (refresh_token tok))) as [msg|s text json]; [done|].
  destruct (response_ok s); [done|]. by apply negb_true_iff in Htr.
Qed.

(** X13.  A refresh that fails otherwise than by a status 403 or 400 (the
    exchange itself fails, the body is not JSON, any other status) costs
    the credential nothing: it stays in the pool, the store is not
    touched, and [getToken()] goes on to the next credential of the
    ring, returning it when it is valid.  In a pool of one there is no
    next credential and [getToken()] returns [null], the credential still
    being in the pool. *)
Theorem transient_failure_skips_credential w tok :
  clock w - lastLoadTime (mgr w) < loadInterval →
  tokens (mgr w) !! currentIndex (mgr w) = Some tok →
  TM.isExpired (clock w) tok = true →
  transient_failure (oauth (fetches w) (refresh_token tok)) = true →
  let failed := clock w + Z.of_nat (latency (oauth (fetches w) (refresh_token tok))) in
  let next := ((currentIndex (mgr w) + 1) mod length (tokens (mgr w)))%nat in
  (length (tokens (mgr w)) = 1%nat →
     ∃ w', getToken w = (w', Ok None)
       ∧ tokens (mgr w') = tokens (mgr w) ∧ disk w' = disk w)
  ∧ (∀ tok2, (2 ≤ length (tokens (mgr w)))%nat →
       tokens (mgr w) !! next = Some tok2 →
       TM.isExpired failed tok2 = false →
       ∃ w', getToken w = (w', Ok (Some tok2))
         ∧ tokens (mgr w') = tokens (mgr w) ∧ disk w' = disk w
         ∧ currentIndex (mgr w') = ((next + 1) mod length (tokens (mgr w)))%nat
         ∧ fetches w' = S (fetches w) ∧ clock w' = failed).
Proof.
  intros Hfresh Hl Hexp Htr failed next.
  rewrite (getToken_first_turn oauth generateProjectId generateSessionId w tok) by done.
  rewrite turn_exact, Hl, Hexp.
  destruct (refreshToken_transient (currentIndex (mgr w)) tok w Htr)
    as (w1 & e & -> & -> & Hm & Hd & Hk & Hf).
  set (w2 := exec TM.advance (add_log (Error, RefreshFailed (currentIndex (mgr w1) + 1)) w1)).
  assert (Ht2 : tokens (mgr w2) = tokens (mgr w)).
  { unfold w2, TM.advance. run. by rewrite Hm. }
  assert (Hc2 : currentIndex (mgr w2) = next).
  { unfold w2, TM.advance. run. by rewrite Hm. }
  assert (Hd2 : disk w2 = disk w) by (unfold w2, TM.advance; run; done).
  assert (Hk2 : clock w2 = failed) by (unfold w2, TM.advance; run; done).
  assert (Hf2 : fetches w2 = S (fetches w)) by (unfold w2, TM.advance; run; done).
  clearbody w2. split.
  - intros Hone. rewrite Hone. cbn. by exists w2.
  - intros tok2 Htwo Hnext Hvalid.
    destruct (length (tokens (mgr w))) as [|[|n]] eqn:Hlen; [lia|lia|]. cbn [Nat.pred].
    rewrite loop_unfold, turn_exact, Ht2, Hc2, Hnext, Hk2, Hvalid.
    eexists. split; [reflexivity|]. unfold TM.recordUsage, TM.advance. run.
    rewrite Ht2, Hc2, Hd2, Hf2, Hk2, Hlen. repeat split; done.
Qed.

End TokenManagerMore.

(** *** The same, on the sample data *)

Lemma valid_credential_needs_no_io_witness :
  let getToken := TM.getToken (Sample.answers 403) Sample.ids Sample.ids in
  ∃ w', getToken Sample.ring_world = (w', Ok (Some (Sample.pooled Sample.credB)))
    ∧ disk w' = disk Sample.ring_world ∧ fetches w' = 0%nat ∧ logs w' = []
    ∧ currentIndex (mgr w') = 2%nat.
Proof.
  intros getToken.
  destruct (valid_credential_needs_no_io (Sample.answers 403) Sample.ids Sample.ids
              Sample.ring_world (Sample.pooled Sample.credB) eq_refl eq_refl eq_refl)
    as (w' & Hget & Hd & Hf & Hl & _ & _ & _ & _ & _ & Hc & _).
  exists w'. split; [exact Hget|]. split; [exact Hd|]. split; [exact Hf|].
  split; [exact Hl|exact Hc].
Defined.

Lemma refreshed_credential_is_returned_witness :
  let getToken := TM.getToken Sample.grants Sample.ids Sample.ids in
  let tok' := set_grant (Some [99%N]) (Some 3600) 1001005 (Sample.pooled Sample.lapsedA) in
  ∃ w', getToken Sample.lapsed_world = (w', Ok (Some tok'))
    ∧ tokens (mgr w') = [tok'; Sample.pooled Sample.credB]
    ∧ currentIndex (mgr w') = 1%nat
    ∧ fetches w' = 1%nat
    ∧ file (disk w') = Some [tokenToSave tok'; Sample.credB].
Proof.
  intros getToken tok'.
  destruct (refreshed_credential_is_returned Sample.grants Sample.ids Sample.ids
              Sample.lapsed_world (Sample.pooled Sample.lapsedA) 200 []
              (mkGrant (Some [99%N]) (Some 3600)) eq_refl eq_refl eq_refl eq_refl eq_refl)
    as (w' & Hget & Ht & Hc & Hf & _ & Hfile).
  exists w'. split; [exact Hget|]. split; [exact Ht|]. split; [exact Hc|].
  split; [exact Hf|].
  rewrite (Hfile _ eq_refl eq_refl), Ht. reflexivity.
Defined.

Lemma pool_holds_enabled_credentials_witness :
  let getToken := TM.getToken (Sample.answers 403) Sample.ids Sample.ids in
  pool_enabled (mgr Sample.lapsed_world)
  ∧ pool_enabled (mgr (exec getToken Sample.lapsed_world))
  ∧ pool_enabled (mgr (exec (TM.disableCurrentToken (Sample.pooled Sample.credB))
                            Sample.lapsed_world)).
Proof.
  intros getToken.
  assert (H : pool_enabled (mgr Sample.lapsed_world)).
  { unfold pool_enabled.
    change (Forall (λ t, enabled t = true)
              [Sample.pooled Sample.lapsedA; Sample.pooled Sample.credB]).
    repeat (apply Forall_cons; split; [reflexivity|]). apply Forall_nil_2. }
  destruct (pool_holds_enabled_credentials (Sample.answers 403) Sample.ids Sample.ids
              Sample.lapsed_world) as (_ & _ & Hkeep).
  destruct (Hkeep H) as (Hget & _ & _ & Hcur & _).
  split; [exact H|]. split; [exact Hget|exact (Hcur _)].
Defined.

Lemma usage_counts_dispatches_witness :
  let getToken := TM.getToken (Sample.answers 403) Sample.ids Sample.ids in
  let w' := exec getToken Sample.ring_world in
  (TM.getTokenRequests (Sample.pooled Sample.credB) w').2 = Ok 1%nat
  ∧ (TM.getTokenRequests (Sample.pooled Sample.credA) w').2 = Ok 0%nat
  ∧ ∃ rep', (TM.getUsageStats w').2 = Ok rep' ∧ TM.totalRequests rep' = 1%nat.
Proof.
  intros getToken w'.
  assert (H : getToken Sample.ring_world = (w', Ok (Some (Sample.pooled Sample.credB))))
    by (vm_compute; reflexivity).
  destruct (usage_counts_dispatches (Sample.answers 403) Sample.ids Sample.ids _ _ _ H)
    as (Hone & (rep & rep' & Hrep & Hrep' & Htotal) & _).
  split; [|split].
  - destruct (Hone (Sample.pooled Sample.credB)) as (n & Hn & Hn').
    injection Hn as <-. exact Hn'.
  - destruct (Hone (Sample.pooled Sample.credA)) as (n & Hn & Hn').
    injection Hn as <-. exact Hn'.
  - exists rep'. split; [exact Hrep'|]. rewrite Htotal. injection Hrep as <-. reflexivity.
Defined.

Lemma save_rewrites_only_pooled_entries_witness :
  let w := with_mgr (set_tokens [Sample.pooled Sample.credB]) Sample.ring_world in
  ∃ saved, file (disk (exec TM.saveToFile w)) = Some saved
    ∧ saved !! 0%nat = Some Sample.credA
    ∧ refresh_token <$> saved = refresh_token <$> [Sample.credA; Sample.credB; Sample.credC].
Proof.
  intros w.
  destruct (save_rewrites_only_pooled_entries w [Sample.credA; Sample.credB; Sample.credC]
              eq_refl eq_refl) as (saved & Hf & _ & _ & Hrts & Hkeep & _).
  exists saved. split; [exact Hf|]. split; [|exact Hrts].
  apply Hkeep; [reflexivity|].
  apply Forall_cons. split; [discriminate|]. apply Forall_nil_2.
Defined.

Lemma load_yields_enabled_entries_witness :
  let w' := exec (TM.initialize Sample.ids Sample.ids) Sample.ring_world in
  ∃ arr, cachedData (mgr w') = Some arr ∧ file (disk w') = Some arr
    ∧ length (tokens (mgr w')) = length (List.filter enabled arr)
    ∧ currentIndex (mgr w') = 0%nat
    ∧ accesses (disk w') = 1%nat.
Proof.
  intros w'.
  destruct (load_yields_enabled_entries Sample.ids Sample.ids Sample.ring_world
              [Sample.credA; Sample.credB; Sample.credC] eq_refl (or_intror eq_refl))
    as (arr & Hc & Hf & _ & Hpool & Hcur & _ & Hacc & _).
  exists arr. split; [exact Hc|]. split; [exact Hf|].
  split; [exact (Forall2_length _ _ _ Hpool)|]. split; [exact Hcur|exact Hacc].
Defined.

Lemma handleRequestError_never_throws_witness :
  TM.handleRequestError (Sample.answers 403) Sample.ids Sample.ids
    ServerSample.overloaded (Some [11%N]) Sample.ring_world
  = (Sample.ring_world, Ok None)
  ∧ all_keyed Sample.all_lapsed_world
  ∧ ∃ w' r, TM.handleRequestError (Sample.answers 403) Sample.ids Sample.ids
              (mkError (Some 403) []) (Some [11%N]) Sample.all_lapsed_world = (w', Ok r).
Proof.
  assert (H503 : statusCode ServerSample.overloaded ≠ Some 403) by discriminate.
  assert (Hg : grants_keyed (Sample.answers 403)) by (intros k rt s text g; discriminate).
  assert (Hpool : keyed [Sample.pooled Sample.lapsedA; Sample.pooled Sample.lapsedB]).
  { repeat (apply Forall_cons; split; [discriminate|]). apply Forall_nil_2. }
  assert (Hstore : keyed [Sample.lapsedA; Sample.lapsedB]).
  { repeat (apply Forall_cons; split; [discriminate|]). apply Forall_nil_2. }
  assert (HJ : all_keyed Sample.all_lapsed_world).
  { split; [exact Hpool|]. split; intros c [= <-]; exact Hstore. }
  split; [|split; [exact HJ|]].
  - exact (proj1 (handleRequestError_never_throws (Sample.answers 403) Sample.ids Sample.ids
                    ServerSample.overloaded (Some [11%N]) Sample.ring_world) H503).
  - destruct (proj2 (handleRequestError_never_throws (Sample.answers 403) Sample.ids Sample.ids
                       (mkError (Some 403) []) (Some [11%N]) Sample.all_lapsed_world) Hg HJ)
      as (w' & r & Hrun & _).
    by exists w', r.
Defined.

Lemma refresh_after_403_keeps_cursor_witness :
  let tok' := set_grant (Some [99%N]) (Some 3600) 1001005 (Sample.pooled Sample.lapsedA) in
  ∃ w', TM.handleRequestError Sample.grants Sample.ids Sample.ids
          (mkError (Some 403) []) (Some [11%N]) Sample.lapsed_world = (w', Ok (Some tok'))
    ∧ tokens (mgr w') !! currentIndex (mgr w') = Some tok'
    ∧ currentIndex (mgr w') = 0%nat
    ∧ usageStats (mgr w') = ∅.
Proof.
  intros tok'.
  destruct (refresh_after_403_keeps_cursor Sample.grants Sample.ids Sample.ids
              (mkError (Some 403) []) Sample.lapsed_world (Sample.pooled Sample.lapsedA)
              200 [] (mkGrant (Some [99%N]) (Some 3600)) eq_refl eq_refl eq_refl eq_refl)
    as (w' & Hrun & _ & Hcur & Hidx & Hu & _).
  exists w'. split; [exact Hrun|]. split; [exact Hcur|]. split; [exact Hidx|exact Hu].
Defined.

Lemma refreshed_credential_is_reused_witness :
  let getToken := TM.getToken Sample.grants Sample.ids Sample.ids in
  let w := Sample.loaded_world [Sample.lapsedA] 0 1000000 1001000 true true in
  let tok' := set_grant (Some [99%N]) (Some 3600) 1001005 (Sample.pooled Sample.lapsedA) in
  ∃ w1 w2, getToken w = (w1, Ok (Some tok'))
    ∧ getToken (advance_clock 1000 w1) = (w2, Ok (Some tok'))
    ∧ fetches w2 = 1%nat.
Proof.
  intros getToken w tok'.
  assert (Hg : 1001000 + Z.of_nat 5 ≠ 0) by discriminate.
  assert (Hex : 3600 ≠ 0) by discriminate.
  assert (Hdt : 0 ≤ 1000) by discriminate.
  destruct (refreshed_credential_is_reused Sample.grants Sample.ids Sample.ids
              w (Sample.pooled Sample.lapsedA) 200 [] (mkGrant (Some [99%N]) (Some 3600)) 3600 1000
              eq_refl eq_refl eq_refl eq_refl eq_refl eq_refl eq_refl Hg Hex Hdt
              eq_refl eq_refl)
    as (w1 & w2 & H1 & H2 & Hf1 & Hf2).
  exists w1, w2. split; [exact H1|]. split; [exact H2|]. rewrite Hf2. exact Hf1.
Defined.

Lemma disableCurrentToken_removes_holder_witness :
  ∃ w', TM.disableCurrentToken (Sample.pooled Sample.credB) Sample.ring_world = (w', Ok tt)
    ∧ tokens (mgr w') = [Sample.pooled Sample.credA; Sample.pooled Sample.credC]
    ∧ fetches w' = 0%nat.
Proof.
  destruct (disableCurrentToken_removes_holder Sample.ring_world (Sample.pooled Sample.credB))
    as (_ & Hfound & _).
  assert (Hacc : access_token (Sample.pooled Sample.credB) ≠ None) by discriminate.
  assert (Hin : Sample.pooled Sample.credB ∈ tokens (mgr Sample.ring_world)).
  { apply list_elem_of_further, list_elem_of_here. }
  assert (Hnd : NoDup (access_token <$> tokens (mgr Sample.ring_world))).
  { apply (bool_decide_unpack _). vm_compute. exact I. }
  destruct (Hfound (Sample.pooled Sample.credB) Hin eq_refl Hacc Hnd)
    as (w' & Hrun & Ht & _ & _ & Hf).
  exists w'. split; [exact Hrun|]. split; [exact Ht|exact Hf].
Defined.

Lemma usage_report_follows_pool_witness :
  ∃ rep, TM.getUsageStats Sample.ring_world = (Sample.ring_world, Ok rep)
    ∧ TM.totalTokens rep = 3%nat
    ∧ ∃ line, TM.reportTokens rep !! 1%nat = Some line ∧ TM.isCurrent line = true.
Proof.
  destruct (usage_report_follows_pool Sample.ring_world)
    as (rep & Hrun & Htotal & _ & _ & _ & Hcur).
  assert (Hok : cursor_ok (mgr Sample.ring_world)) by (intros _; vm_compute; lia).
  assert (Hne : tokens (mgr Sample.ring_world) ≠ []) by discriminate.
  exists rep. split; [exact Hrun|]. split; [exact Htotal|exact (Hcur Hok Hne)].
Defined.

Lemma transient_failure_skips_credential_witness :
  let getToken := TM.getToken (Sample.answers 401) Sample.ids Sample.ids in
  ∃ w', getToken Sample.lapsed_world = (w', Ok (Some (Sample.pooled Sample.credB)))
    ∧ tokens (mgr w') = tokens (mgr Sample.lapsed_world)
    ∧ disk w' = disk Sample.lapsed_world
    ∧ fetches w' = 1%nat.
Proof.
  intros getToken.
  destruct (transient_failure_skips_credential (Sample.answers 401) Sample.ids Sample.ids
              Sample.lapsed_world (Sample.pooled Sample.lapsedA)
              eq_refl eq_refl eq_refl eq_refl) as [_ Hnext].
  assert (Htwo : (2 ≤ length (tokens (mgr Sample.lapsed_world)))%nat) by (vm_compute; lia).
  destruct (Hnext (Sample.pooled Sample.credB) Htwo eq_refl eq_refl)
    as (w' & Hrun & Ht & Hd & _ & Hf & _).
  exists w'. split; [exact Hrun|]. split; [exact Ht|]. split; [exact Hd|exact Hf].
Defined.

(** * Further properties of the handler *)

Section HandlerMore.
Context {Tools Params ToolCall Config Payload : Type}.
Variable oauth : nat → jsstring → OAuthReply.
Variable generateProjectId : nat → jsstring.
Variable generateSessionId : nat → jsstring.
Variable generateRequestBody :
    list Server.Message → jsstring → Params → option Tools → option jsstring
    → result (Server.RequestBody Tools Config Payload).
Variable generateAssistantResponseNoStream :
    Server.RequestBody Tools Config Payload → Token → Server.BlockingReply ToolCall.
Variable generateAssistantResponse :
    Server.RequestBody Tools Config Payload → Token → Server.StreamReply ToolCall.

Import Server.

Abbreviation getTokenOp := (TM.getToken oauth generateProjectId generateSessionId).
Abbreviation chatCompletions :=
    (Server.chatCompletions oauth generateProjectId generateSessionId generateRequestBody
       generateAssistantResponseNoStream generateAssistantResponse).
Abbreviation translatedBy := (translated generateRequestBody).
Abbreviation postChatCompletions :=
    (Server.postChatCompletions oauth generateProjectId generateSessionId generateRequestBody
       generateAssistantResponseNoStream generateAssistantResponse).
Abbreviation prepared :=
    (handler_prepared oauth generateProjectId generateSessionId generateRequestBody
       generateAssistantResponseNoStream generateAssistantResponse).

(** X14.  A request whose body has no [messages] is answered with status
    400 and a JSON error body, and that is all: no credential is taken
    from the pool, nothing is logged and no upstream call is made,
    whatever the other fields of the body are.  A request that has no
    body at all is not answered by the handler: the handler rejects with a
    [TypeError] before its [try] block, nothing being written. *)
Theorem missing_messages_is_rejected (req : Request Tools Params) w :
  messages req = None →
  postChatCompletions (WithBody req) (start w)
  = (mkConn w (mkResponse [ContentTypeJson] 400 true true [Body (ErrorBody messagesRequired)])
            None (default true (stream req)), Ok tt)
  ∧ ∀ authHeader, postChatCompletions (NoBody authHeader) (start w)
                  = (start w, Throw TypeError).
Proof.
  intros Hm. split; [|done].
  unfold Server.postChatCompletions, Server.chatCompletions, Server.chatCompletions_try,
    start, fresh.
  srun. rewrite Hm. srun. reflexivity.
Qed.

(** X15.  A real stream that the upstream ends normally is: one chunk per
    fragment, in the order of the fragments, a tool-calls fragment as a
    tool-calls chunk and any other as a content chunk; then the finish
    chunk, [tool_calls] when some fragment was a tool-calls fragment and
    [stop] otherwise; then the terminator.  The chunks carry the model
    as the request names it and the time at which the stream began, the
    status is 200, the stream is ended and nothing is logged. *)
Theorem real_stream_sequence req msgs w w1 token actual body :
  messages req = Some msgs →
  getTokenOp w = (w1, Ok (Some token)) →
  actualModel (model req) = Some actual →
  translatedBy req msgs actual = Ok body →
  isFakeStreaming (model req) = false →
  effectiveStream req msgs = true →
  JS.includes imageMarker actual = false →
  let reply := generateAssistantResponse body token in
  ending reply = Ok tt →
  let t := clock w1 in
  chatCompletions req (start w)
  = (mkConn w1
       (mkResponse streamHeaders 200 true true
          ((fragmentChunk t (model req) <$> fragments reply)
           ++ [finishChunk t (model req)
                 (if existsb isToolCallsFragment (fragments reply) then ToolCalls else Stop);
               Done]))
       None true, Ok tt).
Proof.
  intros Hm Hget Hact Htr Hfake Hs Himg reply Hend t.
  rewrite (prepared req msgs w w1 token actual body Hm Hget Hact Htr).
  rewrite Hfake, Hs, Himg. cbn [andb negb].
  unfold try_catch. rewrite realStreaming_run. fold reply. rewrite Hend. reflexivity.
Qed.

(** X16.  For a model whose name contains [-image], a streamed request
    that is not fake streaming makes the blocking upstream call, with a
    request limited to one candidate, marked [image_gen], without tools
    and with the drawing instruction appended to the first system text,
    and streams the answer as one content chunk, a [stop] finish chunk
    and the terminator; tool calls in the answer are not passed on. *)
Theorem image_model_stream req msgs w w1 token actual b text parts r :
  messages req = Some msgs →
  getTokenOp w = (w1, Ok (Some token)) →
  actualModel (model req) = Some actual →
  JS.includes imageMarker actual = true →
  generateRequestBody msgs actual (params req) (tools req) (apiKeyOf (authorization req))
    = Ok b →
  systemInstruction b = Some (text :: parts) →
  isFakeStreaming (model req) = false →
  effectiveStream req msgs = true →
  let body := mkBody SingleCandidate (Some ((text ++ imageInstruction) :: parts))
                     None None (Some imageGen) (payload b) in
  let reply := generateAssistantResponseNoStream body token in
  answer reply = Ok r →
  let t := clock w1 in
  chatCompletions req (start w)
  = (mkConn (advance_clock (duration reply) w1)
       (mkResponse streamHeaders 200 true true
          [contentChunk t (model req) (completionContent r);
           finishChunk t (model req) Stop; Done])
       None true, Ok tt).
Proof.
  intros Hm Hget Hact Himg Hb Hsys Hfake Hs body reply Hans t.
  assert (Htr : translatedBy req msgs actual = Ok body).
  { unfold translated. rewrite Hb, Himg. unfold imageConfig. by rewrite Hsys. }
  rewrite (prepared req msgs w w1 token actual body Hm Hget Hact Htr).
  rewrite Hfake, Hs, Himg. cbn [andb negb].
  unfold try_catch. rewrite imageStreaming_run. fold reply. rewrite Hans. reflexivity.
Qed.

(** X17.  A request served without streaming whose upstream call succeeds
    gets status 200 and one JSON body, the completion: its content, its
    tool calls when there are any (the field is left out otherwise), the
    finish reason [tool_calls] or [stop] accordingly, the model as the
    request names it and the time at which the answer came.  This holds
    for a fake-streaming model as well. *)
Theorem non_streamed_completion req msgs w w1 token actual body r :
  messages req = Some msgs →
  getTokenOp w = (w1, Ok (Some token)) →
  actualModel (model req) = Some actual →
  translatedBy req msgs actual = Ok body →
  effectiveStream req msgs = false →
  let reply := generateAssistantResponseNoStream body token in
  answer reply = Ok r →
  let t := clock w1 + duration reply in
  chatCompletions req (start w)
  = (mkConn (advance_clock (duration reply) w1)
       (mkResponse [ContentTypeJson] 200 true true
          [Body (CompletionBody t (t / 1000) (model req) (completionContent r)
                   (match toolCalls r with [] => None | _ => Some (toolCalls r) end)
                   (match toolCalls r with [] => Stop | _ => ToolCalls end))])
       None false, Ok tt).
Proof.
  intros Hm Hget Hact Htr Hs reply Hans t.
  rewrite (prepared req msgs w w1 token actual body Hm Hget Hact Htr).
  rewrite Hs, andb_false_r. cbn [andb negb].
  unfold try_catch. rewrite nonStreaming_run. fold reply. rewrite Hans.
  cbv zeta. fold t. by destruct (toolCalls r).
Qed.

(** The [catch] block, entered before anything was sent, answers and
    ends the response. *)
Lemma catch_answers (req : Request Tools Params) e w1 hs st s (P : Prop) :
  ∃ c : Conn ToolCall,
    chatCompletions_catch req e (mkConn w1 (mkResponse hs st false false []) None s)
    = (c, Ok tt)
    ∧ interval c = None ∧ headersSent (res c) = true ∧ written (res c) ≠ []
    ∧ (writableEnded (res c) = false → P).
Proof.
  rewrite catch_unsent. eexists. split; [reflexivity|]. cbn.
  destruct s; cbn; repeat split; done.
Qed.

(** X18.  A request that has a body is always answered, and the handler
    does not reject on it: for every such request and every behaviour of
    the store, the OAuth endpoint, the translator and the upstream (an
    exception of [getToken()] included), the handler returns normally with
    the heartbeat timer cleared, the headers sent and something written.
    The response is also ended, with one exception: a real stream of a
    model that is not an image model which the upstream breaks off after
    at least one fragment is left open.  On a request without a body the
    handler rejects, with a [TypeError] and nothing written. *)
Theorem handler_always_answers (r : Incoming Tools Params) w :
  match r with
  | NoBody _ => postChatCompletions r (start w) = (start w, Throw TypeError)
  | WithBody req =>
      ∃ c, postChatCompletions r (start w) = (c, Ok tt)
        ∧ interval c = None
        ∧ headersSent (res c) = true
        ∧ written (res c) ≠ []
        ∧ (writableEnded (res c) = false →
           ∃ msgs w1 token actual body e,
             messages req = Some msgs
             ∧ getTokenOp w = (w1, Ok (Some token))
             ∧ actualModel (model req) = Some actual
             ∧ translatedBy req msgs actual = Ok body
             ∧ isFakeStreaming (model req) = false
             ∧ effectiveStream req msgs = true
             ∧ JS.includes imageMarker actual = false
             ∧ fragments (generateAssistantResponse body token) ≠ []
             ∧ ending (generateAssistantResponse body token) = Throw e)
  end.
Proof.
  destruct r as [authHeader|req]; [done|]. cbn [Server.postChatCompletions].
  destruct (messages req) as [msgs|] eqn:Hm.
  2: { unfold Server.chatCompletions, Server.chatCompletions_try, start, fresh.
       srun. rewrite Hm. srun.
       eexists. split; [reflexivity|]. cbn. repeat split; done. }
  destruct (getTokenOp w) as [w1 [[token|]|e]] eqn:Hget.
  2,3: unfold Server.chatCompletions, Server.chatCompletions_try, start, fresh;
       srun; rewrite Hm; srun; rewrite Hget; srun; apply catch_answers.
  destruct (actualModel (model req)) as [actual|] eqn:Hact.
  2: { unfold Server.chatCompletions, Server.chatCompletions_try, start, fresh.
       srun. rewrite Hm. srun. rewrite Hget. srun. rewrite Hact. srun. apply catch_answers. }
  destruct (translatedBy req msgs actual) as [body|e] eqn:Htr.
  2: { rewrite (handler_untranslated oauth generateProjectId generateSessionId
                  generateRequestBody generateAssistantResponseNoStream
                  generateAssistantResponse req msgs w w1 token actual e Hm Hget Hact Htr).
       unfold fresh. apply catch_answers. }
  rewrite (prepared req msgs w w1 token actual body Hm Hget Hact Htr).
  assert (Hnon : ∃ c, try_catch (Server.nonStreaming generateAssistantResponseNoStream
                                   (model req) body token)
                        (chatCompletions_catch req) (mkConn w1 fresh None false) = (c, Ok tt)
                   ∧ interval c = None ∧ headersSent (res c) = true ∧ written (res c) ≠ []
                   ∧ (writableEnded (res c) = false → False)).
  { unfold try_catch. rewrite nonStreaming_run.
    destruct (answer (generateAssistantResponseNoStream body token)) as [r|e].
    - eexists. split; [reflexivity|]. cbn. repeat split; done.
    - unfold fresh. apply catch_answers. }
  destruct (isFakeStreaming (model req)) eqn:Hfake, (effectiveStream req msgs) eqn:Hs;
    cbn [andb negb].
  - unfold try_catch.
    destruct (fakeStreaming_run generateAssistantResponseNoStream w1 true actual body token)
      as (w2 & ->).
    eexists. split; [reflexivity|]. cbn. repeat split; done.
  - destruct Hnon as (c & -> & ? & ? & ? & Hopen). exists c. repeat split; done.
  - unfold try_catch. destruct (JS.includes imageMarker actual) eqn:Himg.
    + rewrite imageStreaming_run.
      destruct (answer (generateAssistantResponseNoStream body token)) as [r|e].
      * eexists. split; [reflexivity|]. cbn. repeat split; done.
      * apply catch_answers.
    + rewrite realStreaming_run.
      destruct (ending (generateAssistantResponse body token)) as [[]|e] eqn:Hend.
      * eexists. split; [reflexivity|]. cbn. repeat split; try done.
        by destruct (fragmentChunk _ _ <$> _).
      * destruct (fragments (generateAssistantResponse body token)) as [|f fs] eqn:Hfr.
        { cbn. apply catch_answers. }
        rewrite catch_sent by done. eexists. split; [reflexivity|]. cbn.
        repeat split; try done.
        intros _. exists msgs, w1, token, actual, body, e. rewrite Hfr. repeat split; done.
  - destruct Hnon as (c & -> & ? & ? & ? & Hopen). exists c. repeat split; done.
Qed.

End HandlerMore.

(** * The list of models and the chat route *)

Lemma startsWith_app (p s : jsstring) : JS.startsWith p (p ++ s) = true.
Proof. induction p as [|a p IH]; cbn; [done|]. by rewrite N.eqb_refl, IH. Qed.

Lemma slice_app (p s : jsstring) : JS.slice (length p) (p ++ s) = s.
Proof. unfold JS.slice. by rewrite drop_app_length. Qed.

(** X19.  The list of models names every upstream model twice: first
    all of them as they are, then all of them again, in the same order,
    under the fake-streaming prefix, created at the time of the request
    and otherwise unchanged.  The chat route takes every name of the
    second half for a fake-streaming model and resolves it to the
    upstream model it was made from. *)
Theorem listed_fake_models_resolve {Rest} now (data : list (Models.ModelInfo Rest)) :
  ∃ l, Models.listModels now (Ok (Some data)) = Models.ModelList l
    ∧ length l = (2 * length data)%nat
    ∧ take (length data) l = data
    ∧ ∀ i m, data !! i = Some m →
        ∃ m', l !! (length data + i)%nat = Some m'
          ∧ Server.isFakeStreaming (Some (Models.modelId m')) = true
          ∧ Server.actualModel (Some (Models.modelId m')) = Some (Models.modelId m)
          ∧ Models.modelCreated m' = now / 1000
          ∧ Models.modelRest m' = Models.modelRest m.
Proof.
  eexists. split; [reflexivity|].
  split; [rewrite length_app, length_map; lia|].
  split; [by rewrite take_app_length|].
  intros i m Hi. exists (Models.fakeStreamingModel now m).
  split.
  { rewrite lookup_app_r by lia.
    replace (length data + i - length data)%nat with i by lia.
    change (map ?f ?l) with (f <$> l). by rewrite list_lookup_fmap, Hi. }
  assert (Hfake : Server.isFakeStreaming
                    (Some (Models.modelId (Models.fakeStreamingModel now m))) = true).
  { unfold Server.isFakeStreaming. cbn [Models.fakeStreamingModel Models.modelId].
    by rewrite startsWith_app. }
  split; [done|]. split; [|done].
  unfold Server.actualModel. rewrite Hfake. cbn [fmap option_fmap option_map Models.modelId
    Models.fakeStreamingModel]. by rewrite slice_app.
Qed.

(** * The API key and rate limit middleware *)

(** X20.  The middleware hands a request on only when its path is not
    under [/v1/], or no API key is configured, or the request presents
    the configured key, or it presents a key that is valid and within
    its rate limit.  The configured key is never subject to the rate
    limit, nor looked up.  When the middleware answers itself, it is
    with 401 for a key that is not valid and with 429, the remaining
    quota shown as 0, for a valid key whose limit is used up. *)
Theorem middleware_passes_only_keyed_requests apiKey validateKey checkRateLimit path auth :
  let gate := ApiKey.apiKeyMiddleware apiKey validateKey checkRateLimit path auth in
  let provided := Server.apiKeyOf auth in
  (∀ hs, gate = Ok (ApiKey.Next hs) →
     JS.startsWith ApiKey.v1 path = false ∨ JS.truthy_opt apiKey = false
     ∨ provided = apiKey
     ∨ (validateKey provided = true ∧ ApiKey.allowed (checkRateLimit provided) = true))
  ∧ (provided = apiKey → gate = Ok (ApiKey.Next []))
  ∧ (∀ st hs b, gate = Ok (ApiKey.Answer st hs b) →
       JS.startsWith ApiKey.v1 path = true ∧ JS.truthy_opt apiKey = true ∧ provided ≠ apiKey
       ∧ (st = 401 ∧ validateKey provided = false ∧ hs = [] ∧ b = ApiKey.InvalidKey
          ∨ st = 429 ∧ validateKey provided = true
            ∧ ApiKey.allowed (checkRateLimit provided) = false
            ∧ (ApiKey.XRateLimitRemaining, 0) ∈ hs)).
Proof.
  intros gate provided. unfold gate, ApiKey.apiKeyMiddleware. fold provided.
  destruct (JS.startsWith ApiKey.v1 path); [|split; [auto|done]].
  destruct apiKey as [key|]; [|split; [auto|done]]. cbn [JS.truthy_opt].
  destruct (JS.truthy key); [|split; [auto|done]].
  case_bool_decide as Hkey; [split; [auto|done]|].
  destruct (validateKey provided); cbn [negb].
  2: { split; [done|]. split; [done|]. intros st hs b [= <- <- <-]. auto 10. }
  destruct (ApiKey.allowed (checkRateLimit provided)); cbn [negb].
  - split; [auto|]. split; [done|].
    intros st hs b.
    destruct (ApiKey.limit (checkRateLimit provided)) as [l|]; [|done].
    destruct (l =? 0); [done|].
    by destruct (ApiKey.remaining (checkRateLimit provided)).
  - split; [by destruct provided|]. split; [done|].
    intros st hs b. destruct provided; [|done]. intros [= <- <- <-].
    split; [done|]. split; [done|]. split; [done|]. right.
    split; [done|]. split; [done|]. split; [done|].
    apply list_elem_of_further, list_elem_of_here.
Qed.

(** *** The same, on the sample data *)

Section HandlerMoreSamples.
Import Server ServerSample.

Lemma missing_messages_is_rejected_witness :
  let req := Server.mkRequest None (Some plainModel) (Some true) None tt None in
  let post := Server.postChatCompletions (Sample.answers 403) Sample.ids Sample.ids translate
                (blocking 0 (Throw overloaded)) (streaming [] (Ok tt)) in
  exec (post (WithBody req)) (start world)
  = mkConn world (mkResponse [ContentTypeJson] 400 true true [Body (ErrorBody messagesRequired)])
           None true
  ∧ (post (NoBody None) (start world)).2 = Throw TypeError.
Proof.
  intros req post.
  destruct (missing_messages_is_rejected (Sample.answers 403) Sample.ids Sample.ids translate
              (blocking 0 (Throw overloaded)) (streaming [] (Ok tt)) req world eq_refl)
    as [Hbody Hnone].
  split.
  - exact (f_equal fst Hbody).
  - exact (f_equal snd (Hnone None)).
Defined.

Lemma real_stream_sequence_witness :
  let s := streaming [ContentFragment [72; 105]%N; ToolCallsFragment [5%nat];
                      ContentFragment [33]%N] (Ok tt) in
  let c := handle (blocking 0 (Throw overloaded)) s (request [long] plainModel None) world in
  written (res c)
  = [contentChunk 1001000 (Some plainModel) [72; 105]%N;
     toolCallsChunk 1001000 (Some plainModel) [5%nat];
     contentChunk 1001000 (Some plainModel) [33]%N;
     finishChunk 1001000 (Some plainModel) ToolCalls; Done]
  ∧ writableEnded (res c) = true.
Proof.
  intros s c.
  pose proof (real_stream_sequence (Sample.answers 403) Sample.ids Sample.ids translate
                (blocking 0 (Throw overloaded)) s (request [long] plainModel None) [long] world
                (exec (TM.getToken (Sample.answers 403) Sample.ids Sample.ids) world)
                (Sample.pooled Sample.credA) plainModel
                (mkBody (Config := unit) (Translated tt) (Some [[1%N]]) (@None unit) None None tt)
                eq_refl eq_refl eq_refl eq_refl eq_refl eq_refl eq_refl eq_refl) as H.
  unfold c, handle, exec. rewrite H. split; reflexivity.
Defined.

Lemma image_model_stream_witness :
  let b := blocking 300 (Ok (mkCompletion [79; 75]%N [5%nat])) in
  let c := handle b (streaming [] (Ok tt))
             (request [long] (plainModel ++ imageMarker) None) world in
  written (res c)
  = [contentChunk 1001000 (Some (plainModel ++ imageMarker)) [79; 75]%N;
     finishChunk 1001000 (Some (plainModel ++ imageMarker)) Stop; Done].
Proof.
  intros b c.
  pose proof (image_model_stream (Sample.answers 403) Sample.ids Sample.ids translate
                b (streaming [] (Ok tt)) (request [long] (plainModel ++ imageMarker) None)
                [long] world
                (exec (TM.getToken (Sample.answers 403) Sample.ids Sample.ids) world)
                (Sample.pooled Sample.credA) (plainModel ++ imageMarker)
                (mkBody (Config := unit) (Translated tt) (Some [[1%N]]) (@None unit) None None tt)
                [1%N] [] (mkCompletion [79; 75]%N [5%nat])
                eq_refl eq_refl eq_refl eq_refl eq_refl eq_refl eq_refl eq_refl eq_refl) as H.
  unfold c, handle, exec. rewrite H. reflexivity.
Defined.

Lemma non_streamed_completion_witness :
  let b := blocking 300 (Ok (mkCompletion [79; 75]%N [])) in
  let c := handle b (streaming [] (Ok tt)) (request [long] fakeModel (Some false)) world in
  res c
  = mkResponse [ContentTypeJson] 200 true true
      [Body (CompletionBody 1001300 1001 (Some fakeModel) [79; 75]%N None Stop)].
Proof.
  intros b c.
  pose proof (non_streamed_completion (Sample.answers 403) Sample.ids Sample.ids translate
                b (streaming [] (Ok tt)) (request [long] fakeModel (Some false)) [long] world
                (exec (TM.getToken (Sample.answers 403) Sample.ids Sample.ids) world)
                (Sample.pooled Sample.credA) plainModel
                (mkBody (Config := unit) (Translated tt) (Some [[1%N]]) (@None unit) None None tt)
                (mkCompletion [79; 75]%N [])
                eq_refl eq_refl eq_refl eq_refl eq_refl eq_refl) as H.
  unfold c, handle, exec. rewrite H. reflexivity.
Defined.

Lemma handler_always_answers_witness :
  let s := streaming [ContentFragment [72; 105]%N] (Throw overloaded) in
  let req := request [long] plainModel None in
  let c := exec (Server.postChatCompletions (Sample.answers 403) Sample.ids Sample.ids
                   translate (blocking 0 (Throw overloaded)) s (WithBody req))
                (start world) in
  interval c = None
  ∧ ∃ msgs w1 token actual body e,
      messages req = Some msgs
      ∧ TM.getToken (Sample.answers 403) Sample.ids Sample.ids world = (w1, Ok (Some token))
      ∧ actualModel (model req) = Some actual
      ∧ fragments (s body token) ≠ []
      ∧ ending (s body token) = Throw e.
Proof.
  intros s req c.
  destruct (handler_always_answers (Sample.answers 403) Sample.ids Sample.ids translate
              (blocking 0 (Throw overloaded)) s (WithBody req) world)
    as (c' & Hrun & Hint & _ & _ & Hopen).
  assert (Hc : c' = c) by (unfold c, exec; by rewrite Hrun).
  subst c'. split; [exact Hint|].
  destruct (Hopen eq_refl)
    as (msgs & w1 & token & actual & body & e & Hm & Hg & Ha & _ & _ & _ & _ & Hf & He).
  exists msgs, w1, token, actual, body, e.
  split; [exact Hm|]. split; [exact Hg|]. split; [exact Ha|]. split; [exact Hf|exact He].
Defined.

End HandlerMoreSamples.

Lemma listed_fake_models_resolve_witness :
  let data := [Models.mkModel [103%N] 7 tt; Models.mkModel [104%N] 8 tt] in
  ∃ l m', Models.listModels 5000 (Ok (Some data)) = Models.ModelList l
    ∧ l !! 3%nat = Some m'
    ∧ Server.actualModel (Some (Models.modelId m')) = Some [104%N]
    ∧ Models.modelCreated m' = 5.
Proof.
  intros data.
  destruct (listed_fake_models_resolve 5000 data) as (l & Hl & _ & _ & Hfake).
  destruct (Hfake 1%nat (Models.mkModel [104%N] 8 tt) eq_refl)
    as (m' & Hm' & _ & Hact & Hcr & _).
  exists l, m'. split; [exact Hl|]. split; [exact Hm'|]. split; [exact Hact|exact Hcr].
Defined.

Lemma middleware_passes_only_keyed_requests_witness :
  let gate := ApiKey.apiKeyMiddleware (Some [107%N]) (λ _, false)
                (λ _, ApiKey.mkCheck false [] None None None) in
  gate (ApiKey.v1 ++ [109%N]) (Some [107%N]) = Ok (ApiKey.Next [])
  ∧ ∀ st hs b, gate (ApiKey.v1 ++ [109%N]) (Some [120%N]) = Ok (ApiKey.Answer st hs b) →
      st = 401.
Proof.
  intros gate.
  destruct (middleware_passes_only_keyed_requests (Some [107%N]) (λ _, false)
              (λ _, ApiKey.mkCheck false [] None None None)
              (ApiKey.v1 ++ [109%N]) (Some [107%N])) as (_ & Hkey & _).
  destruct (middleware_passes_only_keyed_requests (Some [107%N]) (λ _, false)
              (λ _, ApiKey.mkCheck false [] None None None)
              (ApiKey.v1 ++ [109%N]) (Some [120%N])) as (_ & _ & Hanswer).
  split; [exact (Hkey eq_refl)|].
  intros st hs b H.
  destruct (Hanswer st hs b H) as (_ & _ & _ & [(-> & _)|(_ & Hvalid & _)]);
    [reflexivity|discriminate Hvalid].
Defined.
